(** * Shallow embedding of data_forest: BinarySearchTree, AVLTree, RedBlackTree

    Keys are of an arbitrary type [K] compared with [pcmp], the model of
    Rust's [PartialOrd::partial_cmp] ([None] = incomparable, as for NaN).
    The operators [<], [>] and [==] of the source are derived from it the way
    a lawful [PartialOrd]/[PartialEq] pair relates them.

    Rust's [Option<Box<Node>>] is the constructor [Leaf] (for [None]) or
    [Node] of each tree type; loops that walk down a tree with a cursor are
    written as structural recursion along the same path.  Where the source
    panics ([unwrap], [expect], [unreachable!]) the pure functions below
    return an arbitrary value; module [Checked] gives the same operations in
    the option monad ([None] = panic), and [CheckedProofs] shows they never
    panic on a reachable state. *)

From Stdlib Require Import List Arith Lia ZArith Bool Sorted Permutation.
Import ListNotations.

Set Implicit Arguments.


Section Keys.
Context {K : Type} (pcmp : K -> K -> option comparison).

(** [a < b] *)
Definition lt_b (a b : K) : bool :=
  match pcmp a b with Some Lt => true | _ => false end.

(** [a > b] *)
Definition gt_b (a b : K) : bool :=
  match pcmp a b with Some Gt => true | _ => false end.

(** [a == b] (consistent with [partial_cmp], as [PartialOrd] requires) *)
Definition eq_b (a b : K) : bool :=
  match pcmp a b with Some Eq => true | _ => false end.

(** A lawful [PartialOrd]: [a < b] iff [b > a], [Equal] only for equal
    values, [<] transitive.  [f64] is one (NaN is comparable to nothing). *)
Record partial_laws : Prop := {
  pcmp_lt_gt : forall a b, pcmp a b = Some Lt <-> pcmp b a = Some Gt;
  pcmp_eq : forall a b, pcmp a b = Some Eq -> a = b;
  pcmp_lt_trans : forall a b c,
    pcmp a b = Some Lt -> pcmp b c = Some Lt -> pcmp a c = Some Lt
}.

(** A total order ([Ord]): lawful, reflexive and total. *)
Record total_laws : Prop := {
  total_partial : partial_laws;
  pcmp_refl : forall a, pcmp a a = Some Eq;
  pcmp_total : forall a b, pcmp a b <> None
}.

(** Strict order on keys. *)
Definition key_lt (a b : K) : Prop := pcmp a b = Some Lt.

(** Key list after removing every key [==] to [v]. *)
Definition remove_key (v : K) (ks : list K) : list K :=
  filter (fun k => negb (eq_b v k)) ks.

End Keys.

(** A public mutation of a tree, for sequences of operations from [new()]. *)
Inductive op (K : Type) : Type :=
| Ins (v : K)
| Rem (v : K).
Arguments Ins {K} v.
Arguments Rem {K} v.

(** Reference membership after a sequence of operations: the last
    operation on a key decides. *)
Definition live {K : Type} (pcmp : K -> K -> option comparison)
    (ops : list (op K)) (k : K) : bool :=
  fold_left (fun b o =>
               match o with
               | Ins v => if eq_b pcmp k v then true else b
               | Rem v => if eq_b pcmp k v then false else b
               end) ops false.

(** Last element of a list, if any. *)
Fixpoint last_error {A : Type} (l : list A) : option A :=
  match l with
  | [] => None
  | [a] => Some a
  | _ :: l' => last_error l'
  end.

(** Keys used by concrete scenarios: [i32]-like integers, totally ordered. *)
Definition zcmp (a b : Z) : option comparison := Some (Z.compare a b).

(** [f64]-like keys: a number or NaN; NaN compares to nothing, itself
    included, as [f64]'s [partial_cmp] does. *)
Inductive f64 : Type :=
| Num (z : Z)
| NaN.

Definition f64_cmp (a b : f64) : option comparison :=
  match a, b with
  | Num x, Num y => Some (Z.compare x y)
  | _, _ => None
  end.

(** ** Binary search tree (src/binary_search_tree) *)
Module BST.
Section Ops.
Context {K : Type} (pcmp : K -> K -> option comparison).

(** [BinaryNode<T>]; [Leaf] is [None]. *)
Inductive tree : Type :=
| Leaf : tree
| Node (value : K) (left right : tree) : tree.

(** [BinarySearchTree<T>] *)
Record bst : Type := mk_bst {
  root : tree;
  min_value : option K;
  max_value : option K
}.

Definition new : bst := mk_bst Leaf None None.

(** The [while let] walk of [insert] followed by [*cursor = Some(new node)]. *)
Fixpoint insert_at (t : tree) (value : K) : tree :=
  match t with
  | Leaf => Node value Leaf Leaf
  | Node x l r =>
      match pcmp value x with
      | Some Lt => Node x (insert_at l value) r
      | Some Gt => Node x l (insert_at r value)
      | Some Eq | None => t
      end
  end.

(** [insert]: cache update, then the walk. The [_ => unreachable!()] arm
    (one cache set, the other not) keeps the caches here. *)
Definition insert (s : bst) (value : K) : bst :=
  let '(mn, mx) :=
    match s.(min_value), s.(max_value) with
    | None, None => (Some value, Some value)
    | Some mn, Some mx =>
        ((if lt_b pcmp value mn then Some value else Some mn),
         (if gt_b pcmp value mx then Some value else Some mx))
    | mn, mx => (mn, mx)
    end in
  mk_bst (insert_at s.(root) value) mn mx.

(** [pass_and_detach_local_minimum]: the leftmost node is unlinked and its
    right child takes its place; the [while] over [parent.left] is the
    recursion on the left spine. *)
Fixpoint pass_and_detach_local_minimum (t : tree) : tree * option K :=
  match t with
  | Leaf => (Leaf, None)
  | Node x Leaf r => (r, Some x)
  | Node x l r =>
      let '(l', m) := pass_and_detach_local_minimum l in (Node x l' r, m)
  end.

(** The cursor walk of [remove]. *)
Fixpoint remove_at (t : tree) (value : K) : tree :=
  match t with
  | Leaf => Leaf
  | Node x l r =>
      match pcmp value x with
      | Some Lt => Node x (remove_at l value) r
      | Some Gt => Node x l (remove_at r value)
      | Some Eq =>
          match l, r with
          | Leaf, Leaf => Leaf
          | Node _ _ _, Leaf => l
          | Leaf, Node _ _ _ => r
          | Node _ _ _, Node _ _ _ =>
              match pass_and_detach_local_minimum r with
              | (r', Some m) => Node m l r'
              | (_, None) => t (* [unwrap] on [None]: unreachable *)
              end
          end
      | None => t
      end
  end.

(** [refind_min]: value of the leftmost node. *)
Fixpoint refind_min (t : tree) : option K :=
  match t with
  | Leaf => None
  | Node x Leaf _ => Some x
  | Node _ l _ => refind_min l
  end.

(** [refind_max]: value of the rightmost node. *)
Fixpoint refind_max (t : tree) : option K :=
  match t with
  | Leaf => None
  | Node x _ Leaf => Some x
  | Node _ _ r => refind_max r
  end.

Definition remove (s : bst) (value : K) : bst :=
  let t := remove_at s.(root) value in
  mk_bst t (refind_min t) (refind_max t).

(** [contains] *)
Fixpoint contains_at (t : tree) (value : K) : bool :=
  match t with
  | Leaf => false
  | Node x l r =>
      match pcmp value x with
      | Some Lt => contains_at l value
      | Some Gt => contains_at r value
      | Some Eq => true
      | None => false
      end
  end.

Definition contains (s : bst) (value : K) : bool := contains_at s.(root) value.

Definition min (s : bst) : option K := s.(min_value).
Definition max (s : bst) : option K := s.(max_value).

Fixpoint size (t : tree) : nat :=
  match t with Leaf => 0 | Node _ l r => S (size l + size r) end.

(** Children pushed by one node of the breadth-first loops. *)
Definition children (t : tree) : list tree :=
  match t with
  | Leaf => []
  | Node _ l r =>
      (match l with Leaf => [] | _ => [l] end) ++
      (match r with Leaf => [] | _ => [r] end)
  end.

(** Loops are run with a bound [fuel] on their number of iterations; they
    return [None] if an [unwrap] fails or the bound is exhausted, and the
    public functions map [None] to an arbitrary value. *)

(** The [for _ in 0..level_size] loop of [height]: [n] times
    [queue.pop_front().unwrap()], pushing the node's children at the back. *)
Fixpoint pop_level (n : nat) (queue : list tree) : option (list tree) :=
  match n with
  | 0 => Some queue
  | S n' =>
      match queue with
      | [] => None
      | node :: queue' => pop_level n' (queue' ++ children node)
      end
  end.

(** The [while !queue.is_empty()] loop of [height]; the counter grows when
    the queue is non-empty after a level. *)
Fixpoint height_loop (fuel : nat) (queue : list tree) (height : nat)
    : option nat :=
  match fuel with
  | 0 => None
  | S f =>
      match queue with
      | [] => Some height
      | _ :: _ =>
          match pop_level (length queue) queue with
          | None => None
          | Some queue' =>
              height_loop f queue'
                (match queue' with [] => height | _ => S height end)
          end
      end
  end.

Definition height_checked (s : bst) : option nat :=
  match s.(root) with
  | Leaf => Some 0
  | t => height_loop (S (size t)) [t] 0
  end.

Definition height (s : bst) : nat :=
  match height_checked s with Some h => h | None => 0 end.

(** Inner [while let Some(node) = current] loop of [in_order]. *)
Fixpoint push_left (current : tree) (stack : list tree) : list tree :=
  match current with
  | Leaf => stack
  | Node _ l _ => push_left l (current :: stack)
  end.

(** Outer loop of [in_order]; the stack only ever holds nodes. *)
Fixpoint in_order_loop (fuel : nat) (stack : list tree) (current : tree)
    (result : list K) : option (list K) :=
  match fuel with
  | 0 => None
  | S f =>
      match stack, current with
      | [], Leaf => Some result
      | _, _ =>
          match push_left current stack with
          | Node x _ r :: stack' => in_order_loop f stack' r (result ++ [x])
          | Leaf :: stack' => in_order_loop f stack' Leaf result
          | [] => in_order_loop f [] Leaf result
          end
      end
  end.

Definition in_order_checked (s : bst) : option (list K) :=
  in_order_loop (S (size s.(root))) [] s.(root) [].

Definition in_order (s : bst) : list K :=
  match in_order_checked s with Some l => l | None => [] end.

(** Inner loop of [pre_order]: emit, push, go left. *)
Fixpoint pre_push_left (current : tree) (stack : list tree) (result : list K)
    : list tree * list K :=
  match current with
  | Leaf => (stack, result)
  | Node x l _ => pre_push_left l (current :: stack) (result ++ [x])
  end.

(** Outer loop of [pre_order]; [stack.pop().unwrap().right]. *)
Fixpoint pre_order_loop (fuel : nat) (stack : list tree) (current : tree)
    (result : list K) : option (list K) :=
  match fuel with
  | 0 => None
  | S f =>
      match stack, current with
      | [], Leaf => Some result
      | _, _ =>
          let '(stack1, result1) := pre_push_left current stack result in
          match stack1 with
          | Node _ _ r :: stack' => pre_order_loop f stack' r result1
          | Leaf :: stack' => pre_order_loop f stack' Leaf result1
          | [] => None
          end
      end
  end.

Definition pre_order_checked (s : bst) : option (list K) :=
  pre_order_loop (S (size s.(root))) [] s.(root) [].

Definition pre_order (s : bst) : list K :=
  match pre_order_checked s with Some l => l | None => [] end.

(** Position of a node: the path from the root, innermost step first
    ([false] = left, [true] = right).  Distinct nodes have distinct
    positions, so [std::ptr::eq] on nodes is equality of positions. *)
Definition pos := list bool.

(** Inner loop of [post_order]; nodes are pushed with their positions. *)
Fixpoint post_push_left (p : pos) (current : tree) (stack : list (pos * tree))
    : list (pos * tree) :=
  match current with
  | Leaf => stack
  | Node _ l _ => post_push_left (false :: p) l ((p, current) :: stack)
  end.

(** Outer loop of [post_order]; [p] is the position of [current] and
    [last_visited] the position of the last popped node. *)
Fixpoint post_order_loop (fuel : nat) (stack : list (pos * tree)) (p : pos)
    (current : tree) (last_visited : option pos) (result : list K)
    : option (list K) :=
  match fuel with
  | 0 => None
  | S f =>
      match stack, current with
      | [], Leaf => Some result
      | _, _ =>
          match post_push_left p current stack with
          | [] => post_order_loop f [] p Leaf last_visited result
          | (q, node) :: stack' =>
              match node with
              | Leaf => post_order_loop f stack' q Leaf (Some q) result
              | Node x _ r =>
                  let right_visited :=
                    match r, last_visited with
                    | Node _ _ _, Some last =>
                        if list_eq_dec Bool.bool_dec (true :: q) last
                        then true else false
                    | _, _ => false
                    end in
                  match r with
                  | Leaf =>
                      post_order_loop f stack' q Leaf (Some q) (result ++ [x])
                  | Node _ _ _ =>
                      if right_visited then
                        post_order_loop f stack' q Leaf (Some q) (result ++ [x])
                      else
                        post_order_loop f ((q, node) :: stack') (true :: q) r
                          last_visited result
                  end
              end
          end
      end
  end.

(** One iteration per node popped, one per right child entered, one exit. *)
Definition post_order_checked (s : bst) : option (list K) :=
  post_order_loop (S (2 * size s.(root))) [] [] s.(root) None [].

Definition post_order (s : bst) : list K :=
  match post_order_checked s with Some l => l | None => [] end.

(** [while let Some(node) = queue.pop_front()] of [level_order]. *)
Fixpoint level_order_loop (fuel : nat) (queue : list tree) (result : list K)
    : option (list K) :=
  match fuel with
  | 0 => None
  | S f =>
      match queue with
      | [] => Some result
      | Leaf :: queue' => level_order_loop f queue' result
      | (Node x _ _ as node) :: queue' =>
          level_order_loop f (queue' ++ children node) (result ++ [x])
      end
  end.

Definition level_order_checked (s : bst) : option (list K) :=
  level_order_loop (S (size s.(root)))
    (match s.(root) with Leaf => [] | t => [t] end) [].

Definition level_order (s : bst) : list K :=
  match level_order_checked s with Some l => l | None => [] end.

Definition number_of_elements (s : bst) : nat := length (pre_order s).

(** [ceil]: candidate kept whenever the node is not [<] the query. *)
Fixpoint ceil_at (t : tree) (value : K) (result : option K) : option K :=
  match t with
  | Leaf => result
  | Node x l r =>
      if eq_b pcmp x value then Some x
      else if lt_b pcmp x value then ceil_at r value result
      else ceil_at l value (Some x)
  end.

Definition ceil (s : bst) (value : K) : option K :=
  match s.(root) with Leaf => None | t => ceil_at t value None end.

(** [floor]: candidate kept whenever the node is not [>] the query. *)
Fixpoint floor_at (t : tree) (value : K) (result : option K) : option K :=
  match t with
  | Leaf => result
  | Node x l r =>
      if eq_b pcmp x value then Some x
      else if gt_b pcmp x value then floor_at l value result
      else floor_at r value (Some x)
  end.

Definition floor (s : bst) (value : K) : option K :=
  match s.(root) with Leaf => None | t => floor_at t value None end.


Definition apply_op (s : bst) (o : op K) : bst :=
  match o with Ins v => insert s v | Rem v => remove s v end.

(** State after a sequence of public mutations from [new()]. *)
Definition run (ops : list (op K)) : bst := fold_left apply_op ops new.

(** In-order key sequence of a subtree (specification). *)
Fixpoint elements (t : tree) : list K :=
  match t with
  | Leaf => []
  | Node x l r => elements l ++ x :: elements r
  end.

End Ops.
End BST.

(** ** AVL tree (src/avl_tree) *)
Module AVL.
Section Ops.
Context {K : Type} (pcmp : K -> K -> option comparison).

(** [AVLNode<T>] with its [height] field; [Leaf] is [None]. *)
Inductive tree : Type :=
| Leaf : tree
| Node (value : K) (left right : tree) (height : nat) : tree.

Record avl : Type := mk_avl {
  root : tree;
  min_value : option K;
  max_value : option K
}.

Definition new : avl := mk_avl Leaf None None.

(** [AVLNode::height]: stored field, 0 for [None]. *)
Definition height_of (t : tree) : nat :=
  match t with Leaf => 0 | Node _ _ _ h => h end.

(** [update_height] *)
Definition update_height (t : tree) : tree :=
  match t with
  | Leaf => Leaf
  | Node x l r _ => Node x l r (1 + Nat.max (height_of l) (height_of r))
  end.

(** [balance_factor] (heights cast to [i32]; a height never reaches 2^31). *)
Definition balance_factor (t : tree) : Z :=
  match t with
  | Leaf => 0
  | Node _ l r _ => Z.of_nat (height_of l) - Z.of_nat (height_of r)
  end.

(** [ll_rotation]: promote the left child. *)
Definition ll_rotation (t : tree) : tree :=
  match t with
  | Node x (Node y a b hy) c hx =>
      update_height (Node y a (update_height (Node x b c hx)) hy)
  | _ => t (* [unwrap] on [None] *)
  end.

(** [rr_rotation]: promote the right child. *)
Definition rr_rotation (t : tree) : tree :=
  match t with
  | Node x a (Node y b c hy) hx =>
      update_height (Node y (update_height (Node x a b hx)) c hy)
  | _ => t (* [unwrap] on [None] *)
  end.

(** [rl_rotation]: [ll_rotation] of the right child, then [rr_rotation]. *)
Definition rl_rotation (t : tree) : tree :=
  match t with
  | Node x l r h => rr_rotation (Node x l (ll_rotation r) h)
  | Leaf => Leaf
  end.

(** [lr_rotation]: [rr_rotation] of the left child, then [ll_rotation]. *)
Definition lr_rotation (t : tree) : tree :=
  match t with
  | Node x l r h => ll_rotation (Node x (rr_rotation l) r h)
  | Leaf => Leaf
  end.

Definition left_of (t : tree) : tree :=
  match t with Leaf => Leaf | Node _ l _ _ => l end.
Definition right_of (t : tree) : tree :=
  match t with Leaf => Leaf | Node _ _ r _ => r end.

(** [rebalance] *)
Definition rebalance (t : tree) : tree :=
  let bf := balance_factor t in
  if (1 <? bf)%Z then
    if (0 <=? balance_factor (left_of t))%Z then ll_rotation t else lr_rotation t
  else if (bf <? -1)%Z then
    if (balance_factor (right_of t) <=? 0)%Z then rr_rotation t else rl_rotation t
  else t.

(** [insert_rec] *)
Fixpoint insert_rec (t : tree) (value : K) : tree :=
  match t with
  | Leaf => Node value Leaf Leaf 1
  | Node x l r h =>
      match pcmp value x with
      | Some Lt => rebalance (update_height (Node x (insert_rec l value) r h))
      | Some Gt => rebalance (update_height (Node x l (insert_rec r value) h))
      | _ => t
      end
  end.

(** [detach_min] on the node [Node x l r h]: returns the minimum and the
    rebalanced remainder. *)
Fixpoint detach_min (x : K) (l r : tree) (h : nat) : K * tree :=
  match l with
  | Leaf => (x, r)
  | Node lx ll lr lh =>
      let '(m, l') := detach_min lx ll lr lh in
      (m, rebalance (update_height (Node x l' r h)))
  end.

(** [remove_node] *)
Fixpoint remove_node (t : tree) (value : K) : tree :=
  match t with
  | Leaf => Leaf
  | Node x l r h =>
      match pcmp value x with
      | Some Lt => rebalance (update_height (Node x (remove_node l value) r h))
      | Some Gt => rebalance (update_height (Node x l (remove_node r value) h))
      | Some Eq =>
          match l, r with
          | Leaf, Leaf => Leaf
          | Node _ _ _ _, Leaf => l
          | Leaf, Node _ _ _ _ => r
          | Node _ _ _ _, Node rx rl rr rh =>
              let '(m, r') := detach_min rx rl rr rh in
              rebalance (update_height (Node m l r' h))
          end
      | None => t
      end
  end.

Fixpoint refind_min (t : tree) : option K :=
  match t with
  | Leaf => None
  | Node x Leaf _ _ => Some x
  | Node _ l _ _ => refind_min l
  end.

Fixpoint refind_max (t : tree) : option K :=
  match t with
  | Leaf => None
  | Node x _ Leaf _ => Some x
  | Node _ _ r _ => refind_max r
  end.

(** [insert]: [insert_rec], then both caches re-found. *)
Definition insert (s : avl) (value : K) : avl :=
  let t := insert_rec s.(root) value in
  mk_avl t (refind_min t) (refind_max t).

(** [remove]: [remove_node], then both caches re-found. *)
Definition remove (s : avl) (value : K) : avl :=
  let t := remove_node s.(root) value in
  mk_avl t (refind_min t) (refind_max t).

Fixpoint contains_at (t : tree) (value : K) : bool :=
  match t with
  | Leaf => false
  | Node x l r _ =>
      match pcmp value x with
      | Some Lt => contains_at l value
      | Some Gt => contains_at r value
      | Some Eq => true
      | None => false
      end
  end.

Definition contains (s : avl) (value : K) : bool := contains_at s.(root) value.

Definition min (s : avl) : option K := s.(min_value).
Definition max (s : avl) : option K := s.(max_value).

Fixpoint size (t : tree) : nat :=
  match t with Leaf => 0 | Node _ l r _ => S (size l + size r) end.

(** Children pushed by one node of the breadth-first loops. *)
Definition children (t : tree) : list tree :=
  match t with
  | Leaf => []
  | Node _ l r _ =>
      (match l with Leaf => [] | _ => [l] end) ++
      (match r with Leaf => [] | _ => [r] end)
  end.

(** Loops are run with a bound [fuel] on their number of iterations; they
    return [None] if an [unwrap] fails or the bound is exhausted, and the
    public functions map [None] to an arbitrary value. *)

(** The [for _ in 0..level_size] loop of [height]: [n] times
    [queue.pop_front().unwrap()], pushing the node's children at the back. *)
Fixpoint pop_level (n : nat) (queue : list tree) : option (list tree) :=
  match n with
  | 0 => Some queue
  | S n' =>
      match queue with
      | [] => None
      | node :: queue' => pop_level n' (queue' ++ children node)
      end
  end.

(** The [while !queue.is_empty()] loop of [height]; the counter grows when
    the queue is non-empty after a level. *)
Fixpoint height_loop (fuel : nat) (queue : list tree) (height : nat)
    : option nat :=
  match fuel with
  | 0 => None
  | S f =>
      match queue with
      | [] => Some height
      | _ :: _ =>
          match pop_level (length queue) queue with
          | None => None
          | Some queue' =>
              height_loop f queue'
                (match queue' with [] => height | _ => S height end)
          end
      end
  end.

Definition height_checked (s : avl) : option nat :=
  match s.(root) with
  | Leaf => Some 0
  | t => height_loop (S (size t)) [t] 0
  end.

Definition height (s : avl) : nat :=
  match height_checked s with Some h => h | None => 0 end.

(** Inner [while let Some(node) = current] loop of [in_order]. *)
Fixpoint push_left (current : tree) (stack : list tree) : list tree :=
  match current with
  | Leaf => stack
  | Node _ l _ _ => push_left l (current :: stack)
  end.

(** Outer loop of [in_order]; the stack only ever holds nodes. *)
Fixpoint in_order_loop (fuel : nat) (stack : list tree) (current : tree)
    (result : list K) : option (list K) :=
  match fuel with
  | 0 => None
  | S f =>
      match stack, current with
      | [], Leaf => Some result
      | _, _ =>
          match push_left current stack with
          | Node x _ r _ :: stack' => in_order_loop f stack' r (result ++ [x])
          | Leaf :: stack' => in_order_loop f stack' Leaf result
          | [] => in_order_loop f [] Leaf result
          end
      end
  end.

Definition in_order_checked (s : avl) : option (list K) :=
  in_order_loop (S (size s.(root))) [] s.(root) [].

Definition in_order (s : avl) : list K :=
  match in_order_checked s with Some l => l | None => [] end.

(** Inner loop of [pre_order]: emit, push, go left. *)
Fixpoint pre_push_left (current : tree) (stack : list tree) (result : list K)
    : list tree * list K :=
  match current with
  | Leaf => (stack, result)
  | Node x l _ _ => pre_push_left l (current :: stack) (result ++ [x])
  end.

(** Outer loop of [pre_order]; [stack.pop().unwrap().right]. *)
Fixpoint pre_order_loop (fuel : nat) (stack : list tree) (current : tree)
    (result : list K) : option (list K) :=
  match fuel with
  | 0 => None
  | S f =>
      match stack, current with
      | [], Leaf => Some result
      | _, _ =>
          let '(stack1, result1) := pre_push_left current stack result in
          match stack1 with
          | Node _ _ r _ :: stack' => pre_order_loop f stack' r result1
          | Leaf :: stack' => pre_order_loop f stack' Leaf result1
          | [] => None
          end
      end
  end.

Definition pre_order_checked (s : avl) : option (list K) :=
  pre_order_loop (S (size s.(root))) [] s.(root) [].

Definition pre_order (s : avl) : list K :=
  match pre_order_checked s with Some l => l | None => [] end.

(** Position of a node: the path from the root, innermost step first
    ([false] = left, [true] = right).  Distinct nodes have distinct
    positions, so [std::ptr::eq] on nodes is equality of positions. *)
Definition pos := list bool.

(** Inner loop of [post_order]; nodes are pushed with their positions. *)
Fixpoint post_push_left (p : pos) (current : tree) (stack : list (pos * tree))
    : list (pos * tree) :=
  match current with
  | Leaf => stack
  | Node _ l _ _ => post_push_left (false :: p) l ((p, current) :: stack)
  end.

(** Outer loop of [post_order]; [p] is the position of [current] and
    [last_visited] the position of the last popped node. *)
Fixpoint post_order_loop (fuel : nat) (stack : list (pos * tree)) (p : pos)
    (current : tree) (last_visited : option pos) (result : list K)
    : option (list K) :=
  match fuel with
  | 0 => None
  | S f =>
      match stack, current with
      | [], Leaf => Some result
      | _, _ =>
          match post_push_left p current stack with
          | [] => post_order_loop f [] p Leaf last_visited result
          | (q, node) :: stack' =>
              match node with
              | Leaf => post_order_loop f stack' q Leaf (Some q) result
              | Node x _ r _ =>
                  let right_visited :=
                    match r, last_visited with
                    | Node _ _ _ _, Some last =>
                        if list_eq_dec Bool.bool_dec (true :: q) last
                        then true else false
                    | _, _ => false
                    end in
                  match r with
                  | Leaf =>
                      post_order_loop f stack' q Leaf (Some q) (result ++ [x])
                  | Node _ _ _ _ =>
                      if right_visited then
                        post_order_loop f stack' q Leaf (Some q) (result ++ [x])
                      else
                        post_order_loop f ((q, node) :: stack') (true :: q) r
                          last_visited result
                  end
              end
          end
      end
  end.

(** One iteration per node popped, one per right child entered, one exit. *)
Definition post_order_checked (s : avl) : option (list K) :=
  post_order_loop (S (2 * size s.(root))) [] [] s.(root) None [].

Definition post_order (s : avl) : list K :=
  match post_order_checked s with Some l => l | None => [] end.

(** [while let Some(node) = queue.pop_front()] of [level_order]. *)
Fixpoint level_order_loop (fuel : nat) (queue : list tree) (result : list K)
    : option (list K) :=
  match fuel with
  | 0 => None
  | S f =>
      match queue with
      | [] => Some result
      | Leaf :: queue' => level_order_loop f queue' result
      | (Node x _ _ _ as node) :: queue' =>
          level_order_loop f (queue' ++ children node) (result ++ [x])
      end
  end.

Definition level_order_checked (s : avl) : option (list K) :=
  level_order_loop (S (size s.(root)))
    (match s.(root) with Leaf => [] | t => [t] end) [].

Definition level_order (s : avl) : list K :=
  match level_order_checked s with Some l => l | None => [] end.

Definition number_of_elements (s : avl) : nat := length (pre_order s).

Fixpoint ceil_at (t : tree) (value : K) (result : option K) : option K :=
  match t with
  | Leaf => result
  | Node x l r _ =>
      if eq_b pcmp x value then Some x
      else if lt_b pcmp x value then ceil_at r value result
      else ceil_at l value (Some x)
  end.

Definition ceil (s : avl) (value : K) : option K :=
  match s.(root) with Leaf => None | t => ceil_at t value None end.

Fixpoint floor_at (t : tree) (value : K) (result : option K) : option K :=
  match t with
  | Leaf => result
  | Node x l r _ =>
      if eq_b pcmp x value then Some x
      else if gt_b pcmp x value then floor_at l value result
      else floor_at r value (Some x)
  end.

Definition floor (s : avl) (value : K) : option K :=
  match s.(root) with Leaf => None | t => floor_at t value None end.


Definition apply_op (s : avl) (o : op K) : avl :=
  match o with Ins v => insert s v | Rem v => remove s v end.

(** State after a sequence of public mutations from [new()]. *)
Definition run (ops : list (op K)) : avl := fold_left apply_op ops new.

(** In-order key sequence of a subtree (specification). *)
Fixpoint elements (t : tree) : list K :=
  match t with
  | Leaf => []
  | Node x l r _ => elements l ++ x :: elements r
  end.

(** The AVL invariant: every stored height is [1 + max] of the children's
    stored heights (0 for [None]) and every balance factor is -1, 0 or 1. *)
Inductive avl_ok : tree -> Prop :=
| avl_ok_leaf : avl_ok Leaf
| avl_ok_node x l r h :
    avl_ok l -> avl_ok r ->
    h = 1 + Nat.max (height_of l) (height_of r) ->
    (-1 <= balance_factor (Node x l r h) <= 1)%Z ->
    avl_ok (Node x l r h).

End Ops.
End AVL.

(** ** Left-leaning Red-Black tree (src/red_black_tree) *)
Module RB.

(** [Color] *)
Inductive color : Type := Red | Black.

Section Ops.
Context {K : Type} (pcmp : K -> K -> option comparison).

(** [RBNode<T>]; [Leaf] is [None]. *)
Inductive tree : Type :=
| Leaf : tree
| Node (value : K) (left right : tree) (color : color) : tree.

Record rbt : Type := mk_rbt {
  root : tree;
  min_value : option K;
  max_value : option K
}.

Definition new : rbt := mk_rbt Leaf None None.

(** [RBNode::is_red_node]: [None] counts as Black. *)
Definition is_red_node (t : tree) : bool :=
  match t with Node _ _ _ Red => true | _ => false end.

Definition left_of (t : tree) : tree :=
  match t with Leaf => Leaf | Node _ l _ _ => l end.
Definition right_of (t : tree) : tree :=
  match t with Leaf => Leaf | Node _ _ r _ => r end.

(** [rotate_left]: the right child takes this node's color, this node
    becomes Red. *)
Definition rotate_left (t : tree) : tree :=
  match t with
  | Node x a (Node y b c _) cx => Node y (Node x a b Red) c cx
  | _ => t (* [expect]: "Right child must exist for left rotation" *)
  end.

(** [rotate_right] *)
Definition rotate_right (t : tree) : tree :=
  match t with
  | Node y (Node x a b _) c cy => Node x a (Node y b c Red) cy
  | _ => t (* [expect]: "Left child must exist for right rotation" *)
  end.

Definition flip (c : color) : color :=
  match c with Red => Black | Black => Red end.

Definition flip_node (t : tree) : tree :=
  match t with Leaf => Leaf | Node x l r c => Node x l r (flip c) end.

(** [flip_colors]: this node and both (present) children. *)
Definition flip_colors (t : tree) : tree :=
  match t with
  | Leaf => Leaf
  | Node x l r c => Node x (flip_node l) (flip_node r) (flip c)
  end.

(** [balance] (insertion fix-up). *)
Definition balance (t : tree) : tree :=
  let t1 :=
    if is_red_node (right_of t) && negb (is_red_node (left_of t))
    then rotate_left t else t in
  let t2 :=
    if is_red_node (left_of t1) && is_red_node (left_of (left_of t1))
    then rotate_right t1 else t1 in
  if is_red_node (left_of t2) && is_red_node (right_of t2)
  then flip_colors t2 else t2.

(** [insert_recursive] *)
Fixpoint insert_recursive (t : tree) (value : K) : tree :=
  match t with
  | Leaf => Node value Leaf Leaf Red
  | Node x l r c =>
      match pcmp value x with
      | Some Lt => balance (Node x (insert_recursive l value) r c)
      | Some Gt => balance (Node x l (insert_recursive r value) c)
      | Some Eq | None => t
      end
  end.

(** "Ensure root is black". *)
Definition blacken (t : tree) : tree :=
  match t with Leaf => Leaf | Node x l r _ => Node x l r Black end.

(** [insert]: incremental cache update (as in the BST), then the recursive
    insertion and the blackening of the root. *)
Definition insert (s : rbt) (value : K) : rbt :=
  let '(mn, mx) :=
    match s.(min_value), s.(max_value) with
    | None, None => (Some value, Some value)
    | Some mn, Some mx =>
        ((if lt_b pcmp value mn then Some value else Some mn),
         (if gt_b pcmp value mx then Some value else Some mx))
    | mn, mx => (mn, mx) (* [unreachable!()] *)
    end in
  mk_rbt (blacken (insert_recursive s.(root) value)) mn mx.

(** [move_red_left] *)
Definition move_red_left (t : tree) : tree :=
  let t1 := flip_colors t in
  if is_red_node (left_of (right_of t1)) then
    match t1 with
    | Node x l r c => flip_colors (rotate_left (Node x l (rotate_right r) c))
    | Leaf => Leaf
    end
  else t1.

(** [move_red_right] *)
Definition move_red_right (t : tree) : tree :=
  let t1 := flip_colors t in
  if is_red_node (left_of (left_of t1)) then flip_colors (rotate_right t1)
  else t1.

(** [fix_up] (deletion fix-up). *)
Definition fix_up (t : tree) : tree :=
  let t1 := if is_red_node (right_of t) then rotate_left t else t in
  let t2 :=
    if is_red_node (left_of t1) && is_red_node (left_of (left_of t1))
    then rotate_right t1 else t1 in
  if is_red_node (left_of t2) && is_red_node (right_of t2)
  then flip_colors t2 else t2.

Definition set_left (t l : tree) : tree :=
  match t with Leaf => Leaf | Node x _ r c => Node x l r c end.
Definition set_right (t r : tree) : tree :=
  match t with Leaf => Leaf | Node x l _ c => Node x l r c end.
Definition value_of (t : tree) (default : K) : K :=
  match t with Leaf => default | Node x _ _ _ => x end.

(** [find_min] on [Some(node)]: walk left from [node]. *)
Fixpoint find_min_from (x : K) (l : tree) : K :=
  match l with Leaf => x | Node y ll _ _ => find_min_from y ll end.

(** [remove_min].  The recursion descends into the left child of a node
    rebuilt by [move_red_left], so it is not structural: [fuel] bounds the
    depth and is started at the size of the tree, which every call strictly
    decreases. *)
Fixpoint remove_min (fuel : nat) (t : tree) : tree :=
  match fuel with
  | 0 => t
  | S f =>
      match t with
      | Leaf => Leaf
      | Node _ Leaf _ _ => Leaf
      | Node _ (Node _ ll _ _ as l) _ _ =>
          let t1 :=
            if negb (is_red_node l) && negb (is_red_node ll)
            then move_red_left t else t in
          fix_up (set_left t1 (remove_min f (left_of t1)))
      end
  end.

(** [remove_recursive]; [fuel] as for [remove_min]. *)
Fixpoint remove_recursive (fuel : nat) (t : tree) (value : K) : tree :=
  match fuel with
  | 0 => t
  | S f =>
      match t with
      | Leaf => Leaf
      | Node x l r c =>
          match pcmp value x with
          | Some Lt =>
              match l with
              | Leaf => fix_up t
              | Node _ ll _ _ =>
                  let t1 :=
                    if negb (is_red_node l) && negb (is_red_node ll)
                    then move_red_left t else t in
                  fix_up (set_left t1 (remove_recursive f (left_of t1) value))
              end
          | _ =>
              let t1 := if is_red_node l then rotate_right t else t in
              match right_of t1 with
              | Leaf =>
                  if eq_b pcmp value (value_of t1 x) then Leaf else fix_up t1
              | Node _ rl _ _ as rt =>
                  let t2 :=
                    if negb (is_red_node rt) && negb (is_red_node rl)
                    then move_red_right t1 else t1 in
                  if eq_b pcmp value (value_of t2 x) then
                    match right_of t2 with
                    | Node y yl _ _ as r2 =>
                        fix_up (set_right
                                  (match t2 with
                                   | Node _ l2 _ c2 => Node (find_min_from y yl) l2 r2 c2
                                   | Leaf => Leaf
                                   end)
                                  (remove_min f r2))
                    | Leaf => fix_up t2 (* [find_min] unwraps [None] *)
                    end
                  else fix_up (set_right t2 (remove_recursive f (right_of t2) value))
              end
          end
      end
  end.

Fixpoint size (t : tree) : nat :=
  match t with Leaf => 0 | Node _ l r _ => S (size l + size r) end.

Fixpoint refind_min (t : tree) : option K :=
  match t with
  | Leaf => None
  | Node x Leaf _ _ => Some x
  | Node _ l _ _ => refind_min l
  end.

Fixpoint refind_max (t : tree) : option K :=
  match t with
  | Leaf => None
  | Node x _ Leaf _ => Some x
  | Node _ _ r _ => refind_max r
  end.

(** [remove]: nothing on an empty tree; otherwise [remove_recursive], the
    blackening of the root and the re-found caches. *)
Definition remove (s : rbt) (value : K) : rbt :=
  match s.(root) with
  | Leaf => s
  | t =>
      let t' := blacken (remove_recursive (size t) t value) in
      mk_rbt t' (refind_min t') (refind_max t')
  end.

Fixpoint contains_at (t : tree) (value : K) : bool :=
  match t with
  | Leaf => false
  | Node x l r _ =>
      match pcmp value x with
      | Some Lt => contains_at l value
      | Some Gt => contains_at r value
      | Some Eq => true
      | None => false
      end
  end.

Definition contains (s : rbt) (value : K) : bool := contains_at s.(root) value.

Definition min (s : rbt) : option K := s.(min_value).
Definition max (s : rbt) : option K := s.(max_value).

(** Children pushed by one node of the breadth-first loops. *)
Definition children (t : tree) : list tree :=
  match t with
  | Leaf => []
  | Node _ l r _ =>
      (match l with Leaf => [] | _ => [l] end) ++
      (match r with Leaf => [] | _ => [r] end)
  end.

(** Loops are run with a bound [fuel] on their number of iterations; they
    return [None] if an [unwrap] fails or the bound is exhausted, and the
    public functions map [None] to an arbitrary value. *)

(** The [for _ in 0..level_size] loop of [height]: [n] times
    [queue.pop_front().unwrap()], pushing the node's children at the back. *)
Fixpoint pop_level (n : nat) (queue : list tree) : option (list tree) :=
  match n with
  | 0 => Some queue
  | S n' =>
      match queue with
      | [] => None
      | node :: queue' => pop_level n' (queue' ++ children node)
      end
  end.

(** The [while !queue.is_empty()] loop of [height]; the counter grows when
    the queue is non-empty after a level. *)
Fixpoint height_loop (fuel : nat) (queue : list tree) (height : nat)
    : option nat :=
  match fuel with
  | 0 => None
  | S f =>
      match queue with
      | [] => Some height
      | _ :: _ =>
          match pop_level (length queue) queue with
          | None => None
          | Some queue' =>
              height_loop f queue'
                (match queue' with [] => height | _ => S height end)
          end
      end
  end.

Definition height_checked (s : rbt) : option nat :=
  match s.(root) with
  | Leaf => Some 0
  | t => height_loop (S (size t)) [t] 0
  end.

Definition height (s : rbt) : nat :=
  match height_checked s with Some h => h | None => 0 end.

(** Inner [while let Some(node) = current] loop of [in_order]. *)
Fixpoint push_left (current : tree) (stack : list tree) : list tree :=
  match current with
  | Leaf => stack
  | Node _ l _ _ => push_left l (current :: stack)
  end.

(** Outer loop of [in_order]; the stack only ever holds nodes. *)
Fixpoint in_order_loop (fuel : nat) (stack : list tree) (current : tree)
    (result : list K) : option (list K) :=
  match fuel with
  | 0 => None
  | S f =>
      match stack, current with
      | [], Leaf => Some result
      | _, _ =>
          match push_left current stack with
          | Node x _ r _ :: stack' => in_order_loop f stack' r (result ++ [x])
          | Leaf :: stack' => in_order_loop f stack' Leaf result
          | [] => in_order_loop f [] Leaf result
          end
      end
  end.

Definition in_order_checked (s : rbt) : option (list K) :=
  in_order_loop (S (size s.(root))) [] s.(root) [].

Definition in_order (s : rbt) : list K :=
  match in_order_checked s with Some l => l | None => [] end.

(** Inner loop of [pre_order]: emit, push, go left. *)
Fixpoint pre_push_left (current : tree) (stack : list tree) (result : list K)
    : list tree * list K :=
  match current with
  | Leaf => (stack, result)
  | Node x l _ _ => pre_push_left l (current :: stack) (result ++ [x])
  end.

(** Outer loop of [pre_order]; [stack.pop().unwrap().right]. *)
Fixpoint pre_order_loop (fuel : nat) (stack : list tree) (current : tree)
    (result : list K) : option (list K) :=
  match fuel with
  | 0 => None
  | S f =>
      match stack, current with
      | [], Leaf => Some result
      | _, _ =>
          let '(stack1, result1) := pre_push_left current stack result in
          match stack1 with
          | Node _ _ r _ :: stack' => pre_order_loop f stack' r result1
          | Leaf :: stack' => pre_order_loop f stack' Leaf result1
          | [] => None
          end
      end
  end.

Definition pre_order_checked (s : rbt) : option (list K) :=
  pre_order_loop (S (size s.(root))) [] s.(root) [].

Definition pre_order (s : rbt) : list K :=
  match pre_order_checked s with Some l => l | None => [] end.

(** Position of a node: the path from the root, innermost step first
    ([false] = left, [true] = right).  Distinct nodes have distinct
    positions, so [std::ptr::eq] on nodes is equality of positions. *)
Definition pos := list bool.

(** Inner loop of [post_order]; nodes are pushed with their positions. *)
Fixpoint post_push_left (p : pos) (current : tree) (stack : list (pos * tree))
    : list (pos * tree) :=
  match current with
  | Leaf => stack
  | Node _ l _ _ => post_push_left (false :: p) l ((p, current) :: stack)
  end.

(** Outer loop of [post_order]; [p] is the position of [current] and
    [last_visited] the position of the last popped node. *)
Fixpoint post_order_loop (fuel : nat) (stack : list (pos * tree)) (p : pos)
    (current : tree) (last_visited : option pos) (result : list K)
    : option (list K) :=
  match fuel with
  | 0 => None
  | S f =>
      match stack, current with
      | [], Leaf => Some result
      | _, _ =>
          match post_push_left p current stack with
          | [] => post_order_loop f [] p Leaf last_visited result
          | (q, node) :: stack' =>
              match node with
              | Leaf => post_order_loop f stack' q Leaf (Some q) result
              | Node x _ r _ =>
                  let right_visited :=
                    match r, last_visited with
                    | Node _ _ _ _, Some last =>
                        if list_eq_dec Bool.bool_dec (true :: q) last
                        then true else false
                    | _, _ => false
                    end in
                  match r with
                  | Leaf =>
                      post_order_loop f stack' q Leaf (Some q) (result ++ [x])
                  | Node _ _ _ _ =>
                      if right_visited then
                        post_order_loop f stack' q Leaf (Some q) (result ++ [x])
                      else
                        post_order_loop f ((q, node) :: stack') (true :: q) r
                          last_visited result
                  end
              end
          end
      end
  end.

(** One iteration per node popped, one per right child entered, one exit. *)
Definition post_order_checked (s : rbt) : option (list K) :=
  post_order_loop (S (2 * size s.(root))) [] [] s.(root) None [].

Definition post_order (s : rbt) : list K :=
  match post_order_checked s with Some l => l | None => [] end.

(** [while let Some(node) = queue.pop_front()] of [level_order]. *)
Fixpoint level_order_loop (fuel : nat) (queue : list tree) (result : list K)
    : option (list K) :=
  match fuel with
  | 0 => None
  | S f =>
      match queue with
      | [] => Some result
      | Leaf :: queue' => level_order_loop f queue' result
      | (Node x _ _ _ as node) :: queue' =>
          level_order_loop f (queue' ++ children node) (result ++ [x])
      end
  end.

Definition level_order_checked (s : rbt) : option (list K) :=
  level_order_loop (S (size s.(root)))
    (match s.(root) with Leaf => [] | t => [t] end) [].

Definition level_order (s : rbt) : list K :=
  match level_order_checked s with Some l => l | None => [] end.

Definition number_of_elements (s : rbt) : nat := length (pre_order s).

Fixpoint ceil_at (t : tree) (value : K) (result : option K) : option K :=
  match t with
  | Leaf => result
  | Node x l r _ =>
      if eq_b pcmp x value then Some x
      else if lt_b pcmp x value then ceil_at r value result
      else ceil_at l value (Some x)
  end.

Definition ceil (s : rbt) (value : K) : option K :=
  match s.(root) with Leaf => None | t => ceil_at t value None end.

Fixpoint floor_at (t : tree) (value : K) (result : option K) : option K :=
  match t with
  | Leaf => result
  | Node x l r _ =>
      if eq_b pcmp x value then Some x
      else if gt_b pcmp x value then floor_at l value result
      else floor_at r value (Some x)
  end.

Definition floor (s : rbt) (value : K) : option K :=
  match s.(root) with Leaf => None | t => floor_at t value None end.


Definition apply_op (s : rbt) (o : op K) : rbt :=
  match o with Ins v => insert s v | Rem v => remove s v end.

(** State after a sequence of public mutations from [new()]. *)
Definition run (ops : list (op K)) : rbt := fold_left apply_op ops new.

(** In-order key sequence of a subtree (specification). *)
Fixpoint elements (t : tree) : list K :=
  match t with
  | Leaf => []
  | Node x l r _ => elements l ++ x :: elements r
  end.

(** Left-leaning Red-Black subtree of black height [n]: no Red node has a
    Red child, no right child is Red, and every path to a [None] crosses
    [n] Black nodes. *)
Inductive llrb : nat -> tree -> Prop :=
| llrb_leaf : llrb 0 Leaf
| llrb_black n x l r :
    llrb n l -> llrb n r -> is_red_node r = false ->
    llrb (S n) (Node x l r Black)
| llrb_red n x l r :
    llrb n l -> llrb n r -> is_red_node l = false -> is_red_node r = false ->
    llrb n (Node x l r Red).

(** The claim's Red-Black invariants, on any binary tree: Red nodes have no
    Red child, and all paths to a [None] cross [n] Black nodes. *)
Inductive rb_valid : nat -> tree -> Prop :=
| rb_valid_leaf : rb_valid 0 Leaf
| rb_valid_black n x l r :
    rb_valid n l -> rb_valid n r -> rb_valid (S n) (Node x l r Black)
| rb_valid_red n x l r :
    rb_valid n l -> rb_valid n r ->
    is_red_node l = false -> is_red_node r = false ->
    rb_valid n (Node x l r Red).

End Ops.
End RB.

(** * Further public functions: [is_empty], [find_connections] and the
    validators of [avl_tree/mod.rs] and [red_black_tree/mod.rs] *)

Section PartialOps.
Context {K : Type} (pcmp : K -> K -> option comparison).

(** [a <= b] of [PartialOrd]: [partial_cmp] is [Less] or [Equal]. *)
Definition le_b (a b : K) : bool :=
  match pcmp a b with Some Lt | Some Eq => true | _ => false end.

(** [a >= b] of [PartialOrd]: [partial_cmp] is [Greater] or [Equal]. *)
Definition ge_b (a b : K) : bool :=
  match pcmp a b with Some Gt | Some Eq => true | _ => false end.

End PartialOps.

(** src/binary_search_tree/bst_operations.rs *)
Module BSTMore.
Import BST.
Section Ops.
Context {K : Type}.
Implicit Types (s : @bst K).

(** [is_empty]: [self.root.is_none()]. *)
Definition is_empty s : bool :=
  match s.(root) with Leaf => true | _ => false end.

(** The pairs pushed for one node by [find_connections]: left, then right. *)
Definition node_pairs (t : @tree K) : list (K * K) :=
  match t with
  | Leaf => []
  | Node x l r =>
      (match l with Node y _ _ => [(x, y)] | Leaf => [] end) ++
      (match r with Node y _ _ => [(x, y)] | Leaf => [] end)
  end.

(** [while let Some(node) = queue.pop_front()] of [find_connections]. *)
Fixpoint connections_loop (fuel : nat) (queue : list (@tree K))
    (result : list (K * K)) : option (list (K * K)) :=
  match fuel with
  | 0 => None
  | S f =>
      match queue with
      | [] => Some result
      | Leaf :: queue' => connections_loop f queue' result
      | (Node _ _ _ as node) :: queue' =>
          connections_loop f (queue' ++ children node) (result ++ node_pairs node)
      end
  end.

Definition find_connections_checked s : option (list (K * K)) :=
  connections_loop (S (size s.(root)))
    (match s.(root) with Leaf => [] | t => [t] end) [].

(** [find_connections] *)
Definition find_connections s : list (K * K) :=
  match find_connections_checked s with Some l => l | None => [] end.

End Ops.
End BSTMore.

(** src/avl_tree/avl_operations.rs and src/avl_tree/mod.rs *)
Module AVLMore.
Import AVL.
Section Ops.
Context {K : Type} (pcmp : K -> K -> option comparison).
Implicit Types (s : @avl K).

Definition is_empty s : bool :=
  match s.(root) with Leaf => true | _ => false end.

Definition node_pairs (t : @tree K) : list (K * K) :=
  match t with
  | Leaf => []
  | Node x l r _ =>
      (match l with Node y _ _ _ => [(x, y)] | Leaf => [] end) ++
      (match r with Node y _ _ _ => [(x, y)] | Leaf => [] end)
  end.

Fixpoint connections_loop (fuel : nat) (queue : list (@tree K))
    (result : list (K * K)) : option (list (K * K)) :=
  match fuel with
  | 0 => None
  | S f =>
      match queue with
      | [] => Some result
      | Leaf :: queue' => connections_loop f queue' result
      | (Node _ _ _ _ as node) :: queue' =>
          connections_loop f (queue' ++ children node) (result ++ node_pairs node)
      end
  end.

Definition find_connections_checked s : option (list (K * K)) :=
  connections_loop (S (size s.(root)))
    (match s.(root) with Leaf => [] | t => [t] end) [].

Definition find_connections s : list (K * K) :=
  match find_connections_checked s with Some l => l | None => [] end.

(** [check_balance] of [is_balanced]: [balance.abs() <= 1] at every node. *)
Fixpoint check_balance (t : @tree K) : bool :=
  match t with
  | Leaf => true
  | Node _ l r _ =>
      (Z.abs (balance_factor t) <=? 1)%Z && check_balance l && check_balance r
  end.

(** [is_balanced] *)
Definition is_balanced s : bool := check_balance s.(root).

(** [check] of [is_valid_bst]: every node strictly between the bounds
    inherited from its ancestors ([<=] and [>=] of [PartialOrd]). *)
Fixpoint check (t : @tree K) (min max : option K) : bool :=
  match t with
  | Leaf => true
  | Node x l r _ =>
      if match min with Some m => le_b pcmp x m | None => false end then false
      else if match max with Some m => ge_b pcmp x m | None => false end then false
      else check l min (Some x) && check r (Some x) max
  end.

(** [is_valid_bst] *)
Definition is_valid_bst s : bool := check s.(root) None None.

End Ops.
End AVLMore.

(** src/red_black_tree/rb_operations.rs and src/red_black_tree/mod.rs *)
Module RBMore.
Import RB.
Section Ops.
Context {K : Type} (pcmp : K -> K -> option comparison).
Implicit Types (s : @rbt K).

Definition is_empty s : bool :=
  match s.(root) with Leaf => true | _ => false end.

Definition node_pairs (t : @tree K) : list (K * K) :=
  match t with
  | Leaf => []
  | Node x l r _ =>
      (match l with Node y _ _ _ => [(x, y)] | Leaf => [] end) ++
      (match r with Node y _ _ _ => [(x, y)] | Leaf => [] end)
  end.

Fixpoint connections_loop (fuel : nat) (queue : list (@tree K))
    (result : list (K * K)) : option (list (K * K)) :=
  match fuel with
  | 0 => None
  | S f =>
      match queue with
      | [] => Some result
      | Leaf :: queue' => connections_loop f queue' result
      | (Node _ _ _ _ as node) :: queue' =>
          connections_loop f (queue' ++ children node) (result ++ node_pairs node)
      end
  end.

Definition find_connections_checked s : option (list (K * K)) :=
  connections_loop (S (size s.(root)))
    (match s.(root) with Leaf => [] | t => [t] end) [].

Definition find_connections s : list (K * K) :=
  match find_connections_checked s with Some l => l | None => [] end.

(** [check_red_property]: a Red node with a Red child fails. *)
Fixpoint check_red_property (t : @tree K) : bool :=
  match t with
  | Leaf => true
  | Node _ l r c =>
      if (match c with Red => true | Black => false end) &&
         (is_red_node l || is_red_node r)
      then false
      else check_red_property l && check_red_property r
  end.

(** [check_black_height]: [Some(1)] for [None]; [None] when two sibling
    subtrees disagree. *)
Fixpoint check_black_height (t : @tree K) : option nat :=
  match t with
  | Leaf => Some 1
  | Node _ l r c =>
      match check_black_height l with
      | None => None
      | Some left_height =>
          match check_black_height r with
          | None => None
          | Some right_height =>
              if negb (Nat.eqb left_height right_height) then None
              else match c with
                   | Black => Some (left_height + 1)
                   | Red => Some left_height
                   end
          end
      end
  end.

(** [is_valid_red_black_tree] *)
Definition is_valid_red_black_tree s : bool :=
  if is_red_node s.(root) then false
  else check_red_property s.(root) &&
       match check_black_height s.(root) with Some _ => true | None => false end.

Fixpoint check (t : @tree K) (min max : option K) : bool :=
  match t with
  | Leaf => true
  | Node x l r _ =>
      if match min with Some m => le_b pcmp x m | None => false end then false
      else if match max with Some m => ge_b pcmp x m | None => false end then false
      else check l min (Some x) && check r (Some x) max
  end.

(** [is_valid_bst] *)
Definition is_valid_bst s : bool := check s.(root) None None.

End Ops.
End RBMore.

(** * Panics: the operations in the option monad

    The mutating operations again, with [None] where the source panics: an
    [unwrap] or [expect] on [None], or [unreachable!()].  The recursions of
    the Red-Black deletion are bounded by [fuel] as in [RB], and exhausting
    it while a node remains is [None] too.  The loops of the traversals and
    of [height] are the [*_checked] functions of the modules above. *)
Module Checked.
Local Unset Implicit Arguments.

Local Notation "'let*' x := m 'in' f" :=
  (match m with Some x => f | None => None end)
  (at level 200, x name, m at level 100, f at level 200).

Section Ops.
Context {K : Type} (pcmp : K -> K -> option comparison).

(** ** BinarySearchTree *)

(** [insert]: the [_ => unreachable!()] arm of the cache update. *)
Definition bst_insert (s : @BST.bst K) (value : K) : option (@BST.bst K) :=
  let* caches :=
    match s.(BST.min_value), s.(BST.max_value) with
    | None, None => Some (Some value, Some value)
    | Some mn, Some mx =>
        Some ((if lt_b pcmp value mn then Some value else Some mn),
              (if gt_b pcmp value mx then Some value else Some mx))
    | _, _ => None
    end in
  Some (BST.mk_bst (BST.insert_at pcmp s.(BST.root) value) (fst caches) (snd caches)).

(** The cursor walk of [remove]: [pass_and_detach_local_minimum(..).unwrap()]. *)
Fixpoint bst_remove_at (t : @BST.tree K) (value : K) : option (@BST.tree K) :=
  match t with
  | BST.Leaf => Some BST.Leaf
  | BST.Node x l r =>
      match pcmp value x with
      | Some Lt => let* l' := bst_remove_at l value in Some (BST.Node x l' r)
      | Some Gt => let* r' := bst_remove_at r value in Some (BST.Node x l r')
      | Some Eq =>
          match l, r with
          | BST.Leaf, BST.Leaf => Some BST.Leaf
          | BST.Node _ _ _, BST.Leaf => Some l
          | BST.Leaf, BST.Node _ _ _ => Some r
          | BST.Node _ _ _, BST.Node _ _ _ =>
              match BST.pass_and_detach_local_minimum r with
              | (r', Some m) => Some (BST.Node m l r')
              | (_, None) => None
              end
          end
      | None => Some t
      end
  end.

Definition bst_remove (s : @BST.bst K) (value : K) : option (@BST.bst K) :=
  let* t := bst_remove_at s.(BST.root) value in
  Some (BST.mk_bst t (BST.refind_min t) (BST.refind_max t)).

(** ** AVLTree *)

Definition ll_rotation (t : @AVL.tree K) : option (@AVL.tree K) :=
  match t with
  | AVL.Node x (AVL.Node y a b hy) c hx =>
      Some (AVL.update_height (AVL.Node y a (AVL.update_height (AVL.Node x b c hx)) hy))
  | _ => None
  end.

Definition rr_rotation (t : @AVL.tree K) : option (@AVL.tree K) :=
  match t with
  | AVL.Node x a (AVL.Node y b c hy) hx =>
      Some (AVL.update_height (AVL.Node y (AVL.update_height (AVL.Node x a b hx)) c hy))
  | _ => None
  end.

(** [rl_rotation]: [self.right.take().unwrap()], then the two rotations. *)
Definition rl_rotation (t : @AVL.tree K) : option (@AVL.tree K) :=
  match t with
  | AVL.Node x l (AVL.Node _ _ _ _ as r) h =>
      let* r' := ll_rotation r in rr_rotation (AVL.Node x l r' h)
  | _ => None
  end.

Definition lr_rotation (t : @AVL.tree K) : option (@AVL.tree K) :=
  match t with
  | AVL.Node x (AVL.Node _ _ _ _ as l) r h =>
      let* l' := rr_rotation l in ll_rotation (AVL.Node x l' r h)
  | _ => None
  end.

(** [rebalance]: [self.left.as_ref().unwrap()] and
    [self.right.as_ref().unwrap()]. *)
Definition rebalance (t : @AVL.tree K) : option (@AVL.tree K) :=
  let bf := AVL.balance_factor t in
  if (1 <? bf)%Z then
    match AVL.left_of t with
    | AVL.Leaf => None
    | l => if (0 <=? AVL.balance_factor l)%Z then ll_rotation t else lr_rotation t
    end
  else if (bf <? -1)%Z then
    match AVL.right_of t with
    | AVL.Leaf => None
    | r => if (AVL.balance_factor r <=? 0)%Z then rr_rotation t else rl_rotation t
    end
  else Some t.

Fixpoint insert_rec (t : @AVL.tree K) (value : K) : option (@AVL.tree K) :=
  match t with
  | AVL.Leaf => Some (AVL.Node value AVL.Leaf AVL.Leaf 1)
  | AVL.Node x l r h =>
      match pcmp value x with
      | Some Lt =>
          let* l' := insert_rec l value in rebalance (AVL.update_height (AVL.Node x l' r h))
      | Some Gt =>
          let* r' := insert_rec r value in rebalance (AVL.update_height (AVL.Node x l r' h))
      | _ => Some t
      end
  end.

Fixpoint detach_min (x : K) (l r : @AVL.tree K) (h : nat) : option (K * @AVL.tree K) :=
  match l with
  | AVL.Leaf => Some (x, r)
  | AVL.Node lx ll lr lh =>
      let* p := detach_min lx ll lr lh in
      let* t' := rebalance (AVL.update_height (AVL.Node x (snd p) r h)) in
      Some (fst p, t')
  end.

Fixpoint remove_node (t : @AVL.tree K) (value : K) : option (@AVL.tree K) :=
  match t with
  | AVL.Leaf => Some AVL.Leaf
  | AVL.Node x l r h =>
      match pcmp value x with
      | Some Lt =>
          let* l' := remove_node l value in rebalance (AVL.update_height (AVL.Node x l' r h))
      | Some Gt =>
          let* r' := remove_node r value in rebalance (AVL.update_height (AVL.Node x l r' h))
      | Some Eq =>
          match l, r with
          | AVL.Leaf, AVL.Leaf => Some AVL.Leaf
          | AVL.Node _ _ _ _, AVL.Leaf => Some l
          | AVL.Leaf, AVL.Node _ _ _ _ => Some r
          | AVL.Node _ _ _ _, AVL.Node rx rl rr rh =>
              let* p := detach_min rx rl rr rh in
              rebalance (AVL.update_height (AVL.Node (fst p) l (snd p) h))
          end
      | None => Some t
      end
  end.

Definition avl_insert (s : @AVL.avl K) (value : K) : option (@AVL.avl K) :=
  let* t := insert_rec s.(AVL.root) value in
  Some (AVL.mk_avl t (AVL.refind_min t) (AVL.refind_max t)).

Definition avl_remove (s : @AVL.avl K) (value : K) : option (@AVL.avl K) :=
  let* t := remove_node s.(AVL.root) value in
  Some (AVL.mk_avl t (AVL.refind_min t) (AVL.refind_max t)).

(** ** RedBlackTree *)

Definition rotate_left (t : @RB.tree K) : option (@RB.tree K) :=
  match t with
  | RB.Node x a (RB.Node y b c _) cx => Some (RB.Node y (RB.Node x a b RB.Red) c cx)
  | _ => None
  end.

Definition rotate_right (t : @RB.tree K) : option (@RB.tree K) :=
  match t with
  | RB.Node y (RB.Node x a b _) c cy => Some (RB.Node x a (RB.Node y b c RB.Red) cy)
  | _ => None
  end.

Definition balance (t : @RB.tree K) : option (@RB.tree K) :=
  let* t1 :=
    if RB.is_red_node (RB.right_of t) && negb (RB.is_red_node (RB.left_of t))
    then rotate_left t else Some t in
  let* t2 :=
    if RB.is_red_node (RB.left_of t1) && RB.is_red_node (RB.left_of (RB.left_of t1))
    then rotate_right t1 else Some t1 in
  Some (if RB.is_red_node (RB.left_of t2) && RB.is_red_node (RB.right_of t2)
        then RB.flip_colors t2 else t2).

Fixpoint insert_recursive (t : @RB.tree K) (value : K) : option (@RB.tree K) :=
  match t with
  | RB.Leaf => Some (RB.Node value RB.Leaf RB.Leaf RB.Red)
  | RB.Node x l r c =>
      match pcmp value x with
      | Some Lt => let* l' := insert_recursive l value in balance (RB.Node x l' r c)
      | Some Gt => let* r' := insert_recursive r value in balance (RB.Node x l r' c)
      | Some Eq | None => Some t
      end
  end.

Definition rb_insert (s : @RB.rbt K) (value : K) : option (@RB.rbt K) :=
  let* caches :=
    match s.(RB.min_value), s.(RB.max_value) with
    | None, None => Some (Some value, Some value)
    | Some mn, Some mx =>
        Some ((if lt_b pcmp value mn then Some value else Some mn),
              (if gt_b pcmp value mx then Some value else Some mx))
    | _, _ => None
    end in
  let* t := insert_recursive s.(RB.root) value in
  Some (RB.mk_rbt (RB.blacken t) (fst caches) (snd caches)).

(** [move_red_left]: [right.rotate_right()], then [node.rotate_left()]. *)
Definition move_red_left (t : @RB.tree K) : option (@RB.tree K) :=
  let t1 := RB.flip_colors t in
  if RB.is_red_node (RB.left_of (RB.right_of t1)) then
    match t1 with
    | RB.Node x l r c =>
        let* r' := rotate_right r in
        let* t2 := rotate_left (RB.Node x l r' c) in
        Some (RB.flip_colors t2)
    | RB.Leaf => None
    end
  else Some t1.

Definition move_red_right (t : @RB.tree K) : option (@RB.tree K) :=
  let t1 := RB.flip_colors t in
  if RB.is_red_node (RB.left_of (RB.left_of t1)) then
    let* t2 := rotate_right t1 in Some (RB.flip_colors t2)
  else Some t1.

Definition fix_up (t : @RB.tree K) : option (@RB.tree K) :=
  let* t1 := if RB.is_red_node (RB.right_of t) then rotate_left t else Some t in
  let* t2 :=
    if RB.is_red_node (RB.left_of t1) && RB.is_red_node (RB.left_of (RB.left_of t1))
    then rotate_right t1 else Some t1 in
  Some (if RB.is_red_node (RB.left_of t2) && RB.is_red_node (RB.right_of t2)
        then RB.flip_colors t2 else t2).

(** [find_min]: [node.as_ref().unwrap()], then the walk to the left. *)
Definition find_min (t : @RB.tree K) : option K :=
  match t with
  | RB.Leaf => None
  | RB.Node y yl _ _ => Some (RB.find_min_from y yl)
  end.

Fixpoint remove_min (fuel : nat) (t : @RB.tree K) : option (@RB.tree K) :=
  match fuel, t with
  | _, RB.Leaf => Some RB.Leaf
  | 0, RB.Node _ _ _ _ => None
  | S f, RB.Node _ RB.Leaf _ _ => Some RB.Leaf
  | S f, RB.Node _ (RB.Node _ ll _ _ as l) _ _ =>
      let* t1 :=
        if negb (RB.is_red_node l) && negb (RB.is_red_node ll)
        then move_red_left t else Some t in
      let* l' := remove_min f (RB.left_of t1) in
      fix_up (RB.set_left t1 l')
  end.

Fixpoint remove_recursive (fuel : nat) (t : @RB.tree K) (value : K)
    : option (@RB.tree K) :=
  match fuel, t with
  | _, RB.Leaf => Some RB.Leaf
  | 0, RB.Node _ _ _ _ => None
  | S f, RB.Node x l r c =>
      match pcmp value x with
      | Some Lt =>
          match l with
          | RB.Leaf => fix_up t
          | RB.Node _ ll _ _ =>
              let* t1 :=
                if negb (RB.is_red_node l) && negb (RB.is_red_node ll)
                then move_red_left t else Some t in
              let* l' := remove_recursive f (RB.left_of t1) value in
              fix_up (RB.set_left t1 l')
          end
      | _ =>
          let* t1 := if RB.is_red_node l then rotate_right t else Some t in
          match RB.right_of t1 with
          | RB.Leaf =>
              if eq_b pcmp value (RB.value_of t1 x) then Some RB.Leaf else fix_up t1
          | RB.Node _ rl _ _ as rt =>
              let* t2 :=
                if negb (RB.is_red_node rt) && negb (RB.is_red_node rl)
                then move_red_right t1 else Some t1 in
              if eq_b pcmp value (RB.value_of t2 x) then
                let* m := find_min (RB.right_of t2) in
                let* r' := remove_min f (RB.right_of t2) in
                match t2 with
                | RB.Node _ l2 _ c2 => fix_up (RB.Node m l2 r' c2)
                | RB.Leaf => None
                end
              else
                let* r' := remove_recursive f (RB.right_of t2) value in
                fix_up (RB.set_right t2 r')
          end
      end
  end.

Definition rb_remove (s : @RB.rbt K) (value : K) : option (@RB.rbt K) :=
  match s.(RB.root) with
  | RB.Leaf => Some s
  | t =>
      let* t' := remove_recursive (RB.size t) t value in
      let t'' := RB.blacken t' in
      Some (RB.mk_rbt t'' (RB.refind_min t'') (RB.refind_max t''))
  end.

(** Every public operation on a state: [None] if one of them panics. *)
Definition bst_total (s : @BST.bst K) (v : K) : Prop :=
  bst_insert s v = Some (BST.insert pcmp s v) /\
  bst_remove s v = Some (BST.remove pcmp s v) /\
  BST.height_checked s <> None /\ BST.in_order_checked s <> None /\
  BST.pre_order_checked s <> None /\ BST.post_order_checked s <> None /\
  BST.level_order_checked s <> None.

Definition avl_total (s : @AVL.avl K) (v : K) : Prop :=
  avl_insert s v = Some (AVL.insert pcmp s v) /\
  avl_remove s v = Some (AVL.remove pcmp s v) /\
  AVL.height_checked s <> None /\ AVL.in_order_checked s <> None /\
  AVL.pre_order_checked s <> None /\ AVL.post_order_checked s <> None /\
  AVL.level_order_checked s <> None.

Definition rb_total (s : @RB.rbt K) (v : K) : Prop :=
  rb_insert s v = Some (RB.insert pcmp s v) /\
  rb_remove s v = Some (RB.remove pcmp s v) /\
  RB.height_checked s <> None /\ RB.in_order_checked s <> None /\
  RB.pre_order_checked s <> None /\ RB.post_order_checked s <> None /\
  RB.level_order_checked s <> None.

End Ops.
End Checked.

(** * Proofs *)

(** ** Facts on lawful orders and key lists *)
Section OrderFacts.
Context {K : Type} (pcmp : K -> K -> option comparison).
Hypothesis HP : partial_laws pcmp.

Local Abbreviation lt := (key_lt pcmp).
Local Abbreviation sorted := (StronglySorted (key_lt pcmp)).

Lemma lt_irrefl a : ~ lt a a.
Proof.
  unfold key_lt; intros H. pose proof H as H'.
  apply (pcmp_lt_gt HP) in H'. congruence.
Qed.

Lemma lt_trans a b c : lt a b -> lt b c -> lt a c.
Proof. apply (pcmp_lt_trans HP). Qed.

Lemma gt_lt a b : pcmp a b = Some Gt -> lt b a.
Proof. intros H. apply (pcmp_lt_gt HP). exact H. Qed.

Lemma lt_gt a b : lt a b -> pcmp b a = Some Gt.
Proof. intros H. apply (pcmp_lt_gt HP). exact H. Qed.

Lemma eq_b_true a b : eq_b pcmp a b = true -> a = b.
Proof.
  unfold eq_b. destruct (pcmp a b) as [[]|] eqn:E; try discriminate.
  intros _. now apply (pcmp_eq HP).
Qed.

Lemma lt_not_eq_b a b : lt a b -> eq_b pcmp a b = false.
Proof. unfold key_lt, eq_b. now intros ->. Qed.

Lemma sorted_app_inv l1 x l2 :
  sorted (l1 ++ x :: l2) ->
  sorted l1 /\ sorted l2 /\ Forall (fun y => lt y x) l1 /\ Forall (lt x) l2.
Proof.
  induction l1 as [|a l1 IH]; simpl; intros H.
  - inversion H; subst. repeat split; auto. constructor.
  - inversion H as [|? ? Hs Hf]; subst.
    destruct (IH Hs) as (H1 & H2 & H3 & H4).
    apply Forall_app in Hf as [Hf1 Hf2]. inversion Hf2; subst.
    repeat split; auto. constructor; auto.
Qed.

Lemma sorted_app l1 l2 :
  sorted l1 -> sorted l2 ->
  (forall a b, In a l1 -> In b l2 -> lt a b) -> sorted (l1 ++ l2).
Proof.
  induction l1 as [|a l1 IH]; simpl; intros H1 H2 H; auto.
  inversion H1; subst. constructor.
  - apply IH; auto.
  - apply Forall_app. split; auto.
    apply Forall_forall. intros b Hb. apply H; auto.
Qed.

Lemma sorted_mid l1 x l2 :
  sorted l1 -> sorted l2 -> Forall (fun y => lt y x) l1 -> Forall (lt x) l2 ->
  sorted (l1 ++ x :: l2).
Proof.
  intros H1 H2 F1 F2. apply sorted_app; auto.
  - constructor; auto.
  - intros a b Ha Hb. rewrite Forall_forall in F1, F2.
    destruct Hb as [<-|Hb]; auto.
    apply lt_trans with x; auto.
Qed.

Lemma sorted_between l1 x l2 a b :
  sorted (l1 ++ x :: l2) -> In a l1 -> In b l2 -> lt a b.
Proof.
  intros H Ha Hb. apply sorted_app_inv in H as (_ & _ & F1 & F2).
  rewrite Forall_forall in F1, F2. eapply lt_trans; eauto.
Qed.

Lemma sorted_app_l l1 l2 : sorted (l1 ++ l2) -> sorted l1.
Proof.
  induction l1 as [|a l1 IH]; simpl; intros H; [constructor|].
  inversion H as [|? ? Hs Hf]; subst. constructor; auto.
  apply Forall_app in Hf. tauto.
Qed.

Lemma sorted_app_r l1 l2 : sorted (l1 ++ l2) -> sorted l2.
Proof.
  induction l1 as [|a l1 IH]; simpl; intros H; auto.
  inversion H; subst; auto.
Qed.

(** Possible key sequences after inserting [v]: unchanged, or [v] placed
    between the keys below it and the keys above it. *)
Definition ins_spec (ks ks' : list K) (v : K) : Prop :=
  ks' = ks \/
  exists l1 l2, ks = l1 ++ l2 /\ ks' = l1 ++ v :: l2 /\
    Forall (fun y => lt y v) l1 /\ Forall (lt v) l2.

Lemma ins_spec_nil v : ins_spec [] [v] v.
Proof. right. exists [], []. repeat split; constructor. Qed.

Lemma ins_spec_refl ks v : ins_spec ks ks v.
Proof. now left. Qed.

Lemma ins_spec_left el el' x er v :
  sorted (el ++ x :: er) -> lt v x -> ins_spec el el' v ->
  ins_spec (el ++ x :: er) (el' ++ x :: er) v.
Proof.
  intros Hs Hv [->|(l1 & l2 & -> & -> & F1 & F2)]; [now left|].
  right. exists l1, (l2 ++ x :: er).
  repeat split; try now rewrite <- app_assoc.
  - exact F1.
  - apply Forall_app. split; auto. constructor; auto.
    apply Forall_forall. intros b Hb. apply lt_trans with x; auto.
    apply sorted_app_inv in Hs as (_ & _ & _ & F).
    rewrite Forall_forall in F. now apply F.
Qed.

Lemma ins_spec_right el x er er' v :
  sorted (el ++ x :: er) -> lt x v -> ins_spec er er' v ->
  ins_spec (el ++ x :: er) (el ++ x :: er') v.
Proof.
  intros Hs Hv [->|(l1 & l2 & -> & -> & F1 & F2)]; [now left|].
  right. exists (el ++ x :: l1), l2.
  repeat split; try now rewrite <- app_assoc.
  - apply Forall_app. split; [|constructor; auto].
    + apply Forall_forall. intros b Hb. apply lt_trans with x; auto.
      apply sorted_app_inv in Hs as (_ & _ & F & _).
      rewrite Forall_forall in F. now apply F.
  - exact F2.
Qed.

Lemma ins_spec_sorted ks ks' v :
  sorted ks -> ins_spec ks ks' v -> sorted ks'.
Proof.
  intros Hs [->|(l1 & l2 & -> & -> & F1 & F2)]; auto.
  apply sorted_mid; auto.
  - apply sorted_app_l with l2. exact Hs.
  - apply sorted_app_r with l1. exact Hs.
Qed.

Lemma remove_key_left v el x er :
  sorted (el ++ x :: er) -> lt v x ->
  remove_key pcmp v (el ++ x :: er) = remove_key pcmp v el ++ x :: er.
Proof.
  intros Hs Hv. unfold remove_key. rewrite filter_app. simpl.
  rewrite (lt_not_eq_b Hv). simpl. f_equal. f_equal.
  apply sorted_app_inv in Hs as (_ & _ & _ & F).
  induction er as [|b er IH]; simpl; auto.
  inversion F; subst. destruct (eq_b pcmp v b) eqn:E.
  - apply eq_b_true in E; subst. exfalso. apply (lt_irrefl (a:=b)).
    apply lt_trans with x; auto.
  - simpl. f_equal. auto.
Qed.

Lemma remove_key_right v el x er :
  sorted (el ++ x :: er) -> lt x v ->
  remove_key pcmp v (el ++ x :: er) = el ++ x :: remove_key pcmp v er.
Proof.
  intros Hs Hv. unfold remove_key. rewrite filter_app. simpl.
  assert (Ex : eq_b pcmp v x = false).
  { destruct (eq_b pcmp v x) eqn:E; auto. apply eq_b_true in E; subst.
    exfalso. now apply (lt_irrefl (a:=x)). }
  rewrite Ex. simpl. f_equal.
  apply sorted_app_inv in Hs as (_ & _ & F & _).
  induction el as [|b el IH]; simpl; auto.
  inversion F; subst. destruct (eq_b pcmp v b) eqn:E.
  - apply eq_b_true in E; subst. exfalso. apply (lt_irrefl (a:=b)).
    apply lt_trans with x; auto.
  - simpl. f_equal. auto.
Qed.

(** No key of a list all below [x] is [==] to a [v] that is not below [x]. *)
Lemma remove_key_below v x el :
  pcmp v x <> Some Lt -> Forall (fun y => lt y x) el -> remove_key pcmp v el = el.
Proof.
  intros Hv F. unfold remove_key. induction el as [|b el IH]; simpl; auto.
  inversion F; subst. destruct (eq_b pcmp v b) eqn:E.
  - apply eq_b_true in E; subst. contradiction.
  - simpl. f_equal. auto.
Qed.

Lemma remove_key_above v x er :
  pcmp v x <> Some Gt -> Forall (lt x) er -> remove_key pcmp v er = er.
Proof.
  intros Hv F. unfold remove_key. induction er as [|b er IH]; simpl; auto.
  inversion F; subst. destruct (eq_b pcmp v b) eqn:E.
  - apply eq_b_true in E; subst. apply lt_gt in H1. contradiction.
  - simpl. f_equal. auto.
Qed.

Lemma remove_key_here v el x er :
  sorted (el ++ x :: er) -> pcmp v x = Some Eq ->
  remove_key pcmp v (el ++ x :: er) = el ++ er.
Proof.
  intros Hs Hv. pose proof (pcmp_eq HP _ _ Hv) as ->.
  apply sorted_app_inv in Hs as (_ & _ & F1 & F2).
  unfold remove_key at 1. rewrite filter_app. simpl.
  unfold eq_b at 2. rewrite Hv. simpl.
  fold (remove_key pcmp x el). fold (remove_key pcmp x er).
  rewrite (@remove_key_below x x el), (@remove_key_above x x er); auto; congruence.
Qed.

Lemma remove_key_none v el x er :
  sorted (el ++ x :: er) -> pcmp v x = None ->
  remove_key pcmp v (el ++ x :: er) = el ++ x :: er.
Proof.
  intros Hs Hv. apply sorted_app_inv in Hs as (_ & _ & F1 & F2).
  unfold remove_key at 1. rewrite filter_app. simpl.
  unfold eq_b at 2. rewrite Hv. simpl.
  fold (remove_key pcmp v el). fold (remove_key pcmp v er).
  rewrite (@remove_key_below v x el), (@remove_key_above v x er); auto; congruence.
Qed.

Lemma remove_key_sublist_sorted v ks : sorted ks -> sorted (remove_key pcmp v ks).
Proof.
  induction ks as [|a ks IH]; simpl; intros H; [constructor|].
  inversion H; subst. destruct (negb (eq_b pcmp v a)); auto.
  constructor; auto. unfold remove_key. rewrite Forall_forall in *.
  intros y Hy. apply filter_In in Hy as [Hy _]. auto.
Qed.

End OrderFacts.

(** ** The traversal loops of the binary search tree *)
Module BSTLoops.
Import BST.
Section Loops.
Context {K : Type}.
Local Abbreviation tree := (@tree K).
Implicit Types (c t u : tree) (st q rest : list tree) (res : list K).

(** Keys still to be emitted by [in_order] for the nodes on the stack. *)
Definition stack_elems (st : list tree) : list K :=
  flat_map (fun t => match t with Leaf => [] | Node x _ r => x :: elements r end) st.

(** Iterations still needed by the nodes on the stack. *)
Fixpoint stack_weight (st : list tree) : nat :=
  match st with
  | [] => 0
  | Leaf :: st' => S (stack_weight st')
  | Node _ _ r :: st' => S (size r + stack_weight st')
  end.

Lemma push_left_elems c st :
  stack_elems (push_left c st) = elements c ++ stack_elems st.
Proof.
  revert st; induction c as [|x l IHl r _]; intros st; simpl; auto.
  rewrite IHl. simpl. now rewrite <- app_assoc.
Qed.

Lemma push_left_weight c st :
  stack_weight (push_left c st) = size c + stack_weight st.
Proof.
  revert st; induction c as [|x l IHl r _]; intros st; simpl; auto.
  rewrite IHl. simpl. lia.
Qed.

Lemma push_left_nil c st : push_left c st = [] -> c = Leaf /\ st = [].
Proof.
  revert st; induction c as [|x l IHl r _]; intros st H; simpl in *; auto.
  apply IHl in H. destruct H; discriminate.
Qed.

Lemma in_order_loop_spec f st c res :
  size c + stack_weight st < f ->
  in_order_loop f st c res = Some (res ++ elements c ++ stack_elems st).
Proof.
  revert st c res; induction f as [|f IH]; intros st c res Hf; [lia|].
  assert (Hgen : (st = [] /\ c = Leaf) \/ (push_left c st <> [] /\
    in_order_loop (S f) st c res =
    match push_left c st with
    | Node x _ r :: stack' => in_order_loop f stack' r (res ++ [x])
    | Leaf :: stack' => in_order_loop f stack' Leaf res
    | [] => in_order_loop f [] Leaf res
    end)).
  { destruct st, c; [left; auto| | |]; right; split; try reflexivity;
      intros H; apply push_left_nil in H; destruct H; discriminate. }
  destruct Hgen as [[-> ->] | [Hne ->]].
  - simpl. now rewrite !app_nil_r.
  - pose proof (push_left_elems c st) as He.
    pose proof (push_left_weight c st) as Hw.
    destruct (push_left c st) as [|[|x l r] st'] eqn:E; [congruence| |].
    + simpl in He, Hw. rewrite IH by (simpl; lia). simpl. now rewrite He.
    + simpl in He, Hw. rewrite IH by lia. rewrite <- He. simpl.
      now rewrite <- app_assoc.
Qed.

Lemma in_order_tree t : in_order_loop (S (size t)) [] t [] = Some (elements t).
Proof. rewrite in_order_loop_spec; simpl; [now rewrite app_nil_r|lia]. Qed.

(** Pre-order key sequence (specification). *)
Fixpoint pre_elems t : list K :=
  match t with Leaf => [] | Node x l r => x :: pre_elems l ++ pre_elems r end.

Definition stack_pre st : list K :=
  flat_map (fun t => match t with Leaf => [] | Node _ _ r => pre_elems r end) st.

Lemma pre_push_left_spec c st res :
  fst (pre_push_left c st res) = push_left c st /\
  snd (pre_push_left c st res) ++ stack_pre (push_left c st) =
  res ++ pre_elems c ++ stack_pre st.
Proof.
  revert st res; induction c as [|x l IHl r _]; intros st res; simpl.
  - auto.
  - destruct (IHl (Node x l r :: st) (res ++ [x])) as [H1 H2].
    split; auto. rewrite H2. simpl. now rewrite <- !app_assoc.
Qed.

Lemma pre_order_loop_spec f st c res :
  size c + stack_weight st < f ->
  pre_order_loop f st c res = Some (res ++ pre_elems c ++ stack_pre st).
Proof.
  revert st c res; induction f as [|f IH]; intros st c res Hf; [lia|].
  assert (Hgen : (st = [] /\ c = Leaf) \/ (push_left c st <> [] /\
    pre_order_loop (S f) st c res =
    let '(stack1, result1) := pre_push_left c st res in
    match stack1 with
    | Node _ _ r :: stack' => pre_order_loop f stack' r result1
    | Leaf :: stack' => pre_order_loop f stack' Leaf result1
    | [] => None
    end)).
  { destruct st, c; [left; auto| | |]; right; split; try reflexivity;
      intros H; apply push_left_nil in H; destruct H; discriminate. }
  destruct Hgen as [[-> ->] | [Hne ->]].
  - simpl. now rewrite !app_nil_r.
  - destruct (pre_push_left_spec c st res) as [H1 H2].
    pose proof (push_left_weight c st) as Hw.
    destruct (pre_push_left c st res) as [st1 res1]. simpl in H1, H2. subst st1.
    destruct (push_left c st) as [|[|x l r] st'] eqn:E; [congruence| |].
    + simpl in H2, Hw. rewrite IH by (simpl; lia). simpl. now rewrite H2.
    + simpl in H2, Hw. rewrite IH by lia. now rewrite H2.
Qed.

Lemma pre_order_tree t :
  pre_order_loop (S (size t)) [] t [] = Some (pre_elems t).
Proof. rewrite pre_order_loop_spec; simpl; [now rewrite app_nil_r|lia]. Qed.

Lemma pre_elems_length t : length (pre_elems t) = size t.
Proof. induction t; simpl; auto. rewrite length_app. lia. Qed.

(** Number of levels of a tree. *)
Fixpoint depth t : nat :=
  match t with Leaf => 0 | Node _ l r => S (Nat.max (depth l) (depth r)) end.

Definition max_depth (q : list tree) : nat :=
  fold_right (fun t m => Nat.max (depth t) m) 0 q.

Lemma max_depth_app q1 q2 :
  max_depth (q1 ++ q2) = Nat.max (max_depth q1) (max_depth q2).
Proof. induction q1; simpl; auto. rewrite IHq1. lia. Qed.

Lemma pop_level_app q rest :
  pop_level (length q) (q ++ rest) = Some (rest ++ flat_map children q).
Proof.
  revert rest; induction q as [|t q IH]; intros rest; simpl.
  - now rewrite app_nil_r.
  - rewrite <- app_assoc, IH. now rewrite <- app_assoc.
Qed.

Lemma pop_level_all q : pop_level (length q) q = Some (flat_map children q).
Proof. rewrite <- (app_nil_r q) at 2. apply pop_level_app. Qed.

Lemma children_nodes t : Forall (fun u => u <> Leaf) (children t).
Proof.
  destruct t as [|x l r]; simpl; auto.
  apply Forall_app; split; [destruct l|destruct r]; auto; constructor; auto; discriminate.
Qed.

Lemma children_depth t : max_depth (children t) = depth t - 1.
Proof.
  destruct t as [|x l r]; simpl; auto.
  rewrite max_depth_app. destruct l, r; simpl; lia.
Qed.

Lemma flat_map_children_depth q :
  max_depth (flat_map children q) = max_depth q - 1.
Proof.
  induction q as [|t q IH]; simpl; auto.
  rewrite max_depth_app, children_depth, IH. lia.
Qed.

Lemma max_depth_pos q :
  q <> [] -> Forall (fun u => u <> Leaf) q -> 1 <= max_depth q.
Proof.
  destruct q as [|[|x l r] q]; intros H F; [congruence| |].
  - inversion F; congruence.
  - change (1 <= Nat.max (S (Nat.max (depth l) (depth r))) (max_depth q)). lia.
Qed.

Lemma height_loop_spec f q h :
  q <> [] -> Forall (fun u => u <> Leaf) q -> max_depth q < f ->
  height_loop f q h = Some (h + max_depth q - 1).
Proof.
  revert q h; induction f as [|f IH]; intros q h Hq F Hf.
  - pose proof (max_depth_pos Hq F). lia.
  - pose proof (max_depth_pos Hq F) as Hpos.
    destruct q as [|t q']; [congruence|].
    cbn [height_loop]. rewrite pop_level_all.
    set (q := t :: q') in *.
    pose proof (flat_map_children_depth q) as Hd.
    assert (Fn : Forall (fun u => u <> Leaf) (flat_map children q)).
    { apply Forall_forall. intros u Hu. apply in_flat_map in Hu as (v & _ & Hv).
      pose proof (children_nodes v) as Hc. rewrite Forall_forall in Hc. auto. }
    destruct (flat_map children q) as [|u next] eqn:E.
    + change (max_depth []) with 0 in Hd. destruct f; [lia|]. cbn [height_loop]. f_equal. lia.
    + rewrite IH; auto; [|congruence|lia].
      pose proof (@max_depth_pos (u :: next) ltac:(congruence) Fn). f_equal. lia.
Qed.

Lemma depth_size t : depth t <= size t.
Proof. induction t; simpl; lia. Qed.

(** [height]'s loop on a non-empty tree counts its levels minus one. *)
Lemma height_tree t :
  t <> Leaf -> height_loop (S (size t)) [t] 0 = Some (depth t - 1).
Proof.
  intros Ht. pose proof (depth_size t).
  assert (E : max_depth [t] = depth t) by (unfold max_depth; simpl; lia).
  rewrite height_loop_spec; rewrite ?E; auto; try lia; try congruence.
Qed.

(** Iterations still needed by the nodes of a [level_order] queue. *)
Fixpoint queue_weight q : nat :=
  match q with
  | [] => 0
  | Leaf :: q' => S (queue_weight q')
  | Node _ l r :: q' => S (size l + size r + queue_weight q')
  end.

Lemma queue_weight_app q1 q2 :
  queue_weight (q1 ++ q2) = queue_weight q1 + queue_weight q2.
Proof. induction q1 as [|[|x l r] q1 IH]; simpl; lia. Qed.

Lemma queue_weight_children x l r :
  queue_weight (children (Node x l r)) = size l + size r.
Proof.
  simpl. rewrite queue_weight_app.
  destruct l as [|? l1 r1], r as [|? l2 r2]; simpl; lia.
Qed.

Lemma level_order_loop_some f q res :
  queue_weight q < f -> exists r, level_order_loop f q res = Some r.
Proof.
  revert q res; induction f as [|f IH]; intros q res Hf; [lia|].
  destruct q as [|[|x l r] q]; cbn [level_order_loop].
  - eauto.
  - apply IH. simpl in Hf. lia.
  - apply IH. rewrite queue_weight_app, queue_weight_children.
    simpl in Hf. lia.
Qed.

Lemma level_order_tree t :
  exists r, level_order_loop (S (size t)) (match t with Leaf => [] | _ => [t] end) [] = Some r.
Proof.
  apply level_order_loop_some. destruct t; simpl; lia.
Qed.

(** Post-order key sequence (specification). *)
Fixpoint post_elems t : list K :=
  match t with Leaf => [] | Node x l r => post_elems l ++ post_elems r ++ [x] end.

(** A node on [post_order]'s stack, at position [q], while the loop is in
    its left ([FL]) or right ([FR]) subtree. *)
Inductive frame : Type :=
| FL (q : pos) (x : K) (l r : tree)
| FR (q : pos) (x : K) (l r : tree).

Definition frame_entry (fr : frame) : pos * tree :=
  match fr with FL q x l r | FR q x l r => (q, Node x l r) end.

Definition frame_child (fr : frame) : pos * tree :=
  match fr with FL q _ l _ => (false :: q, l) | FR q _ _ r => (true :: q, r) end.

Definition frame_rest (fr : frame) : list K :=
  match fr with FL _ x _ r => post_elems r ++ [x] | FR _ x _ _ => [x] end.

Definition frame_weight (fr : frame) : nat :=
  match fr with FL _ _ _ r => S (S (2 * size r)) | FR _ _ _ _ => 1 end.

Definition frames_weight (frs : list frame) : nat :=
  fold_right (fun fr n => frame_weight fr + n) 0 frs.

Definition link (frs : list frame) (pc : pos * tree) : Prop :=
  match frs with [] => True | fr :: _ => frame_child fr = pc end.

(** Each frame is the parent of the one above it; a frame in the right
    subtree has a right child. *)
Fixpoint chain (frs : list frame) : Prop :=
  match frs with
  | [] => True
  | fr :: frs' =>
      chain frs' /\ link frs' (frame_entry fr) /\
      match fr with FL _ _ _ _ => True | FR _ _ _ r => r <> Leaf end
  end.

(** [last_visited] is no node of the subtree at position [p]. *)
Definition outside (lv : option pos) (p : pos) : Prop :=
  forall d, lv <> Some (d ++ p).

(** State at the head of the loop: about to enter the subtree [c] at [p]
    (or done), or back at the top frame after finishing one of its
    subtrees. *)
Definition post_inv (frs : list frame) (p : pos) (c : tree) (lv : option pos)
    : Prop :=
  chain frs /\
  (link frs (p, c) /\ (c <> Leaf /\ outside lv p \/ frs = [] /\ c = Leaf)
   \/ c = Leaf /\
      match frs with
      | [] => False
      | FL q _ _ _ :: _ => outside lv (true :: q)
      | FR q _ _ _ :: _ => lv = Some (true :: q)
      end).

(** The frames pushed by [post_push_left] from [c] at [p]. *)
Fixpoint spine (p : pos) (c : tree) (acc : list frame) : list frame :=
  match c with Leaf => acc | Node x l r => spine (false :: p) l (FL p x l r :: acc) end.

Lemma spine_push p c acc :
  post_push_left p c (map frame_entry acc) = map frame_entry (spine p c acc).
Proof.
  revert p acc; induction c as [|x l IHl r _]; intros p acc; simpl; auto.
  apply (IHl (false :: p) (FL p x l r :: acc)).
Qed.

Lemma spine_rest p c acc :
  flat_map frame_rest (spine p c acc) = post_elems c ++ flat_map frame_rest acc.
Proof.
  revert p acc; induction c as [|x l IHl r _]; intros p acc; simpl; auto.
  rewrite IHl. simpl. now rewrite <- !app_assoc.
Qed.

Lemma spine_weight p c acc :
  frames_weight (spine p c acc) = 2 * size c + frames_weight acc.
Proof.
  revert p acc; induction c as [|x l IHl r _]; intros p acc; simpl; auto.
  rewrite IHl. simpl. lia.
Qed.

Lemma spine_chain p c acc :
  chain acc -> link acc (p, c) -> chain (spine p c acc).
Proof.
  revert p acc; induction c as [|x l IHl r _]; intros p acc H1 H2; simpl; auto.
  apply IHl; simpl; auto.
Qed.

Lemma spine_top p c acc :
  c <> Leaf -> exists (q : pos) x r fs (d : pos),
    spine p c acc = FL q x Leaf r :: fs /\ q = d ++ p.
Proof.
  revert p acc; induction c as [|x l IHl r _]; intros p acc H; [congruence|].
  destruct l as [|y ll lr].
  - exists p, x, r, acc, []. auto.
  - destruct (IHl (false :: p) (FL p x (Node y ll lr) r :: acc)) as (q & z & r' & fs & d & E & ->);
      [discriminate|].
    exists (d ++ false :: p), z, r', fs, (d ++ [false]). simpl in E |- *.
    split; auto. now rewrite <- app_assoc.
Qed.

Lemma pos_app_cons (d q : pos) b b' : d ++ b :: q = b' :: q -> b = b'.
Proof.
  intros H. destruct d as [|a d]; simpl in H; [congruence|].
  apply (f_equal (@length bool)) in H. simpl in H. rewrite length_app in H.
  simpl in H. lia.
Qed.

Lemma outside_app lv d0 p : outside lv p -> outside lv (d0 ++ p).
Proof. intros H d. rewrite app_assoc. apply H. Qed.

(** The body of [post_order]'s loop after its inner loop. *)
Definition post_body (f : nat) (stack1 : list (pos * tree)) (p : pos)
    (last_visited : option pos) (result : list K) : option (list K) :=
  match stack1 with
  | [] => post_order_loop f [] p Leaf last_visited result
  | (q, node) :: stack' =>
      match node with
      | Leaf => post_order_loop f stack' q Leaf (Some q) result
      | Node x _ r =>
          let right_visited :=
            match r, last_visited with
            | Node _ _ _, Some last =>
                if list_eq_dec Bool.bool_dec (true :: q) last then true else false
            | _, _ => false
            end in
          match r with
          | Leaf => post_order_loop f stack' q Leaf (Some q) (result ++ [x])
          | Node _ _ _ =>
              if right_visited then
                post_order_loop f stack' q Leaf (Some q) (result ++ [x])
              else
                post_order_loop f ((q, node) :: stack') (true :: q) r
                  last_visited result
          end
      end
  end.

Lemma post_order_loop_unfold f stack p c lv res :
  (stack <> [] \/ c <> Leaf) ->
  post_order_loop (S f) stack p c lv res =
  post_body f (post_push_left p c stack) p lv res.
Proof. intros H. destruct stack, c; auto. destruct H; congruence. Qed.

Lemma post_pop f fs (q : pos) x l r res :
  chain fs -> link fs (q, Node x l r) ->
  (forall frs p c lv res, post_inv frs p c lv ->
     2 * size c + frames_weight frs < f ->
     post_order_loop f (map frame_entry frs) p c lv res =
     Some (res ++ post_elems c ++ flat_map frame_rest frs)) ->
  frames_weight fs < f ->
  post_order_loop f (map frame_entry fs) q Leaf (Some q) (res ++ [x]) =
  Some (res ++ [x] ++ flat_map frame_rest fs).
Proof.
  intros Hch Hl IH Hw. rewrite IH; [now rewrite <- app_assoc| |simpl; lia].
  split; auto. destruct fs as [|f2 fs']; [left; simpl; auto|right].
  split; auto. destruct f2 as [q2 ? ? ?|q2 ? ? ?]; simpl in Hl; injection Hl as <- _; auto.
  intros d H. injection H as H. symmetry in H. apply pos_app_cons in H. discriminate.
Qed.

Lemma post_order_loop_spec f frs p c lv res :
  post_inv frs p c lv -> 2 * size c + frames_weight frs < f ->
  post_order_loop f (map frame_entry frs) p c lv res =
  Some (res ++ post_elems c ++ flat_map frame_rest frs).
Proof.
  revert frs p c lv res; induction f as [|f IH]; intros frs p c lv res [Hch Hst] Hf;
    [lia|].
  assert (Hpush : (frs = [] /\ c = Leaf) \/
    exists top fs,
      post_push_left p c (map frame_entry frs) = map frame_entry (top :: fs) /\
      chain (top :: fs) /\
      match top with
      | FL q _ _ _ => outside lv (true :: q)
      | FR q _ _ _ => lv = Some (true :: q)
      end /\
      flat_map frame_rest (top :: fs) = post_elems c ++ flat_map frame_rest frs /\
      frames_weight (top :: fs) = 2 * size c + frames_weight frs).
  { destruct Hst as [[Hl [[Hc Ho] | [-> ->]]] | [-> Htop]].
    - right. destruct (spine_top p frs Hc) as (q & x & r & fs & d & E & ->).
      exists (FL (d ++ p) x Leaf r), fs. rewrite <- E, spine_push.
      repeat split.
      + now apply spine_chain.
      + apply (outside_app (true :: d) Ho).
      + apply spine_rest.
      + apply spine_weight.
    - left; auto.
    - right. destruct frs as [|top fs]; [contradiction|]. exists top, fs.
      split; [reflexivity|]. split; [exact Hch|]. split; [exact Htop|].
      split; reflexivity. }
  destruct Hpush as [[-> ->] | (top & fs & Hpush & Hch' & Htop & Hrest & Hw)].
  - simpl. now rewrite app_nil_r.
  - rewrite post_order_loop_unfold.
    2: { destruct frs; [destruct c; [|right; discriminate]|left; discriminate].
         simpl in Hpush. discriminate. }
    rewrite Hpush, <- Hrest.
    destruct top as [q x l r | q x l r]; simpl in Hch'; destruct Hch' as (Hchfs & Hlink & Hok).
    + destruct r as [|y rl rr].
      * simpl. rewrite (@post_pop f fs q x l _ res Hchfs Hlink IH); [|simpl in Hw; lia].
        reflexivity.
      * transitivity (post_order_loop f (map frame_entry (FR q x l (Node y rl rr) :: fs))
          (true :: q) (Node y rl rr) lv res).
        { unfold post_body. cbn [map frame_entry].
          destruct lv as [last|]; auto.
          destruct (list_eq_dec Bool.bool_dec (true :: q) last) as [<-|]; auto.
          exfalso. apply (Htop []). reflexivity. }
        rewrite IH.
        -- simpl. now rewrite <- !app_assoc.
        -- split; [simpl; split; auto; split; auto; discriminate|].
           left. split; [reflexivity|]. left. split; auto. discriminate.
        -- simpl in Hw |- *. lia.
    + destruct r as [|y rl rr]; [congruence|]. subst lv.
      unfold post_body. cbn [map frame_entry].
      destruct (list_eq_dec Bool.bool_dec (true :: q) (true :: q)) as [_|]; [|congruence].
      rewrite (@post_pop f fs q x l _ res Hchfs Hlink IH); [reflexivity|simpl in Hw; lia].
Qed.

Lemma post_order_tree t :
  post_order_loop (S (2 * size t)) [] [] t None [] = Some (post_elems t).
Proof.
  pose proof (@post_order_loop_spec (S (2 * size t)) [] [] t None []) as H.
  cbn [map] in H. rewrite H; [simpl; now rewrite app_nil_r| |simpl; lia].
  split; [exact I|]. left. split; [exact I|].
  destruct t; [right; auto|left; split; [discriminate|intros d Hd; discriminate]].
Qed.

End Loops.
End BSTLoops.

(** ** The traversal loops of the AVL tree: the same code on the node skeleton *)
Module AVLLoops.
Section Loops.
Context {K : Type}.
Implicit Types (c t : @AVL.tree K) (st q : list (@AVL.tree K)) (res : list K) (s : @AVL.avl K).

(** The binary tree of a node, without its extra field. *)
Fixpoint shape t : @BST.tree K :=
  match t with
  | AVL.Leaf => BST.Leaf
  | AVL.Node x l r _ => BST.Node x (shape l) (shape r)
  end.

Definition shape_entry (e : BST.pos * @AVL.tree K) : BST.pos * @BST.tree K :=
  (fst e, shape (snd e)).

Lemma shape_size t : BST.size (shape t) = AVL.size t.
Proof. induction t; simpl; auto. Qed.

Lemma shape_elements t : BST.elements (shape t) = AVL.elements t.
Proof. induction t; simpl; auto. now rewrite IHt1, IHt2. Qed.

Lemma shape_leaf t : shape t = BST.Leaf <-> t = AVL.Leaf.
Proof. destruct t; simpl; split; congruence. Qed.

Lemma shape_children t : BST.children (shape t) = map shape (AVL.children t).
Proof.
  destruct t as [|x l r h]; simpl; auto.
  rewrite map_app. f_equal; [destruct l|destruct r]; auto.
Qed.

Lemma shape_pop_level n q :
  BST.pop_level n (map shape q) = option_map (map shape) (AVL.pop_level n q).
Proof.
  revert q; induction n as [|n IH]; intros q; simpl; auto.
  destruct q as [|t q]; simpl; auto.
  rewrite <- IH, map_app, shape_children. reflexivity.
Qed.

Lemma shape_height_loop f q h :
  AVL.height_loop f q h = BST.height_loop f (map shape q) h.
Proof.
  revert q h; induction f as [|f IH]; intros q h; auto.
  destruct q as [|t q']; [reflexivity|].
  change (map shape (t :: q')) with (shape t :: map shape q').
  cbn [AVL.height_loop BST.height_loop].
  change (shape t :: map shape q') with (map shape (t :: q')).
  rewrite length_map, shape_pop_level.
  destruct (AVL.pop_level (length (t :: q')) (t :: q')) as [q2|]; cbn [option_map]; auto.
  rewrite IH. destruct q2; reflexivity.
Qed.

Lemma shape_push_left c st :
  BST.push_left (shape c) (map shape st) = map shape (AVL.push_left c st).
Proof.
  revert st; induction c as [|x l IHl r _ h]; intros st; simpl; auto.
  apply (IHl (AVL.Node x l r h :: st)).
Qed.

Lemma AVL_in_order_loop_unfold f st c res :
  (st <> [] \/ c <> AVL.Leaf) ->
  AVL.in_order_loop (S f) st c res =
  match AVL.push_left c st with
  | AVL.Node x _ r _ :: stack' => AVL.in_order_loop f stack' r (res ++ [x])
  | AVL.Leaf :: stack' => AVL.in_order_loop f stack' AVL.Leaf res
  | [] => AVL.in_order_loop f [] AVL.Leaf res
  end.
Proof. intros H. destruct st, c; auto. destruct H; congruence. Qed.

Lemma BST_in_order_loop_unfold f (st : list (@BST.tree K)) (c : @BST.tree K) res :
  (st <> [] \/ c <> BST.Leaf) ->
  BST.in_order_loop (S f) st c res =
  match BST.push_left c st with
  | BST.Node x _ r :: stack' => BST.in_order_loop f stack' r (res ++ [x])
  | BST.Leaf :: stack' => BST.in_order_loop f stack' BST.Leaf res
  | [] => BST.in_order_loop f [] BST.Leaf res
  end.
Proof. intros H. destruct st, c; auto. destruct H; congruence. Qed.

Lemma shape_not_empty st c :
  (st <> [] \/ c <> AVL.Leaf) -> (map shape st <> [] \/ shape c <> BST.Leaf).
Proof.
  intros [H|H]; [left|right].
  - intros E. apply map_eq_nil in E. auto.
  - intros E. apply shape_leaf in E. auto.
Qed.

Lemma loop_cases st c : (st = [] /\ c = AVL.Leaf) \/ (st <> [] \/ c <> AVL.Leaf).
Proof. destruct st, c; auto; right; (left + right); discriminate. Qed.

Lemma shape_in_order_loop f st c res :
  AVL.in_order_loop f st c res = BST.in_order_loop f (map shape st) (shape c) res.
Proof.
  revert st c res; induction f as [|f IH]; intros st c res; auto.
  destruct (loop_cases st c) as [[-> ->]|Hc]; [reflexivity|].
  rewrite AVL_in_order_loop_unfold, BST_in_order_loop_unfold by auto using shape_not_empty.
  rewrite shape_push_left.
  destruct (AVL.push_left c st) as [|[|x l r h] st']; cbn [map shape]; auto.
Qed.

Lemma shape_pre_push_left c st res :
  BST.pre_push_left (shape c) (map shape st) res =
  (map shape (fst (AVL.pre_push_left c st res)), snd (AVL.pre_push_left c st res)).
Proof.
  revert st res; induction c as [|x l IHl r _ h]; intros st res; simpl; auto.
  apply (IHl (AVL.Node x l r h :: st)).
Qed.

Lemma AVL_pre_order_loop_unfold f st c res :
  (st <> [] \/ c <> AVL.Leaf) ->
  AVL.pre_order_loop (S f) st c res =
  let '(stack1, result1) := AVL.pre_push_left c st res in
  match stack1 with
  | AVL.Node _ _ r _ :: stack' => AVL.pre_order_loop f stack' r result1
  | AVL.Leaf :: stack' => AVL.pre_order_loop f stack' AVL.Leaf result1
  | [] => None
  end.
Proof. intros H. destruct st, c; auto. destruct H; congruence. Qed.

Lemma BST_pre_order_loop_unfold f (st : list (@BST.tree K)) (c : @BST.tree K) res :
  (st <> [] \/ c <> BST.Leaf) ->
  BST.pre_order_loop (S f) st c res =
  let '(stack1, result1) := BST.pre_push_left c st res in
  match stack1 with
  | BST.Node _ _ r :: stack' => BST.pre_order_loop f stack' r result1
  | BST.Leaf :: stack' => BST.pre_order_loop f stack' BST.Leaf result1
  | [] => None
  end.
Proof. intros H. destruct st, c; auto. destruct H; congruence. Qed.

Lemma shape_pre_order_loop f st c res :
  AVL.pre_order_loop f st c res = BST.pre_order_loop f (map shape st) (shape c) res.
Proof.
  revert st c res; induction f as [|f IH]; intros st c res; auto.
  destruct (loop_cases st c) as [[-> ->]|Hc]; [reflexivity|].
  rewrite AVL_pre_order_loop_unfold, BST_pre_order_loop_unfold by auto using shape_not_empty.
  rewrite shape_pre_push_left.
  destruct (AVL.pre_push_left c st res) as [st1 res1]. cbn [fst snd].
  destruct st1 as [|[|x l r h] st']; cbn [map shape]; auto.
Qed.

Lemma shape_level_order_loop f q res :
  AVL.level_order_loop f q res = BST.level_order_loop f (map shape q) res.
Proof.
  revert q res; induction f as [|f IH]; intros q res; auto.
  destruct q as [|[|x l r h] q']; cbn [map shape AVL.level_order_loop BST.level_order_loop]; auto.
  rewrite IH, map_app. change (BST.Node x (shape l) (shape r)) with (shape (AVL.Node x l r h)).
  now rewrite shape_children.
Qed.

Lemma shape_post_push_left p c (st : list (BST.pos * @AVL.tree K)) :
  BST.post_push_left p (shape c) (map shape_entry st) =
  map shape_entry (AVL.post_push_left p c st).
Proof.
  revert p st; induction c as [|x l IHl r _ h]; intros p st; simpl; auto.
  apply (IHl (false :: p) ((p, AVL.Node x l r h) :: st)).
Qed.

(** The body of [post_order]'s loop after its inner loop. *)
Definition post_body (f : nat) (stack1 : list (BST.pos * AVL.tree)) (p : BST.pos)
    (last_visited : option BST.pos) (result : list K) : option (list K) :=
  match stack1 with
  | [] => AVL.post_order_loop f [] p AVL.Leaf last_visited result
  | (q, node) :: stack' =>
      match node with
      | AVL.Leaf => AVL.post_order_loop f stack' q AVL.Leaf (Some q) result
      | AVL.Node x _ r _ =>
          let right_visited :=
            match r, last_visited with
            | AVL.Node _ _ _ _, Some last =>
                if list_eq_dec Bool.bool_dec (true :: q) last then true else false
            | _, _ => false
            end in
          match r with
          | AVL.Leaf => AVL.post_order_loop f stack' q AVL.Leaf (Some q) (result ++ [x])
          | AVL.Node _ _ _ _ =>
              if right_visited then
                AVL.post_order_loop f stack' q AVL.Leaf (Some q) (result ++ [x])
              else
                AVL.post_order_loop f ((q, node) :: stack') (true :: q) r
                  last_visited result
          end
      end
  end.

Lemma AVL_post_order_loop_unfold f (stack : list (BST.pos * @AVL.tree K)) p c lv res :
  (stack <> [] \/ c <> AVL.Leaf) ->
  AVL.post_order_loop (S f) stack p c lv res =
  post_body f (AVL.post_push_left p c stack) p lv res.
Proof. intros H. destruct stack, c; auto. destruct H; congruence. Qed.

Lemma shape_post_order_loop f (st : list (BST.pos * @AVL.tree K)) p c lv res :
  AVL.post_order_loop f st p c lv res =
  BST.post_order_loop f (map shape_entry st) p (shape c) lv res.
Proof.
  revert st p c lv res; induction f as [|f IH]; intros st p c lv res; auto.
  assert (Hc : (st = [] /\ c = AVL.Leaf) \/ (st <> [] \/ c <> AVL.Leaf)).
  { destruct st, c; auto; right; (left + right); discriminate. }
  destruct Hc as [[-> ->]|Hc]; [reflexivity|].
  rewrite AVL_post_order_loop_unfold by exact Hc.
  rewrite BSTLoops.post_order_loop_unfold by
    (destruct Hc as [Hc|Hc]; [left; intros E; apply map_eq_nil in E; auto
                             |right; intros E; apply shape_leaf in E; auto]).
  rewrite shape_post_push_left.
  destruct (AVL.post_push_left p c st) as [|[q [|x l r h]] st']; cbn [map shape shape_entry fst snd];
    unfold post_body, BSTLoops.post_body; cbn [shape shape_entry fst snd]; auto.
  destruct r as [|y rl rr hr]; cbn [shape]; auto.
  destruct lv as [last|]; [destruct (list_eq_dec Bool.bool_dec (true :: q) last)|]; auto.
Qed.

(** The public loops of the AVL tree compute what the binary-search-tree
    loops compute on the node skeleton. *)
Lemma in_order_elements s : AVL.in_order_checked s = Some (AVL.elements s.(AVL.root)).
Proof.
  unfold AVL.in_order_checked. rewrite shape_in_order_loop, <- shape_size.
  rewrite <- shape_elements. apply BSTLoops.in_order_tree.
Qed.

Lemma in_order_eq s : AVL.in_order s = AVL.elements s.(AVL.root).
Proof. unfold AVL.in_order. now rewrite in_order_elements. Qed.

Lemma pre_order_elems s :
  AVL.pre_order_checked s = Some (BSTLoops.pre_elems (shape s.(AVL.root))).
Proof.
  unfold AVL.pre_order_checked. rewrite shape_pre_order_loop, <- shape_size.
  apply BSTLoops.pre_order_tree.
Qed.

Lemma post_order_elems s :
  AVL.post_order_checked s = Some (BSTLoops.post_elems (shape s.(AVL.root))).
Proof.
  unfold AVL.post_order_checked. rewrite shape_post_order_loop, <- shape_size.
  apply BSTLoops.post_order_tree.
Qed.

Lemma level_order_some s : exists r, AVL.level_order_checked s = Some r.
Proof.
  unfold AVL.level_order_checked. rewrite shape_level_order_loop, <- shape_size.
  destruct (BSTLoops.level_order_tree (shape s.(AVL.root))) as [r Hr].
  exists r. rewrite <- Hr. destruct (AVL.root s); reflexivity.
Qed.

Lemma height_depth s :
  AVL.height_checked s = Some (BSTLoops.depth (shape s.(AVL.root)) - 1).
Proof.
  unfold AVL.height_checked. destruct (AVL.root s) as [|x l r h] eqn:E; [reflexivity|].
  rewrite shape_height_loop, <- shape_size. cbn [map].
  apply BSTLoops.height_tree. discriminate.
Qed.

End Loops.
End AVLLoops.

Module RBLoops.
Section Loops.
Context {K : Type}.
Implicit Types (c t : @RB.tree K) (st q : list (@RB.tree K)) (res : list K) (s : @RB.rbt K).

(** The binary tree of a node, without its extra field. *)
Fixpoint shape t : @BST.tree K :=
  match t with
  | RB.Leaf => BST.Leaf
  | RB.Node x l r _ => BST.Node x (shape l) (shape r)
  end.

Definition shape_entry (e : BST.pos * @RB.tree K) : BST.pos * @BST.tree K :=
  (fst e, shape (snd e)).

Lemma shape_size_rb t : BST.size (shape t) = RB.size t.
Proof. induction t; simpl; auto. Qed.

Lemma shape_elements_rb t : BST.elements (shape t) = RB.elements t.
Proof. induction t; simpl; auto. now rewrite IHt1, IHt2. Qed.

Lemma shape_leaf_rb t : shape t = BST.Leaf <-> t = RB.Leaf.
Proof. destruct t; simpl; split; congruence. Qed.

Lemma shape_children_rb t : BST.children (shape t) = map shape (RB.children t).
Proof.
  destruct t as [|x l r h]; simpl; auto.
  rewrite map_app. f_equal; [destruct l|destruct r]; auto.
Qed.

Lemma shape_pop_level_rb n q :
  BST.pop_level n (map shape q) = option_map (map shape) (RB.pop_level n q).
Proof.
  revert q; induction n as [|n IH]; intros q; simpl; auto.
  destruct q as [|t q]; simpl; auto.
  rewrite <- IH, map_app, shape_children_rb. reflexivity.
Qed.

Lemma shape_height_loop_rb f q h :
  RB.height_loop f q h = BST.height_loop f (map shape q) h.
Proof.
  revert q h; induction f as [|f IH]; intros q h; auto.
  destruct q as [|t q']; [reflexivity|].
  change (map shape (t :: q')) with (shape t :: map shape q').
  cbn [RB.height_loop BST.height_loop].
  change (shape t :: map shape q') with (map shape (t :: q')).
  rewrite length_map, shape_pop_level_rb.
  destruct (RB.pop_level (length (t :: q')) (t :: q')) as [q2|]; cbn [option_map]; auto.
  rewrite IH. destruct q2; reflexivity.
Qed.

Lemma shape_push_left_rb c st :
  BST.push_left (shape c) (map shape st) = map shape (RB.push_left c st).
Proof.
  revert st; induction c as [|x l IHl r _ h]; intros st; simpl; auto.
  apply (IHl (RB.Node x l r h :: st)).
Qed.

Lemma RB_in_order_loop_unfold f st c res :
  (st <> [] \/ c <> RB.Leaf) ->
  RB.in_order_loop (S f) st c res =
  match RB.push_left c st with
  | RB.Node x _ r _ :: stack' => RB.in_order_loop f stack' r (res ++ [x])
  | RB.Leaf :: stack' => RB.in_order_loop f stack' RB.Leaf res
  | [] => RB.in_order_loop f [] RB.Leaf res
  end.
Proof. intros H. destruct st, c; auto. destruct H; congruence. Qed.

Lemma BST_in_order_loop_unfold_rb f (st : list (@BST.tree K)) (c : @BST.tree K) res :
  (st <> [] \/ c <> BST.Leaf) ->
  BST.in_order_loop (S f) st c res =
  match BST.push_left c st with
  | BST.Node x _ r :: stack' => BST.in_order_loop f stack' r (res ++ [x])
  | BST.Leaf :: stack' => BST.in_order_loop f stack' BST.Leaf res
  | [] => BST.in_order_loop f [] BST.Leaf res
  end.
Proof. intros H. destruct st, c; auto. destruct H; congruence. Qed.

Lemma shape_not_empty_rb st c :
  (st <> [] \/ c <> RB.Leaf) -> (map shape st <> [] \/ shape c <> BST.Leaf).
Proof.
  intros [H|H]; [left|right].
  - intros E. apply map_eq_nil in E. auto.
  - intros E. apply shape_leaf_rb in E. auto.
Qed.

Lemma loop_cases_rb st c : (st = [] /\ c = RB.Leaf) \/ (st <> [] \/ c <> RB.Leaf).
Proof. destruct st, c; auto; right; (left + right); discriminate. Qed.

Lemma shape_in_order_loop_rb f st c res :
  RB.in_order_loop f st c res = BST.in_order_loop f (map shape st) (shape c) res.
Proof.
  revert st c res; induction f as [|f IH]; intros st c res; auto.
  destruct (loop_cases_rb st c) as [[-> ->]|Hc]; [reflexivity|].
  rewrite RB_in_order_loop_unfold, BST_in_order_loop_unfold_rb by auto using shape_not_empty_rb.
  rewrite shape_push_left_rb.
  destruct (RB.push_left c st) as [|[|x l r h] st']; cbn [map shape]; auto.
Qed.

Lemma shape_pre_push_left_rb c st res :
  BST.pre_push_left (shape c) (map shape st) res =
  (map shape (fst (RB.pre_push_left c st res)), snd (RB.pre_push_left c st res)).
Proof.
  revert st res; induction c as [|x l IHl r _ h]; intros st res; simpl; auto.
  apply (IHl (RB.Node x l r h :: st)).
Qed.

Lemma RB_pre_order_loop_unfold f st c res :
  (st <> [] \/ c <> RB.Leaf) ->
  RB.pre_order_loop (S f) st c res =
  let '(stack1, result1) := RB.pre_push_left c st res in
  match stack1 with
  | RB.Node _ _ r _ :: stack' => RB.pre_order_loop f stack' r result1
  | RB.Leaf :: stack' => RB.pre_order_loop f stack' RB.Leaf result1
  | [] => None
  end.
Proof. intros H. destruct st, c; auto. destruct H; congruence. Qed.

Lemma BST_pre_order_loop_unfold_rb f (st : list (@BST.tree K)) (c : @BST.tree K) res :
  (st <> [] \/ c <> BST.Leaf) ->
  BST.pre_order_loop (S f) st c res =
  let '(stack1, result1) := BST.pre_push_left c st res in
  match stack1 with
  | BST.Node _ _ r :: stack' => BST.pre_order_loop f stack' r result1
  | BST.Leaf :: stack' => BST.pre_order_loop f stack' BST.Leaf result1
  | [] => None
  end.
Proof. intros H. destruct st, c; auto. destruct H; congruence. Qed.

Lemma shape_pre_order_loop_rb f st c res :
  RB.pre_order_loop f st c res = BST.pre_order_loop f (map shape st) (shape c) res.
Proof.
  revert st c res; induction f as [|f IH]; intros st c res; auto.
  destruct (loop_cases_rb st c) as [[-> ->]|Hc]; [reflexivity|].
  rewrite RB_pre_order_loop_unfold, BST_pre_order_loop_unfold_rb by auto using shape_not_empty_rb.
  rewrite shape_pre_push_left_rb.
  destruct (RB.pre_push_left c st res) as [st1 res1]. cbn [fst snd].
  destruct st1 as [|[|x l r h] st']; cbn [map shape]; auto.
Qed.

Lemma shape_level_order_loop_rb f q res :
  RB.level_order_loop f q res = BST.level_order_loop f (map shape q) res.
Proof.
  revert q res; induction f as [|f IH]; intros q res; auto.
  destruct q as [|[|x l r h] q']; cbn [map shape RB.level_order_loop BST.level_order_loop]; auto.
  rewrite IH, map_app. change (BST.Node x (shape l) (shape r)) with (shape (RB.Node x l r h)).
  now rewrite shape_children_rb.
Qed.

Lemma shape_post_push_left_rb p c (st : list (BST.pos * @RB.tree K)) :
  BST.post_push_left p (shape c) (map shape_entry st) =
  map shape_entry (RB.post_push_left p c st).
Proof.
  revert p st; induction c as [|x l IHl r _ h]; intros p st; simpl; auto.
  apply (IHl (false :: p) ((p, RB.Node x l r h) :: st)).
Qed.

(** The body of [post_order]'s loop after its inner loop. *)
Definition post_body (f : nat) (stack1 : list (BST.pos * RB.tree)) (p : BST.pos)
    (last_visited : option BST.pos) (result : list K) : option (list K) :=
  match stack1 with
  | [] => RB.post_order_loop f [] p RB.Leaf last_visited result
  | (q, node) :: stack' =>
      match node with
      | RB.Leaf => RB.post_order_loop f stack' q RB.Leaf (Some q) result
      | RB.Node x _ r _ =>
          let right_visited :=
            match r, last_visited with
            | RB.Node _ _ _ _, Some last =>
                if list_eq_dec Bool.bool_dec (true :: q) last then true else false
            | _, _ => false
            end in
          match r with
          | RB.Leaf => RB.post_order_loop f stack' q RB.Leaf (Some q) (result ++ [x])
          | RB.Node _ _ _ _ =>
              if right_visited then
                RB.post_order_loop f stack' q RB.Leaf (Some q) (result ++ [x])
              else
                RB.post_order_loop f ((q, node) :: stack') (true :: q) r
                  last_visited result
          end
      end
  end.

Lemma RB_post_order_loop_unfold f (stack : list (BST.pos * @RB.tree K)) p c lv res :
  (stack <> [] \/ c <> RB.Leaf) ->
  RB.post_order_loop (S f) stack p c lv res =
  post_body f (RB.post_push_left p c stack) p lv res.
Proof. intros H. destruct stack, c; auto. destruct H; congruence. Qed.

Lemma shape_post_order_loop_rb f (st : list (BST.pos * @RB.tree K)) p c lv res :
  RB.post_order_loop f st p c lv res =
  BST.post_order_loop f (map shape_entry st) p (shape c) lv res.
Proof.
  revert st p c lv res; induction f as [|f IH]; intros st p c lv res; auto.
  assert (Hc : (st = [] /\ c = RB.Leaf) \/ (st <> [] \/ c <> RB.Leaf)).
  { destruct st, c; auto; right; (left + right); discriminate. }
  destruct Hc as [[-> ->]|Hc]; [reflexivity|].
  rewrite RB_post_order_loop_unfold by exact Hc.
  rewrite BSTLoops.post_order_loop_unfold by
    (destruct Hc as [Hc|Hc]; [left; intros E; apply map_eq_nil in E; auto
                             |right; intros E; apply shape_leaf_rb in E; auto]).
  rewrite shape_post_push_left_rb.
  destruct (RB.post_push_left p c st) as [|[q [|x l r h]] st']; cbn [map shape shape_entry fst snd];
    unfold post_body, BSTLoops.post_body; cbn [shape shape_entry fst snd]; auto.
  destruct r as [|y rl rr hr]; cbn [shape]; auto.
  destruct lv as [last|]; [destruct (list_eq_dec Bool.bool_dec (true :: q) last)|]; auto.
Qed.

(** The public loops of the red-black tree compute what the binary-search-tree
    loops compute on the node skeleton. *)
Lemma in_order_elements_rb s : RB.in_order_checked s = Some (RB.elements s.(RB.root)).
Proof.
  unfold RB.in_order_checked. rewrite shape_in_order_loop_rb, <- shape_size_rb.
  rewrite <- shape_elements_rb. apply BSTLoops.in_order_tree.
Qed.

Lemma in_order_eq_rb s : RB.in_order s = RB.elements s.(RB.root).
Proof. unfold RB.in_order. now rewrite in_order_elements_rb. Qed.

Lemma pre_order_elems_rb s :
  RB.pre_order_checked s = Some (BSTLoops.pre_elems (shape s.(RB.root))).
Proof.
  unfold RB.pre_order_checked. rewrite shape_pre_order_loop_rb, <- shape_size_rb.
  apply BSTLoops.pre_order_tree.
Qed.

Lemma post_order_elems_rb s :
  RB.post_order_checked s = Some (BSTLoops.post_elems (shape s.(RB.root))).
Proof.
  unfold RB.post_order_checked. rewrite shape_post_order_loop_rb, <- shape_size_rb.
  apply BSTLoops.post_order_tree.
Qed.

Lemma level_order_some_rb s : exists r, RB.level_order_checked s = Some r.
Proof.
  unfold RB.level_order_checked. rewrite shape_level_order_loop_rb, <- shape_size_rb.
  destruct (BSTLoops.level_order_tree (shape s.(RB.root))) as [r Hr].
  exists r. rewrite <- Hr. destruct (RB.root s); reflexivity.
Qed.

Lemma height_depth_rb s :
  RB.height_checked s = Some (BSTLoops.depth (shape s.(RB.root)) - 1).
Proof.
  unfold RB.height_checked. destruct (RB.root s) as [|x l r h] eqn:E; [reflexivity|].
  rewrite shape_height_loop_rb, <- shape_size_rb. cbn [map].
  apply BSTLoops.height_tree. discriminate.
Qed.

End Loops.
End RBLoops.

(** ** Operations of the binary search tree *)
Module BSTProofs.
Import BST.
Local Unset Implicit Arguments.
Section Proofs.
Context {K : Type} (pcmp : K -> K -> option comparison).
Hypothesis HP : partial_laws pcmp.
Local Abbreviation lt := (key_lt pcmp).
Local Abbreviation sorted := (StronglySorted (key_lt pcmp)).
Implicit Types (t l r : @tree K).

Lemma last_error_app {A : Type} (l1 l2 : list A) :
  l2 <> [] -> last_error (l1 ++ l2) = last_error l2.
Proof.
  intros H. induction l1 as [|a l1 IH]; simpl; auto.
  rewrite IH. destruct l1; simpl; auto. destruct l2; [congruence|reflexivity].
Qed.

Lemma last_error_snoc {A : Type} (l : list A) (a : A) : last_error (l ++ [a]) = Some a.
Proof. rewrite last_error_app; [reflexivity|discriminate]. Qed.

Lemma hd_error_app {A : Type} (l1 l2 : list A) :
  l1 <> [] -> hd_error (l1 ++ l2) = hd_error l1.
Proof. destruct l1; [congruence|reflexivity]. Qed.

Lemma sorted_node x l r :
  sorted (elements (Node x l r)) ->
  sorted (elements l) /\ sorted (elements r) /\
  Forall (fun y => lt y x) (elements l) /\ Forall (lt x) (elements r).
Proof. simpl. apply sorted_app_inv. Qed.

Lemma elements_nil t : elements t = [] <-> t = Leaf.
Proof.
  split; [|intros ->; reflexivity].
  destruct t; simpl; auto. intros H. apply app_eq_nil in H as [_ H]. discriminate.
Qed.

(** The walk of [insert] puts [v] in its place among the keys, or changes
    nothing. *)
Lemma insert_at_spec t v :
  sorted (elements t) -> ins_spec pcmp (elements t) (elements (insert_at pcmp t v)) v.
Proof.
  induction t as [|x l IHl r IHr]; intros Hs; simpl.
  - apply ins_spec_nil.
  - pose proof (sorted_node x l r Hs) as (Hl & Hr & _ & _).
    destruct (pcmp v x) as [[| |]|] eqn:E; simpl.
    + apply ins_spec_refl.
    + apply (ins_spec_left HP); auto.
    + apply (ins_spec_right HP); auto. now apply (gt_lt HP).
    + apply ins_spec_refl.
Qed.

Lemma insert_at_sorted t v :
  sorted (elements t) -> sorted (elements (insert_at pcmp t v)).
Proof. intros Hs. eapply (ins_spec_sorted HP); eauto using insert_at_spec. Qed.

Lemma insert_at_mem t v k :
  In k (elements (insert_at pcmp t v)) -> k = v \/ In k (elements t).
Proof.
  induction t as [|x l IHl r IHr]; simpl.
  - intros [->|[]]; auto.
  - destruct (pcmp v x) as [[| |]|]; simpl; auto;
      intros H; apply in_app_or in H as [H|[H|H]]; auto;
      try (apply IHl in H as [H|H]; auto);
      try (apply IHr in H as [H|H]; auto);
      right; apply in_or_app; simpl; tauto.
Qed.

Lemma insert_at_keep t v k :
  In k (elements t) -> In k (elements (insert_at pcmp t v)).
Proof.
  induction t as [|x l IHl r IHr]; simpl; [tauto|].
  destruct (pcmp v x) as [[| |]|]; simpl; auto;
    intros H; apply in_app_or in H as [H|[H|H]]; apply in_or_app; simpl; auto.
Qed.

(** Over a total order the inserted key is present afterwards. *)
Lemma insert_at_present (HT : total_laws pcmp) t v :
  In v (elements (insert_at pcmp t v)).
Proof.
  induction t as [|x l IHl r IHr]; simpl; auto.
  destruct (pcmp v x) as [[| |]|] eqn:E; simpl.
  - apply (pcmp_eq HP) in E; subst. apply in_or_app; simpl; auto.
  - apply in_or_app; auto.
  - apply in_or_app; simpl; auto.
  - exfalso. exact (pcmp_total HT v x E).
Qed.

(** A key below every key goes in front. *)
Lemma insert_at_below t v :
  Forall (lt v) (elements t) -> elements (insert_at pcmp t v) = v :: elements t.
Proof.
  induction t as [|x l IHl r IHr]; simpl; intros F; auto.
  apply Forall_app in F as [Fl Fx]. inversion Fx as [|? ? Hx _]; subst.
  unfold key_lt in Hx. rewrite Hx. simpl. now rewrite IHl.
Qed.

(** A key above every key goes last. *)
Lemma insert_at_above t v :
  Forall (fun y => lt y v) (elements t) ->
  elements (insert_at pcmp t v) = elements t ++ [v].
Proof.
  induction t as [|x l IHl r IHr]; simpl; intros F; auto.
  apply Forall_app in F as [Fl Fx]. inversion Fx as [|? ? Hx Fr]; subst.
  rewrite (lt_gt HP Hx). simpl. rewrite IHr by exact Fr.
  now rewrite <- app_assoc.
Qed.

(** Members of a strictly sorted list are on the two sides of any member. *)
Lemma in_split_sorted ks a b :
  sorted ks -> In a ks -> In b ks -> a = b \/ lt a b \/ lt b a.
Proof.
  induction ks as [|c ks IH]; simpl; [tauto|].
  intros Hs Ha Hb. inversion Hs as [|? ? Hs' Hf]; subst.
  rewrite Forall_forall in Hf.
  destruct Ha as [<-|Ha], Hb as [<-|Hb]; auto.
Qed.

(** A key already present is found by the walk: nothing changes. *)
Lemma insert_at_same t v :
  sorted (elements t) -> In v (elements t) -> insert_at pcmp t v = t.
Proof.
  induction t as [|x l IHl r IHr]; simpl; [tauto|].
  intros Hs Hin. pose proof (sorted_node x l r Hs) as (Hl & Hr & Fl & Fr).
  rewrite Forall_forall in Fl, Fr.
  destruct (pcmp v x) as [[| |]|] eqn:E; auto.
  - rewrite IHl; auto.
    apply in_app_or in Hin as [H|[H|H]]; auto; exfalso.
    + subst. exact (lt_irrefl HP E).
    + apply (lt_irrefl HP (a:=v)). apply (lt_trans HP) with x; auto.
  - apply (gt_lt HP) in E. rewrite IHr; auto.
    apply in_app_or in Hin as [H|[H|H]]; auto; exfalso.
    + apply (lt_irrefl HP (a:=v)). apply (lt_trans HP) with x; auto.
    + subst. exact (lt_irrefl HP E).
Qed.

(** [pass_and_detach_local_minimum] on a non-empty subtree detaches its
    first key. *)
Lemma pass_spec t :
  t <> Leaf -> exists t' m,
    pass_and_detach_local_minimum t = (t', Some m) /\ elements t = m :: elements t'.
Proof.
  induction t as [|x l IHl r _]; intros H; [congruence|].
  destruct l as [|y ll lr].
  - exists r, x. split; reflexivity.
  - destruct IHl as (l' & m & E & El); [discriminate|].
    exists (Node x l' r), m. split.
    + change (pass_and_detach_local_minimum (Node x (Node y ll lr) r))
        with (let '(l', m) := pass_and_detach_local_minimum (Node y ll lr) in
              (Node x l' r, m)).
      now rewrite E.
    + simpl. simpl in El. rewrite El. reflexivity.
Qed.

(** The walk of [remove] removes exactly the keys [==] to [v]. *)
Lemma remove_at_spec t v :
  sorted (elements t) -> elements (remove_at pcmp t v) = remove_key pcmp v (elements t).
Proof.
  induction t as [|x l IHl r IHr]; intros Hs; simpl; auto.
  pose proof (sorted_node x l r Hs) as (Hl & Hr & _ & _).
  destruct (pcmp v x) as [[| |]|] eqn:E.
  - rewrite (remove_key_here HP) by auto.
    destruct l as [|lx ll lr], r as [|rx rl rr]; try (simpl; auto; fail).
    + simpl. now rewrite app_nil_r.
    + destruct (@pass_spec (Node rx rl rr)) as (r' & m & Ep & Er); [discriminate|].
      rewrite Ep. rewrite Er. reflexivity.
  - simpl. rewrite (remove_key_left HP) by auto. now rewrite IHl.
  - simpl. rewrite (remove_key_right HP) by (auto; now apply (gt_lt HP)).
    now rewrite IHr.
  - now rewrite (remove_key_none HP).
Qed.

Lemma remove_at_sorted t v :
  sorted (elements t) -> sorted (elements (remove_at pcmp t v)).
Proof.
  intros Hs. rewrite remove_at_spec by exact Hs.
  now apply remove_key_sublist_sorted.
Qed.

(** [contains] answers whether a key [==] to the query is stored: the query
    is stored and [==] to itself. *)
Lemma contains_at_iff t v :
  sorted (elements t) ->
  contains_at pcmp t v = true <-> In v (elements t) /\ eq_b pcmp v v = true.
Proof.
  induction t as [|x l IHl r IHr]; simpl; intros Hs; [split; [discriminate|tauto]|].
  pose proof (sorted_node x l r Hs) as (Hl & Hr & Fl & Fr).
  rewrite Forall_forall in Fl, Fr.
  assert (Hmid : forall y, In v (elements l ++ y :: elements r) <->
                 In v (elements l) \/ v = y \/ In v (elements r)).
  { intros y. rewrite in_app_iff. simpl. intuition. }
  rewrite Hmid.
  destruct (pcmp v x) as [[| |]|] eqn:E.
  - apply (pcmp_eq HP) in E as E'. subst. unfold eq_b. rewrite E. tauto.
  - rewrite IHl by exact Hl. split; [tauto|].
    intros [[H|[H|H]] Hv]; auto; exfalso.
    + subst. exact (lt_irrefl HP E).
    + apply (lt_irrefl HP (a:=v)). apply (lt_trans HP) with x; auto.
  - apply (gt_lt HP) in E. rewrite IHr by exact Hr. split; [tauto|].
    intros [[H|[H|H]] Hv]; auto; exfalso.
    + apply (lt_irrefl HP (a:=v)). apply (lt_trans HP) with x; auto.
    + subst. exact (lt_irrefl HP E).
  - split; [discriminate|]. intros [[H|[H|H]] Hv]; exfalso.
    + apply Fl in H. unfold key_lt in H. congruence.
    + subst. unfold eq_b in Hv. rewrite E in Hv. discriminate.
    + apply Fr in H. apply (lt_gt HP) in H. congruence.
Qed.

Lemma refind_min_spec t : refind_min t = hd_error (elements t).
Proof.
  induction t as [|x l IHl r _]; simpl; auto.
  destruct l as [|y ll lr]; [reflexivity|].
  rewrite IHl, hd_error_app; [reflexivity|].
  intros E. apply elements_nil in E. discriminate.
Qed.

Lemma refind_max_spec t : refind_max t = last_error (elements t).
Proof.
  induction t as [|x l _ r IHr]; simpl; auto.
  destruct r as [|y rl rr].
  - simpl. now rewrite last_error_snoc.
  - rewrite IHr. change (elements l ++ x :: elements (Node y rl rr))
      with (elements l ++ [x] ++ elements (Node y rl rr)).
    rewrite app_assoc, last_error_app; [reflexivity|].
    intros E. apply elements_nil in E. discriminate.
Qed.

(** The head of a sorted list is below its other members, its last element
    above them. *)
Lemma hd_least ks m k :
  sorted ks -> hd_error ks = Some m -> In k ks -> k = m \/ lt m k.
Proof.
  destruct ks as [|a ks]; simpl; [discriminate|].
  intros Hs [= ->] [->|Hk]; auto. inversion Hs as [|? ? _ Hf]; subst.
  rewrite Forall_forall in Hf. auto.
Qed.

Lemma last_greatest ks m k :
  sorted ks -> last_error ks = Some m -> In k ks -> k = m \/ lt k m.
Proof.
  induction ks as [|a ks IH]; simpl; [discriminate|].
  intros Hs Hl Hk. inversion Hs as [|? ? Hs' Hf]; subst.
  destruct ks as [|b ks'].
  - injection Hl as ->. destruct Hk as [->|[]]; auto.
  - destruct Hk as [<-|Hk]; [|apply IH; auto].
    right. assert (Hm : In m (b :: ks')).
    { clear - Hl. revert b Hl. induction ks' as [|c ks' IH]; simpl; intros b Hl.
      - injection Hl as ->. auto.
      - right. apply (IH c Hl). }
    rewrite Forall_forall in Hf. auto.
Qed.

Lemma last_error_in {A : Type} (ks : list A) m : last_error ks = Some m -> In m ks.
Proof.
  induction ks as [|a ks IH]; simpl; [discriminate|].
  destruct ks as [|b ks']; [intros [= ->]; auto|]. intros H. right. auto.
Qed.

Lemma hd_error_in {A : Type} (ks : list A) m : hd_error ks = Some m -> In m ks.
Proof. destruct ks; simpl; [discriminate|]. intros [= ->]; auto. Qed.

Lemma last_error_none {A : Type} (ks : list A) : last_error ks = None <-> ks = [].
Proof.
  split; [|intros ->; reflexivity].
  induction ks as [|a ks IH]; simpl; auto. destruct ks; [discriminate|].
  intros H. apply IH in H. discriminate.
Qed.

(** The cache update of [insert] on the keys of a sorted list. *)
Lemma insert_caches t v mn mx :
  sorted (elements t) ->
  hd_error (elements t) = Some mn -> last_error (elements t) = Some mx ->
  hd_error (elements (insert_at pcmp t v)) =
    (if lt_b pcmp v mn then Some v else Some mn) /\
  last_error (elements (insert_at pcmp t v)) =
    (if gt_b pcmp v mx then Some v else Some mx).
Proof.
  intros Hs Hmn Hmx. split.
  - unfold lt_b. destruct (pcmp v mn) as [[| |]|] eqn:E.
    2:{ rewrite insert_at_below; [reflexivity|].
        apply Forall_forall. intros k Hk.
        destruct (hd_least _ _ _ Hs Hmn Hk) as [->|H]; auto. apply (lt_trans HP) with mn; auto. }
    all: destruct (insert_at_spec t v Hs) as [->|(l1 & l2 & E1 & -> & F1 & F2)]; auto;
      (destruct l1 as [|a l1];
       [simpl in E1; rewrite E1 in Hmn; rewrite Forall_forall in F2;
        destruct l2 as [|b l2]; [discriminate|]; injection Hmn as ->;
        specialize (F2 mn (or_introl eq_refl)); unfold key_lt in F2; congruence
       |rewrite E1 in Hmn; simpl in Hmn |- *; exact Hmn]).
  - unfold gt_b. destruct (pcmp v mx) as [[| |]|] eqn:E.
    3:{ rewrite insert_at_above; [apply last_error_snoc|].
        apply Forall_forall. intros k Hk. apply (gt_lt HP) in E.
        destruct (last_greatest _ _ _ Hs Hmx Hk) as [->|H]; auto. apply (lt_trans HP) with mx; auto. }
    all: destruct (insert_at_spec t v Hs) as [->|(l1 & l2 & E1 & -> & F1 & F2)]; auto;
      (destruct l2 as [|b l2] using rev_ind;
       [rewrite app_nil_r in E1; subst; rewrite Forall_forall in F1;
        specialize (F1 mx (last_error_in _ _ Hmx)); apply (lt_gt HP) in F1; congruence
       |rewrite E1 in Hmx; rewrite app_comm_cons, app_assoc, last_error_snoc;
        rewrite app_assoc, last_error_snoc in Hmx; exact Hmx]).
Qed.

(** Invariant of a binary search tree reachable from [new()]: sorted keys,
    caches equal to the first and last keys. *)
Definition inv (s : bst) : Prop :=
  sorted (elements s.(root)) /\
  s.(min_value) = hd_error (elements s.(root)) /\
  s.(max_value) = last_error (elements s.(root)).

Lemma inv_new : inv new.
Proof. repeat split. constructor. Qed.

Lemma inv_insert s v : inv s -> inv (insert pcmp s v).
Proof.
  destruct s as [t mn mx]; unfold inv, insert; simpl. intros (Hs & -> & ->).
  destruct (hd_error (elements t)) as [a|] eqn:Ha.
  - destruct (last_error (elements t)) as [b|] eqn:Hb.
    + destruct (insert_caches t v a b Hs Ha Hb) as [E1 E2].
      simpl. repeat split; auto using insert_at_sorted.
    + apply last_error_none in Hb. rewrite Hb in Ha. discriminate.
  - destruct (elements t) eqn:Et; [|discriminate].
    apply elements_nil in Et. subst. simpl. repeat split. repeat constructor.
Qed.

Lemma inv_remove s v : inv s -> inv (remove pcmp s v).
Proof.
  destruct s as [t mn mx]; unfold inv, remove; simpl. intros (Hs & _ & _).
  repeat split; auto using remove_at_sorted, refind_min_spec, refind_max_spec.
Qed.

Lemma inv_run ops : inv (run pcmp ops).
Proof.
  unfold run. generalize inv_new. generalize (@new K).
  induction ops as [|o ops IH]; simpl; auto.
  intros s Hs. apply IH. destruct o; simpl; auto using inv_insert, inv_remove.
Qed.

(** Inserting a stored key changes nothing, caches included. *)
Lemma insert_same s v :
  inv s -> In v (elements s.(root)) -> insert pcmp s v = s.
Proof.
  destruct s as [t mn mx]; unfold inv, insert; simpl. intros (Hs & -> & ->) Hin.
  rewrite insert_at_same by auto.
  destruct (hd_error (elements t)) as [a|] eqn:Ha.
  2:{ destruct (elements t); [contradiction|discriminate]. }
  destruct (last_error (elements t)) as [b|] eqn:Hb.
  2:{ apply last_error_none in Hb. rewrite Hb in Hin. contradiction. }
  assert (E1 : lt_b pcmp v a = false).
  { unfold lt_b. destruct (hd_least _ _ _ Hs Ha Hin) as [->|H1].
    - destruct (pcmp a a) as [[| |]|] eqn:E; auto. exfalso; exact (lt_irrefl HP E).
    - now rewrite (lt_gt HP H1). }
  assert (E2 : gt_b pcmp v b = false).
  { unfold gt_b. destruct (last_greatest _ _ _ Hs Hb Hin) as [->|H2].
    - destruct (pcmp b b) as [[| |]|] eqn:E; auto.
      apply (gt_lt HP) in E. exfalso; exact (lt_irrefl HP E).
    - now rewrite H2. }
  now rewrite E1, E2.
Qed.

End Proofs.
End BSTProofs.

(** ** Operations of the AVL tree *)
Module AVLProofs.
Local Unset Implicit Arguments.

(** Structure first: rotations and [rebalance] keep the key sequence, and
    keep or restore the AVL invariant, whatever the keys. *)
Section Structure.
Context {K : Type}.
Implicit Types (t l r a b c : @AVL.tree K).

Lemma elements_update_height t : AVL.elements (AVL.update_height t) = AVL.elements t.
Proof. destruct t; reflexivity. Qed.

Lemma elements_ll t : AVL.elements (AVL.ll_rotation t) = AVL.elements t.
Proof.
  destruct t as [|x [|y a b hy] c hx]; simpl; auto.
  now rewrite <- app_assoc.
Qed.

Lemma elements_rr t : AVL.elements (AVL.rr_rotation t) = AVL.elements t.
Proof.
  destruct t as [|x a [|y b c hy] hx]; simpl; auto.
  now rewrite <- app_assoc.
Qed.

Lemma elements_rebalance t : AVL.elements (AVL.rebalance t) = AVL.elements t.
Proof.
  unfold AVL.rebalance.
  destruct (1 <? _)%Z; [destruct (0 <=? _)%Z|destruct (_ <? -1)%Z; [destruct (_ <=? 0)%Z|]];
    auto using elements_ll, elements_rr.
  - destruct t as [|x l r h]; auto. cbn [AVL.lr_rotation]. rewrite elements_ll.
    cbn [AVL.elements]. now rewrite elements_rr.
  - destruct t as [|x l r h]; auto. cbn [AVL.rl_rotation]. rewrite elements_rr.
    cbn [AVL.elements]. now rewrite elements_ll.
Qed.

Lemma elements_fix x l r h :
  AVL.elements (AVL.rebalance (AVL.update_height (AVL.Node x l r h))) =
  AVL.elements l ++ x :: AVL.elements r.
Proof. now rewrite elements_rebalance. Qed.

Local Abbreviation ht := AVL.height_of.

(** [rebalance] after [update_height] on two AVL subtrees whose heights
    differ by at most 2: an AVL tree of height [max] or [1 + max], and the
    node itself, untouched, when the heights differ by at most 1. *)
Lemma rebalance_ok x l r h :
  AVL.avl_ok l -> AVL.avl_ok r -> ht l <= ht r + 2 -> ht r <= ht l + 2 ->
  let t' := AVL.rebalance (AVL.update_height (AVL.Node x l r h)) in
  AVL.avl_ok t' /\ Nat.max (ht l) (ht r) <= ht t' <= S (Nat.max (ht l) (ht r)) /\
  (ht l <= S (ht r) -> ht r <= S (ht l) ->
   t' = AVL.Node x l r (S (Nat.max (ht l) (ht r)))).
Proof.
  intros Hl Hr H1 H2 t'. subst t'.
  unfold AVL.rebalance. cbn [AVL.update_height AVL.balance_factor AVL.left_of AVL.right_of].
  destruct (Z.ltb_spec 1 (Z.of_nat (ht l) - Z.of_nat (ht r))) as [B|B].
  - destruct l as [|y a b hy]; [cbn in B; lia|].
    inversion Hl as [|? ? ? ? Ha Hb Hhy Hbf]; subst. cbn [AVL.balance_factor ht] in *.
    destruct (Z.leb_spec 0 (Z.of_nat (ht a) - Z.of_nat (ht b))) as [B'|B'].
    + cbn [AVL.ll_rotation AVL.update_height ht].
      split; [|split; [lia|intros; lia]].
      repeat constructor; auto; cbn [AVL.balance_factor ht]; lia.
    + destruct b as [|z b1 b2 hz]; [cbn in B'; lia|].
      inversion Hb as [|? ? ? ? Hb1 Hb2 Hhz Hbfz]; subst. cbn [AVL.balance_factor ht] in *.
      cbn [AVL.lr_rotation AVL.rr_rotation AVL.ll_rotation AVL.update_height ht].
      split; [|split; [lia|intros; lia]].
      repeat constructor; auto; cbn [AVL.balance_factor ht]; lia.
  - destruct (Z.ltb_spec (Z.of_nat (ht l) - Z.of_nat (ht r)) (-1)) as [B2|B2].
    + destruct r as [|y b c hy]; [cbn in B2; lia|].
      inversion Hr as [|? ? ? ? Hb Hc Hhy Hbf]; subst. cbn [AVL.balance_factor ht] in *.
      destruct (Z.leb_spec (Z.of_nat (ht b) - Z.of_nat (ht c)) 0) as [B'|B'].
      * cbn [AVL.rr_rotation AVL.update_height ht].
        split; [|split; [lia|intros; lia]].
        repeat constructor; auto; cbn [AVL.balance_factor ht]; lia.
      * destruct b as [|z b1 b2 hz]; [cbn in B'; lia|].
        inversion Hb as [|? ? ? ? Hb1 Hb2 Hhz Hbfz]; subst. cbn [AVL.balance_factor ht] in *.
        cbn [AVL.rl_rotation AVL.rr_rotation AVL.ll_rotation AVL.update_height ht].
        split; [|split; [lia|intros; lia]].
        repeat constructor; auto; cbn [AVL.balance_factor ht]; lia.
    + split; [constructor; auto; cbn [AVL.balance_factor ht]; lia|].
      split; [cbn [ht]; lia|intros; reflexivity].
Qed.

Lemma rebalance_ok' x l r h :
  AVL.avl_ok l -> AVL.avl_ok r -> ht l <= ht r + 2 -> ht r <= ht l + 2 ->
  let t' := AVL.rebalance (AVL.update_height (AVL.Node x l r h)) in
  AVL.avl_ok t' /\ Nat.max (ht l) (ht r) <= ht t' <= S (Nat.max (ht l) (ht r)) /\
  (ht l <= S (ht r) -> ht r <= S (ht l) -> ht t' = S (Nat.max (ht l) (ht r))).
Proof.
  intros Hl Hr H1 H2 t'.
  destruct (rebalance_ok x l r h Hl Hr H1 H2) as (Ho & Hb & He).
  subst t'. split; [exact Ho|]. split; [exact Hb|].
  intros E1 E2. now rewrite (He E1 E2).
Qed.

Lemma avl_ok_node_inv x l r h :
  AVL.avl_ok (AVL.Node x l r h) ->
  AVL.avl_ok l /\ AVL.avl_ok r /\ h = S (Nat.max (ht l) (ht r)) /\
  ht l <= S (ht r) /\ ht r <= S (ht l).
Proof.
  intros H. inversion H as [|? ? ? ? Hl Hr Hh Hbf]; subst.
  cbn [AVL.balance_factor] in Hbf. repeat split; auto; lia.
Qed.

(** On an AVL node, [update_height] then [rebalance] change nothing. *)
Lemma fix_id x l r h :
  AVL.avl_ok (AVL.Node x l r h) ->
  AVL.rebalance (AVL.update_height (AVL.Node x l r h)) = AVL.Node x l r h.
Proof.
  intros H. pose proof (avl_ok_node_inv x l r h H) as (Hl & Hr & -> & H1 & H2).
  destruct (rebalance_ok x l r 0 Hl Hr) as (_ & _ & E); try lia.
  cbn [AVL.update_height] in E |- *. now apply E.
Qed.

Lemma height_ok t : AVL.avl_ok t -> t <> AVL.Leaf -> 1 <= ht t.
Proof. intros H. destruct t; [congruence|]. inversion H; subst. cbn. lia. Qed.

(** [insert_rec] keeps the invariant and grows the height by 0 or 1. *)
Lemma insert_rec_ok (pcmp : K -> K -> option comparison) t v :
  AVL.avl_ok t ->
  AVL.avl_ok (AVL.insert_rec pcmp t v) /\
  ht t <= ht (AVL.insert_rec pcmp t v) <= S (ht t).
Proof.
  induction t as [|x l IHl r IHr h]; intros Ho.
  - cbn. split; [|lia]. constructor; try constructor; cbn; lia.
  - pose proof (avl_ok_node_inv x l r h Ho) as (Hl & Hr & Hh & H1 & H2).
    cbn [AVL.insert_rec]. destruct (pcmp v x) as [[| |]|].
    + split; [exact Ho|lia].
    + destruct (IHl Hl) as [Hl' Hb].
      destruct (rebalance_ok' x (AVL.insert_rec pcmp l v) r h Hl' Hr) as (Ho' & Hb' & He');
        try lia.
      split; [exact Ho'|]. cbn [ht]. subst h.
      destruct (le_lt_dec (ht (AVL.insert_rec pcmp l v)) (S (ht r)));
        [destruct (le_lt_dec (ht r) (S (ht (AVL.insert_rec pcmp l v))))|]; lia.
    + destruct (IHr Hr) as [Hr' Hb].
      destruct (rebalance_ok' x l (AVL.insert_rec pcmp r v) h Hl Hr') as (Ho' & Hb' & He');
        try lia.
      split; [exact Ho'|]. cbn [ht]. subst h.
      destruct (le_lt_dec (ht l) (S (ht (AVL.insert_rec pcmp r v))));
        [destruct (le_lt_dec (ht (AVL.insert_rec pcmp r v)) (S (ht l)))|]; lia.
    + split; [exact Ho|lia].
Qed.

(** [detach_min] keeps the invariant and shrinks the height by 0 or 1. *)
Lemma detach_min_ok l x r h :
  AVL.avl_ok (AVL.Node x l r h) ->
  AVL.avl_ok (snd (AVL.detach_min x l r h)) /\
  ht (snd (AVL.detach_min x l r h)) <= h <= S (ht (snd (AVL.detach_min x l r h))).
Proof.
  revert x r h. induction l as [|lx ll IH lr _ lh]; intros x r h Ho;
    pose proof (avl_ok_node_inv _ _ _ _ Ho) as (Hl & Hr & Hh & H1 & H2).
  - cbn. split; [exact Hr|]. cbn in *. lia.
  - cbn [AVL.detach_min]. specialize (IH lx lr lh Hl).
    destruct (AVL.detach_min lx ll lr lh) as [m l'] eqn:E. cbn [snd] in IH |- *.
    destruct IH as [Hl' Hb].
    destruct (rebalance_ok' x l' r h Hl' Hr) as (Ho' & Hb' & He'); try (cbn in *; lia).
    split; [exact Ho'|]. subst h. cbn [ht] in *.
    destruct (le_lt_dec (ht l') (S (ht r)));
      [destruct (le_lt_dec (ht r) (S (ht l')))|]; lia.
Qed.

(** [remove_node] keeps the invariant and shrinks the height by 0 or 1. *)
Lemma remove_node_ok (pcmp : K -> K -> option comparison) t v :
  AVL.avl_ok t ->
  AVL.avl_ok (AVL.remove_node pcmp t v) /\
  ht (AVL.remove_node pcmp t v) <= ht t <= S (ht (AVL.remove_node pcmp t v)).
Proof.
  induction t as [|x l IHl r IHr h]; intros Ho.
  - cbn. split; [constructor|lia].
  - pose proof (avl_ok_node_inv x l r h Ho) as (Hl & Hr & Hh & H1 & H2).
    cbn [AVL.remove_node]. destruct (pcmp v x) as [[| |]|].
    + destruct l as [|lx ll lr lh], r as [|rx rl rr rh].
      * cbn in *. split; [constructor|lia].
      * cbn in *. split; [exact Hr|lia].
      * cbn in *. split; [exact Hl|lia].
      * pose proof (detach_min_ok rl rx rr rh Hr) as [Hr' Hb].
        destruct (AVL.detach_min rx rl rr rh) as [m r'] eqn:E. cbn [snd] in Hr', Hb.
        set (l0 := AVL.Node lx ll lr lh) in *.
        destruct (rebalance_ok' m l0 r' h Hl Hr') as (Ho' & Hb' & He'); try (cbn in *; lia).
        split; [exact Ho'|]. subst h. cbn [ht] in *.
        destruct (le_lt_dec (ht l0) (S (ht r')));
          [destruct (le_lt_dec (ht r') (S (ht l0)))|]; lia.
    + destruct (IHl Hl) as [Hl' Hb].
      destruct (rebalance_ok' x (AVL.remove_node pcmp l v) r h Hl' Hr) as (Ho' & Hb' & He');
        try lia.
      split; [exact Ho'|]. cbn [ht]. subst h.
      destruct (le_lt_dec (ht (AVL.remove_node pcmp l v)) (S (ht r)));
        [destruct (le_lt_dec (ht r) (S (ht (AVL.remove_node pcmp l v))))|]; lia.
    + destruct (IHr Hr) as [Hr' Hb].
      destruct (rebalance_ok' x l (AVL.remove_node pcmp r v) h Hl Hr') as (Ho' & Hb' & He');
        try lia.
      split; [exact Ho'|]. cbn [ht]. subst h.
      destruct (le_lt_dec (ht l) (S (ht (AVL.remove_node pcmp r v))));
        [destruct (le_lt_dec (ht (AVL.remove_node pcmp r v)) (S (ht l)))|]; lia.
    + split; [exact Ho|lia].
Qed.

Lemma run_ok (pcmp : K -> K -> option comparison) ops :
  AVL.avl_ok (AVL.run pcmp ops).(AVL.root).
Proof.
  unfold AVL.run. assert (H : AVL.avl_ok (@AVL.new K).(AVL.root)) by constructor.
  revert H. generalize (@AVL.new K).
  induction ops as [|o ops IH]; cbn [fold_left]; auto.
  intros s Hs. apply IH. destruct o; cbn.
  - apply insert_rec_ok. exact Hs.
  - apply remove_node_ok. exact Hs.
Qed.

End Structure.

Section Keys.
Context {K : Type} (pcmp : K -> K -> option comparison).
Hypothesis HP : partial_laws pcmp.
Local Abbreviation lt := (key_lt pcmp).
Local Abbreviation sorted := (StronglySorted (key_lt pcmp)).
Local Abbreviation shape := AVLLoops.shape.
Implicit Types (t l r : @AVL.tree K) (s : @AVL.avl K).

(** [insert_rec] walks as the binary search tree's [insert]; the rotations
    keep the key sequence. *)
Lemma insert_rec_elements t v :
  AVL.elements (AVL.insert_rec pcmp t v) = BST.elements (BST.insert_at pcmp (shape t) v).
Proof.
  induction t as [|x l IHl r IHr h]; cbn [AVL.insert_rec shape BST.insert_at]; auto.
  destruct (pcmp v x) as [[| |]|]; cbn [BST.elements];
    rewrite ?elements_fix, ?IHl, ?IHr, ?AVLLoops.shape_elements; auto.
Qed.

Lemma contains_shape t v : AVL.contains_at pcmp t v = BST.contains_at pcmp (shape t) v.
Proof.
  induction t as [|x l IHl r IHr h]; cbn; auto.
  destruct (pcmp v x) as [[| |]|]; auto.
Qed.

Lemma refind_min_shape t : AVL.refind_min t = BST.refind_min (shape t).
Proof. induction t as [|x l IHl r IHr h]; cbn; auto. destruct l; auto. Qed.

Lemma refind_max_shape t : AVL.refind_max t = BST.refind_max (shape t).
Proof. induction t as [|x l IHl r IHr h]; cbn; auto. destruct r; auto. Qed.

Lemma refind_min_elements t : AVL.refind_min t = hd_error (AVL.elements t).
Proof.
  rewrite refind_min_shape, BSTProofs.refind_min_spec, AVLLoops.shape_elements.
  reflexivity.
Qed.

Lemma refind_max_elements t : AVL.refind_max t = last_error (AVL.elements t).
Proof.
  rewrite refind_max_shape, BSTProofs.refind_max_spec, AVLLoops.shape_elements.
  reflexivity.
Qed.

Lemma detach_min_elements l x r h :
  AVL.elements (AVL.Node x l r h) =
  fst (AVL.detach_min x l r h) :: AVL.elements (snd (AVL.detach_min x l r h)).
Proof.
  revert x r h. induction l as [|lx ll IH lr _ lh]; intros x r h; [reflexivity|].
  cbn [AVL.detach_min]. specialize (IH lx lr lh).
  destruct (AVL.detach_min lx ll lr lh) as [m l'] eqn:E. cbn [fst snd] in IH |- *.
  rewrite elements_fix. cbn [AVL.elements] in IH |- *. now rewrite IH.
Qed.

(** [remove_node] removes exactly the keys [==] to [v]. *)
Lemma remove_node_elements t v :
  sorted (AVL.elements t) ->
  AVL.elements (AVL.remove_node pcmp t v) = remove_key pcmp v (AVL.elements t).
Proof.
  induction t as [|x l IHl r IHr h]; intros Hs; cbn [AVL.remove_node]; auto.
  cbn [AVL.elements] in Hs |- *.
  pose proof (sorted_app_inv _ _ _ Hs) as (Hl & Hr & _ & _).
  destruct (pcmp v x) as [[| |]|] eqn:E.
  - rewrite (remove_key_here HP) by auto.
    destruct l as [|lx ll lr lh], r as [|rx rl rr rh]; cbn [AVL.elements];
      rewrite ?app_nil_r; auto.
    pose proof (detach_min_elements rl rx rr rh) as Ed.
    destruct (AVL.detach_min rx rl rr rh) as [m r'] eqn:Em. cbn [fst snd] in Ed.
    rewrite elements_fix. cbn [AVL.elements] in Ed |- *. rewrite Ed. reflexivity.
  - rewrite elements_fix, (remove_key_left HP) by auto. now rewrite IHl.
  - rewrite elements_fix, (remove_key_right HP) by (auto; now apply (gt_lt HP)).
    now rewrite IHr.
  - now rewrite (remove_key_none HP).
Qed.

(** On a sorted AVL tree, inserting a stored key changes nothing. *)
Lemma insert_rec_same t v :
  sorted (AVL.elements t) -> AVL.avl_ok t -> In v (AVL.elements t) ->
  AVL.insert_rec pcmp t v = t.
Proof.
  induction t as [|x l IHl r IHr h]; cbn [AVL.elements]; [intros _ _ []|].
  intros Hs Ho Hin. pose proof (sorted_app_inv _ _ _ Hs) as (Hl & Hr & Fl & Fr).
  pose proof (avl_ok_node_inv x l r h Ho) as (Ol & Or & _ & _ & _).
  rewrite Forall_forall in Fl, Fr. cbn [AVL.insert_rec].
  destruct (pcmp v x) as [[| |]|] eqn:E; auto.
  - rewrite IHl; auto using fix_id.
    apply in_app_or in Hin as [H|[H|H]]; auto; exfalso.
    + subst. exact (lt_irrefl HP E).
    + apply (lt_irrefl HP (a:=v)). apply (lt_trans HP) with x; auto.
  - apply (gt_lt HP) in E. rewrite IHr; auto using fix_id.
    apply in_app_or in Hin as [H|[H|H]]; auto; exfalso.
    + apply (lt_irrefl HP (a:=v)). apply (lt_trans HP) with x; auto.
    + subst. exact (lt_irrefl HP E).
Qed.

(** Invariant of an AVL tree reachable from [new()]. *)
Definition inv s : Prop :=
  AVL.avl_ok s.(AVL.root) /\ sorted (AVL.elements s.(AVL.root)) /\
  s.(AVL.min_value) = hd_error (AVL.elements s.(AVL.root)) /\
  s.(AVL.max_value) = last_error (AVL.elements s.(AVL.root)).

Lemma insert_rec_sorted t v :
  sorted (AVL.elements t) -> sorted (AVL.elements (AVL.insert_rec pcmp t v)).
Proof.
  intros Hs. rewrite insert_rec_elements.
  apply (BSTProofs.insert_at_sorted pcmp HP). now rewrite AVLLoops.shape_elements.
Qed.

Lemma avl_inv_run ops : inv (AVL.run pcmp ops).
Proof.
  unfold AVL.run. assert (H : inv AVL.new) by (repeat split; constructor).
  revert H. generalize (@AVL.new K).
  induction ops as [|o ops IH]; cbn [fold_left]; auto.
  intros s (Ho & Hs & _ & _). apply IH.
  destruct o; unfold inv, AVL.apply_op, AVL.remove, AVL.insert; simpl.
  - repeat split.
    + now apply insert_rec_ok.
    + now apply insert_rec_sorted.
    + apply refind_min_elements.
    + apply refind_max_elements.
  - repeat split.
    + now apply remove_node_ok.
    + rewrite remove_node_elements by exact Hs.
      now apply remove_key_sublist_sorted.
    + apply refind_min_elements.
    + apply refind_max_elements.
Qed.

Lemma avl_insert_same s v : inv s -> In v (AVL.elements s.(AVL.root)) -> AVL.insert pcmp s v = s.
Proof.
  destruct s as [t mn mx]. intros (Ho & Hs & Hmn & Hmx) Hin. cbn in *.
  unfold AVL.insert. cbn. rewrite insert_rec_same by auto.
  rewrite refind_min_elements, refind_max_elements. now subst.
Qed.

End Keys.
End AVLProofs.


(** ** Operations of the Red-Black tree *)
Module RBProofs.
Local Unset Implicit Arguments.

Ltac rb_simp :=
  repeat (first
    [ progress cbn [RB.is_red_node RB.left_of RB.right_of RB.rotate_left
                    RB.rotate_right RB.flip_colors RB.flip_node RB.flip andb negb
                    RB.set_left RB.set_right RB.value_of RB.blacken]
    | match goal with
      | H : RB.is_red_node ?X = _ |- context [RB.is_red_node ?X] => rewrite H
      end ]).

Ltac llrb_solve :=
  repeat first
    [ assumption | reflexivity
    | apply RB.llrb_leaf | apply RB.llrb_black | apply RB.llrb_red ].

Section Structure.
Context {K : Type}.
Implicit Types (t l r u a b al ar rl rr ll lr : @RB.tree K) (x y z w : K) (c : RB.color).

Lemma elements_rotate_left t : RB.elements (RB.rotate_left t) = RB.elements t.
Proof.
  destruct t as [|x a [|y b c cy] cx]; cbn; auto. now rewrite <- app_assoc.
Qed.

Lemma elements_rotate_right t : RB.elements (RB.rotate_right t) = RB.elements t.
Proof.
  destruct t as [|y [|x a b cx] c cy]; cbn; auto. now rewrite <- app_assoc.
Qed.

Lemma elements_flip_node t : RB.elements (RB.flip_node t) = RB.elements t.
Proof. destruct t; reflexivity. Qed.

Lemma elements_flip_colors t : RB.elements (RB.flip_colors t) = RB.elements t.
Proof. destruct t; cbn; auto. now rewrite !elements_flip_node. Qed.

Lemma elements_blacken t : RB.elements (RB.blacken t) = RB.elements t.
Proof. destruct t; reflexivity. Qed.

Ltac elems_tac :=
  repeat (first
    [ rewrite elements_rotate_left | rewrite elements_rotate_right
    | rewrite elements_flip_colors
    | match goal with |- context [if ?b then _ else _] => destruct b end ]);
  reflexivity.

Lemma elements_balance t : RB.elements (RB.balance t) = RB.elements t.
Proof. unfold RB.balance. elems_tac. Qed.

Lemma elements_fix_up t : RB.elements (RB.fix_up t) = RB.elements t.
Proof. unfold RB.fix_up. elems_tac. Qed.

Lemma elements_move_red_right t : RB.elements (RB.move_red_right t) = RB.elements t.
Proof. unfold RB.move_red_right. elems_tac. Qed.

Lemma elements_move_red_left t : RB.elements (RB.move_red_left t) = RB.elements t.
Proof.
  unfold RB.move_red_left. destruct (RB.is_red_node _); [|apply elements_flip_colors].
  destruct t as [|x l r c]; [reflexivity|]. cbn [RB.flip_colors].
  rewrite elements_flip_colors, elements_rotate_left. cbn [RB.elements].
  now rewrite elements_rotate_right, !elements_flip_node.
Qed.

Lemma size_elements t : RB.size t = length (RB.elements t).
Proof.
  induction t as [|x l IHl r IHr c]; cbn; auto.
  rewrite length_app. cbn. lia.
Qed.

(** Facts of a left-leaning subtree. *)
Lemma llrb_right n t : RB.llrb n t -> RB.is_red_node (RB.right_of t) = false.
Proof. intros H. destruct H; cbn; auto. Qed.

Lemma llrb_red_left n t :
  RB.llrb n t -> RB.is_red_node t = true -> RB.is_red_node (RB.left_of t) = false.
Proof. intros H. destruct H; cbn; auto. discriminate. Qed.

Lemma llrb_zero t : RB.llrb 0 t -> RB.is_red_node t = false -> t = RB.Leaf.
Proof. intros H. inversion H; subst; cbn; auto. discriminate. Qed.

Lemma llrb_rb_valid n t : RB.llrb n t -> RB.rb_valid n t.
Proof. induction 1; constructor; auto. Qed.

(** Blackening the root of a left-leaning tree gives a left-leaning tree. *)
Lemma llrb_blacken n t :
  RB.llrb n t -> exists m, RB.llrb m (RB.blacken t) /\ RB.is_red_node (RB.blacken t) = false.
Proof.
  intros H. destruct H.
  - exists 0. split; [constructor|reflexivity].
  - exists (S n). split; [constructor; auto|reflexivity].
  - exists (S n). split; [constructor; auto|reflexivity].
Qed.

(** A Red node with a Red left child: the intermediate result of an
    insertion below a Red node. *)
Definition red_red n t : Prop :=
  exists x l r, t = RB.Node x l r RB.Red /\ RB.llrb n l /\ RB.is_red_node l = true /\
    RB.llrb n r /\ RB.is_red_node r = false.

Lemma llrb_red_inv n x l r :
  RB.llrb n (RB.Node x l r RB.Red) ->
  RB.llrb n l /\ RB.llrb n r /\ RB.is_red_node l = false /\ RB.is_red_node r = false.
Proof. intros H. inversion H; subst. auto. Qed.

Lemma llrb_black_inv n x l r :
  RB.llrb n (RB.Node x l r RB.Black) ->
  exists n', n = S n' /\ RB.llrb n' l /\ RB.llrb n' r /\ RB.is_red_node r = false.
Proof. intros H. inversion H; subst. eauto. Qed.

Ltac llrb_inv :=
  repeat match goal with
  | H : RB.llrb _ (RB.Node _ _ _ RB.Red) |- _ =>
      apply llrb_red_inv in H as (? & ? & ? & ?)
  end.

Ltac llrb_auto := llrb_inv; llrb_solve.

Lemma is_red_true t : RB.is_red_node t = true -> exists x l r, t = RB.Node x l r RB.Red.
Proof. destruct t as [|x l r []]; cbn; try discriminate. eauto. Qed.

(** [insert_recursive] below a Black node (or [None]) gives a left-leaning
    tree of the same black height; below a Red node, possibly a Red node
    with a Red left child. *)
Lemma insert_recursive_llrb (pcmp : K -> K -> option comparison) v n t :
  RB.llrb n t ->
  (RB.is_red_node t = false -> RB.llrb n (RB.insert_recursive pcmp t v)) /\
  (RB.is_red_node t = true ->
   RB.llrb n (RB.insert_recursive pcmp t v) \/ red_red n (RB.insert_recursive pcmp t v)).
Proof.
  induction 1 as [|n x l r Hl [IHl1 IHl2] Hr [IHr1 IHr2] Hrr|n x l r Hl [IHl1 IHl2] Hr [IHr1 IHr2] Hlr Hrr].
  - split; [|discriminate]. intros _. cbn. llrb_solve.
  - split; [|discriminate]. intros _. cbn [RB.insert_recursive].
    destruct (pcmp v x) as [[| |]|]; try (llrb_solve; fail).
    + assert (Hl' : RB.llrb n (RB.insert_recursive pcmp l v) \/
                    red_red n (RB.insert_recursive pcmp l v)).
      { destruct (RB.is_red_node l) eqn:El; [apply IHl2; auto|left; apply IHl1; auto]. }
      destruct Hl' as [Hl'|(y & a & b & E & Ha & Har & Hb & Hbr)].
      * unfold RB.balance. rb_simp.
        destruct (RB.is_red_node (RB.insert_recursive pcmp l v)) eqn:E'; rb_simp;
          [rewrite (llrb_red_left _ _ Hl' E'); rb_simp|]; llrb_solve.
      * rewrite E. unfold RB.balance. rb_simp.
        destruct (is_red_true a Har) as (a1 & a2 & a3 & ->).
        apply llrb_red_inv in Ha as (Ha2 & Ha3 & Ha2r & Ha3r). rb_simp. llrb_solve.
    + pose proof (IHr1 Hrr) as Hr'. unfold RB.balance. rb_simp.
      destruct (RB.is_red_node (RB.insert_recursive pcmp r v)) eqn:E'.
      * destruct (is_red_true _ E') as (y & b & c & Ey). rewrite Ey in Hr' |- *.
        apply llrb_red_inv in Hr' as (Hb & Hc & Hbr & Hcr).
        destruct (RB.is_red_node l) eqn:El; rb_simp.
        -- rewrite (llrb_red_left _ _ Hl El). rb_simp.
           destruct l as [|? ? ? []]; try discriminate. llrb_auto.
        -- llrb_solve.
      * rb_simp. destruct (RB.is_red_node l) eqn:El; rb_simp;
          [rewrite (llrb_red_left _ _ Hl El); rb_simp|]; llrb_solve.
  - split; [discriminate|]. intros _. cbn [RB.insert_recursive].
    destruct (pcmp v x) as [[| |]|]; try (left; llrb_solve; fail).
    + pose proof (IHl1 Hlr) as Hl'. unfold RB.balance. rb_simp.
      destruct (RB.is_red_node (RB.insert_recursive pcmp l v)) eqn:E'; rb_simp.
      * rewrite (llrb_red_left _ _ Hl' E'). rb_simp.
        right. do 3 eexists. split; [reflexivity|]. repeat split; auto.
      * left. llrb_solve.
    + pose proof (IHr1 Hrr) as Hr'. unfold RB.balance. rb_simp.
      destruct (RB.is_red_node (RB.insert_recursive pcmp r v)) eqn:E'.
      * destruct (is_red_true _ E') as (y & b & c & Ey). rewrite Ey in Hr' |- *.
        apply llrb_red_inv in Hr' as (Hb & Hc & Hbr & Hcr). rb_simp.
        right. do 3 eexists. split; [reflexivity|]. repeat split; llrb_solve.
      * rb_simp. left. llrb_solve.
Qed.


(** Equations of the deletion helpers on the shapes they meet. *)
Lemma fix_up_id x l r c :
  RB.is_red_node r = false ->
  (RB.is_red_node l = true -> RB.is_red_node (RB.left_of l) = false) ->
  RB.fix_up (RB.Node x l r c) = RB.Node x l r c.
Proof.
  intros Hr Hl. unfold RB.fix_up. rb_simp.
  destruct (RB.is_red_node l) eqn:El; rb_simp; [rewrite (Hl eq_refl); rb_simp|]; reflexivity.
Qed.

Lemma fix_up_rot x l z rl rr c :
  RB.is_red_node l = false -> RB.is_red_node rr = false ->
  RB.fix_up (RB.Node x l (RB.Node z rl rr RB.Red) c) = RB.Node z (RB.Node x l rl RB.Red) rr c.
Proof. intros Hl Hrr. unfold RB.fix_up. rb_simp. reflexivity. Qed.

Lemma fix_up_flip x y al ar z rl rr c :
  RB.fix_up (RB.Node x (RB.Node y al ar RB.Red) (RB.Node z rl rr RB.Red) c) =
  RB.Node x (RB.Node y al ar RB.Black) (RB.Node z rl rr RB.Black) (RB.flip c).
Proof. reflexivity. Qed.

Lemma move_red_left_1 x l z rl rr :
  RB.is_red_node rl = false ->
  RB.move_red_left (RB.Node x l (RB.Node z rl rr RB.Black) RB.Red) =
  RB.Node x (RB.flip_node l) (RB.Node z rl rr RB.Red) RB.Black.
Proof. intros H. unfold RB.move_red_left. rb_simp. reflexivity. Qed.

Lemma move_red_left_2 x l z w a b rr :
  RB.move_red_left (RB.Node x l (RB.Node z (RB.Node w a b RB.Red) rr RB.Black) RB.Red) =
  RB.Node w (RB.Node x (RB.flip_node l) a RB.Black) (RB.Node z b rr RB.Black) RB.Red.
Proof. reflexivity. Qed.

Lemma move_red_right_1 x y ll lr r :
  RB.is_red_node ll = false ->
  RB.move_red_right (RB.Node x (RB.Node y ll lr RB.Black) r RB.Red) =
  RB.Node x (RB.Node y ll lr RB.Red) (RB.flip_node r) RB.Black.
Proof. intros H. unfold RB.move_red_right. rb_simp. reflexivity. Qed.

Lemma move_red_right_2 x y w a b lr r :
  RB.move_red_right (RB.Node x (RB.Node y (RB.Node w a b RB.Red) lr RB.Black) r RB.Red) =
  RB.Node y (RB.Node w a b RB.Black) (RB.Node x lr (RB.flip_node r) RB.Black) RB.Red.
Proof. reflexivity. Qed.

(** Trees equal up to the color of their root.  No helper of the deletion
    inspects the color of the node it is given, only those of its
    descendants, so the root color only travels along. *)
Definition sim t u : Prop := RB.blacken t = RB.blacken u.

Lemma sim_inv t u :
  sim t u -> (t = RB.Leaf /\ u = RB.Leaf) \/
  exists x l r c c', t = RB.Node x l r c /\ u = RB.Node x l r c'.
Proof.
  unfold sim. destruct t as [|x l r c], u as [|x' l' r' c']; cbn; try discriminate; auto.
  intros [= <- <- <-]. right. eauto 7.
Qed.

Lemma sim_left t u : sim t u -> RB.left_of t = RB.left_of u.
Proof. intros [[-> ->]|(? & ? & ? & ? & ? & -> & ->)]%sim_inv; reflexivity. Qed.

Lemma sim_right t u : sim t u -> RB.right_of t = RB.right_of u.
Proof. intros [[-> ->]|(? & ? & ? & ? & ? & -> & ->)]%sim_inv; reflexivity. Qed.

Lemma sim_value t u d : sim t u -> RB.value_of t d = RB.value_of u d.
Proof. intros [[-> ->]|(? & ? & ? & ? & ? & -> & ->)]%sim_inv; reflexivity. Qed.

Lemma sim_elements t u : sim t u -> RB.elements t = RB.elements u.
Proof.
  intros H. rewrite <- (elements_blacken t), <- (elements_blacken u). now rewrite H.
Qed.

Ltac sim_brute :=
  rb_simp; try reflexivity;
  match goal with
  | |- context [RB.is_red_node ?X] => is_var X; destruct X as [|? ? ? []]; sim_brute
  | |- context [RB.rotate_left (RB.Node _ _ ?X _)] =>
      is_var X; destruct X as [|? ? ? []]; sim_brute
  | |- context [RB.rotate_right (RB.Node _ ?X _ _)] =>
      is_var X; destruct X as [|? ? ? []]; sim_brute
  | |- context [RB.flip_node ?X] => is_var X; destruct X as [|? ? ? []]; sim_brute
  | |- context [RB.left_of ?X] => is_var X; destruct X as [|? ? ? []]; sim_brute
  | |- context [RB.right_of ?X] => is_var X; destruct X as [|? ? ? []]; sim_brute
  | |- context [RB.rotate_right ?X] => is_var X; destruct X as [|? ? ? []]; sim_brute
  | |- context [RB.rotate_left ?X] => is_var X; destruct X as [|? ? ? []]; sim_brute
  end.

Ltac sim_tac :=
  intros t u [[-> ->]|(? & ? & ? & ? & ? & -> & ->)]%sim_inv; [reflexivity|];
  unfold sim; sim_brute.

Lemma sim_fix_up : forall t u, sim t u -> sim (RB.fix_up t) (RB.fix_up u).
Proof. unfold RB.fix_up. sim_tac. Qed.

Lemma sim_move_red_left :
  forall t u, sim t u -> sim (RB.move_red_left t) (RB.move_red_left u).
Proof. unfold RB.move_red_left. sim_tac. Qed.

Lemma sim_move_red_right :
  forall t u, sim t u -> sim (RB.move_red_right t) (RB.move_red_right u).
Proof. unfold RB.move_red_right. sim_tac. Qed.

Lemma sim_rotate_right : forall t u, sim t u -> sim (RB.rotate_right t) (RB.rotate_right u).
Proof.
  intros t u [[-> ->]|(? & l & ? & ? & ? & -> & ->)]%sim_inv; [reflexivity|].
  destruct l; reflexivity.
Qed.

Lemma sim_set_left t u l' : sim t u -> sim (RB.set_left t l') (RB.set_left u l').
Proof. intros [[-> ->]|(? & ? & ? & ? & ? & -> & ->)]%sim_inv; reflexivity. Qed.

Lemma sim_set_right t u r' : sim t u -> sim (RB.set_right t r') (RB.set_right u r').
Proof. intros [[-> ->]|(? & ? & ? & ? & ? & -> & ->)]%sim_inv; reflexivity. Qed.

Lemma sim_if (b : bool) (G : @RB.tree K -> RB.tree) t u :
  (forall t u, sim t u -> sim (G t) (G u)) -> sim t u ->
  sim (if b then G t else t) (if b then G u else u).
Proof. intros HG H. destruct b; auto. Qed.

(** [remove_recursive] ignores the color of the root it is given, up to the
    color of the root it returns. *)
Lemma sim_remove_recursive (pcmp : K -> K -> option comparison) f v t u :
  sim t u -> sim (RB.remove_recursive pcmp f t v) (RB.remove_recursive pcmp f u v).
Proof.
  destruct f as [|f]; [cbn; auto|].
  intros [[-> ->]|(x & l & r & c & c' & -> & ->)]%sim_inv; [reflexivity|].
  cbn [RB.remove_recursive]. destruct (pcmp v x) as [[| |]|].
  2:{ destruct l as [|ly ll lr lc]; [apply sim_fix_up; reflexivity|].
      assert (H1 : sim (if negb (RB.is_red_node (RB.Node ly ll lr lc)) && negb (RB.is_red_node ll)
                        then RB.move_red_left (RB.Node x (RB.Node ly ll lr lc) r c)
                        else RB.Node x (RB.Node ly ll lr lc) r c)
                       (if negb (RB.is_red_node (RB.Node ly ll lr lc)) && negb (RB.is_red_node ll)
                        then RB.move_red_left (RB.Node x (RB.Node ly ll lr lc) r c')
                        else RB.Node x (RB.Node ly ll lr lc) r c'))
        by (apply sim_if; [apply sim_move_red_left|reflexivity]).
      rewrite (sim_left _ _ H1). apply sim_fix_up, sim_set_left, H1. }
  all: assert (H1 : sim (if RB.is_red_node l then RB.rotate_right (RB.Node x l r c)
                         else RB.Node x l r c)
                        (if RB.is_red_node l then RB.rotate_right (RB.Node x l r c')
                         else RB.Node x l r c'))
         by (apply sim_if; [apply sim_rotate_right|reflexivity]).
  all: set (T1 := if RB.is_red_node l then RB.rotate_right (RB.Node x l r c)
                  else RB.Node x l r c) in *;
       set (U1 := if RB.is_red_node l then RB.rotate_right (RB.Node x l r c')
                  else RB.Node x l r c') in *.
  all: rewrite (sim_right _ _ H1), (sim_value _ _ x H1).
  all: destruct (RB.right_of U1) as [|rz rl rr rc];
         [destruct (eq_b pcmp v (RB.value_of U1 x)); [reflexivity|apply sim_fix_up, H1]|].
  all: assert (H2 : sim (if negb (RB.is_red_node (RB.Node rz rl rr rc)) && negb (RB.is_red_node rl)
                         then RB.move_red_right T1 else T1)
                        (if negb (RB.is_red_node (RB.Node rz rl rr rc)) && negb (RB.is_red_node rl)
                         then RB.move_red_right U1 else U1))
         by (apply sim_if; [apply sim_move_red_right|exact H1]).
  all: set (T2 := if negb (RB.is_red_node (RB.Node rz rl rr rc)) && negb (RB.is_red_node rl)
                  then RB.move_red_right T1 else T1) in *;
       set (U2 := if negb (RB.is_red_node (RB.Node rz rl rr rc)) && negb (RB.is_red_node rl)
                  then RB.move_red_right U1 else U1) in *.
  all: rewrite (sim_right _ _ H2), (sim_value _ _ x H2).
  all: destruct (eq_b pcmp v (RB.value_of U2 x));
         [|apply sim_fix_up, sim_set_right, H2].
  all: destruct (RB.right_of U2) as [|y yl yr yc]; [apply sim_fix_up, H2|].
  all: destruct (sim_inv _ _ H2) as [[E1 E2]|(z & l2 & r2 & c2 & c2' & E1 & E2)];
         rewrite E1, E2; apply sim_fix_up; reflexivity.
Qed.

End Structure.

(** ** Deletion *)

(** The shapes [remove_recursive] and [remove_min] are called on, at black
    height [n]: a left-leaning Red node ([RedRoot]); a left-leaning Black
    node with a Red left child ([RedLeft]); a Black node with a Red right
    child, whose key is not above the removed value ([RedRight], made by
    [move_red_right]). *)
Inductive kind : Type := RedRoot | RedLeft | RedRight.

Ltac not_root := let C := fresh "C" in intros C; exfalso; exact (C eq_refl).

Section Deletion.
Context {K : Type} (pcmp : K -> K -> option comparison).
Hypothesis HP : partial_laws pcmp.
Local Abbreviation lt := (key_lt pcmp).
Local Abbreviation sorted := (StronglySorted (key_lt pcmp)).
Implicit Types (t l r u L R rl rr ll lr a b : @RB.tree K) (x y z w : K) (c : RB.color).

Definition pre (v : K) (k : kind) (n : nat) t : Prop :=
  match k with
  | RedRoot => RB.llrb n t /\ RB.is_red_node t = true
  | RedLeft =>
      RB.llrb n t /\ RB.is_red_node t = false /\ RB.is_red_node (RB.left_of t) = true
  | RedRight =>
      exists x l r n', t = RB.Node x l r RB.Black /\ n = S n' /\
        RB.llrb n' l /\ RB.is_red_node l = false /\ RB.llrb n' r /\
        RB.is_red_node r = true /\ pcmp v x <> Some Lt
  end.

(** What the call returns: a left-leaning tree of the same black height,
    Black unless the argument was Red. *)
Definition post (k : kind) (n : nat) u : Prop :=
  RB.llrb n u /\ (k <> RedRoot -> RB.is_red_node u = false).

(** Keys of a node up to its own, and from its own on. *)
Definition lkeys t : list K :=
  match t with RB.Leaf => [] | RB.Node y L _ _ => RB.elements L ++ [y] end.
Definition rkeys t : list K :=
  match t with RB.Leaf => [] | RB.Node y _ R _ => y :: RB.elements R end.

Lemma pre_node v k n t : pre v k n t -> exists x l r c, t = RB.Node x l r c.
Proof.
  destruct k; cbn [pre].
  - intros [_ H]. destruct t as [|x l r c]; [discriminate|eauto].
  - intros (_ & _ & H). destruct t as [|x l r c]; [discriminate|eauto].
  - intros (x & l & r & n' & -> & _). eauto.
Qed.

Lemma elements_not_nil t : t <> RB.Leaf -> RB.elements t <> [].
Proof.
  destruct t as [|x l r c]; [congruence|]. cbn. intros _ E.
  apply app_eq_nil in E as [_ E]. discriminate.
Qed.

Lemma size_eq t u : RB.elements t = RB.elements u -> RB.size t = RB.size u.
Proof. intros E. rewrite !size_elements, E. reflexivity. Qed.

Lemma lkeys_root x L R c : In x (lkeys (RB.Node x L R c)).
Proof. cbn [lkeys]. apply in_or_app. right. now left. Qed.

Lemma rkeys_root x L R c : In x (rkeys (RB.Node x L R c)).
Proof. now left. Qed.

(** [fix_up] below a Red node whose children are left-leaning and Black. *)
Lemma fix_up_red n z l r :
  RB.llrb n l -> RB.is_red_node l = false -> RB.llrb n r -> RB.is_red_node r = false ->
  RB.llrb n (RB.fix_up (RB.Node z l r RB.Red)).
Proof.
  intros Hl Hlr Hr Hrr. rewrite fix_up_id by (try assumption; intros H; congruence).
  llrb_solve.
Qed.

(** [fix_up] below a Black node whose children are left-leaning. *)
Lemma fix_up_black_llrb n z l r :
  RB.llrb n l -> RB.llrb n r -> RB.llrb (S n) (RB.fix_up (RB.Node z l r RB.Black)).
Proof.
  intros Hl Hr. destruct (RB.is_red_node r) eqn:Er.
  - destruct (is_red_true r Er) as (q & a & b & ->).
    apply llrb_red_inv in Hr as (Ha & Hb & Har & Hbr).
    destruct (RB.is_red_node l) eqn:El.
    + destruct (is_red_true l El) as (y & al & ar & ->).
      apply llrb_red_inv in Hl as (Hal & Har' & Halr & Harr).
      rewrite fix_up_flip. cbn [RB.flip]. llrb_solve.
    + rewrite fix_up_rot by assumption. llrb_solve.
  - rewrite fix_up_id by (try assumption; intros H; exact (llrb_red_left n l Hl H)).
    llrb_solve.
Qed.

Lemma fix_up_black_red n z l r :
  RB.llrb n l -> RB.llrb n r ->
  RB.is_red_node l = false \/ RB.is_red_node r = false ->
  RB.is_red_node (RB.fix_up (RB.Node z l r RB.Black)) = false.
Proof.
  intros Hl Hr Hlr. destruct (RB.is_red_node r) eqn:Er.
  - destruct (is_red_true r Er) as (q & a & b & ->).
    apply llrb_red_inv in Hr as (Ha & Hb & Har & Hbr).
    destruct Hlr as [El|]; [|discriminate].
    rewrite fix_up_rot by assumption. reflexivity.
  - rewrite fix_up_id by (try assumption; intros H; exact (llrb_red_left n l Hl H)).
    reflexivity.
Qed.

(** The step of the [Less] branch: after the optional [move_red_left], the
    left child is of one of the shapes, and [fix_up] of the node with any
    valid result in place of that child is valid. *)
Lemma lt_step v k n x l r c t1 :
  k <> RedRight -> pre v k n (RB.Node x l r c) -> l <> RB.Leaf ->
  t1 = (if negb (RB.is_red_node l) && negb (RB.is_red_node (RB.left_of l))
        then RB.move_red_left (RB.Node x l r c) else RB.Node x l r c) ->
  exists y L R c1 k' m, t1 = RB.Node y L R c1 /\ L <> RB.Leaf /\ k' <> RedRight /\
    pre v k' m L /\ RB.elements t1 = RB.elements (RB.Node x l r c) /\ In x (lkeys t1) /\
    forall l', post k' m l' -> post k n (RB.fix_up (RB.Node y l' R c1)).
Proof.
  intros Hk Hpre Hl Et1.
  assert (Ee : RB.elements t1 = RB.elements (RB.Node x l r c)).
  { subst t1. destruct (_ && _); [apply elements_move_red_left|reflexivity]. }
  destruct k; [| |congruence]; cbn [pre] in Hpre.
  - destruct Hpre as [Ht Hc]. destruct c; [|cbn in Hc; discriminate Hc].
    apply llrb_red_inv in Ht as (Hl' & Hr & Hlr & Hrr).
    destruct l as [|y ll lr lc]; [congruence|]. destruct lc; [cbn in Hlr; discriminate Hlr|].
    apply llrb_black_inv in Hl' as (n' & -> & Hll & Hlr' & Hlrr).
    cbn [RB.is_red_node RB.left_of negb andb] in Et1.
    destruct (RB.is_red_node ll) eqn:Ell; rewrite ?Ell in Et1; cbn [negb andb] in Et1.
    + subst t1. exists x, (RB.Node y ll lr RB.Black), r, RB.Red, RedLeft, (S n').
      split; [reflexivity|]. split; [discriminate|]. split; [discriminate|].
      split; [cbn [pre]; split; [llrb_solve|split; [reflexivity|exact Ell]]|].
      split; [reflexivity|]. split; [apply lkeys_root|].
      intros l' [Hl1 Hl2]. specialize (Hl2 ltac:(discriminate)).
      split; [apply fix_up_red; auto|not_root].
    + destruct r as [|z rl rr rc]; [inversion Hr|].
      destruct rc; [cbn in Hrr; discriminate Hrr|].
      apply llrb_black_inv in Hr as (n2 & [= <-] & Hrl & Hrr' & Hrrr).
      destruct (RB.is_red_node rl) eqn:Erl.
      * destruct (is_red_true rl Erl) as (w & a & b & ->).
        apply llrb_red_inv in Hrl as (Ha & Hb & Har & Hbr).
        rewrite move_red_left_2 in Et1. subst t1.
        exists w, (RB.Node x (RB.Node y ll lr RB.Red) a RB.Black), (RB.Node z b rr RB.Black),
          RB.Red, RedLeft, (S n').
        split; [reflexivity|]. split; [discriminate|]. split; [discriminate|].
        split; [cbn [pre]; split; [llrb_solve|split; reflexivity]|].
        split; [exact Ee|].
        split; [cbn [lkeys RB.elements]; apply in_or_app; left; apply in_or_app;
                right; now left|].
        intros l' [Hl1 Hl2]. specialize (Hl2 ltac:(discriminate)).
        split; [apply fix_up_red; auto; llrb_solve|not_root].
      * rewrite move_red_left_1 in Et1 by exact Erl. subst t1.
        exists x, (RB.Node y ll lr RB.Red), (RB.Node z rl rr RB.Red), RB.Black, RedRoot, n'.
        split; [reflexivity|]. split; [discriminate|]. split; [discriminate|].
        split; [cbn [pre]; split; [llrb_solve|reflexivity]|].
        split; [exact Ee|]. split; [apply lkeys_root|].
        intros l' [Hl1 _]. split; [apply fix_up_black_llrb; [exact Hl1|llrb_solve]|not_root].
  - destruct Hpre as (Ht & Hc & Hlc). destruct c; [cbn in Hc; discriminate Hc|].
    apply llrb_black_inv in Ht as (n' & -> & Hl' & Hr & Hrr).
    destruct l as [|y ll lr lc]; [congruence|].
    destruct lc; [|cbn in Hlc; discriminate Hlc].
    apply llrb_red_inv in Hl' as (Hll & Hlr & Hllr & Hlrr).
    cbn [RB.is_red_node RB.left_of negb andb] in Et1. subst t1.
    exists x, (RB.Node y ll lr RB.Red), r, RB.Black, RedRoot, n'.
    split; [reflexivity|]. split; [discriminate|]. split; [discriminate|].
    split; [cbn [pre]; split; [llrb_solve|reflexivity]|].
    split; [reflexivity|]. split; [apply lkeys_root|].
    intros l' [Hl1 _]. split; [apply fix_up_black_llrb; assumption|].
    intros _. apply (fix_up_black_red n'); auto.
Qed.

(** The step of the other branches: after the optional [rotate_right] and
    [move_red_right], the right child is of one of the shapes (and not of
    the third one when the node's key is [==] to [v]). *)
Lemma ge_step v k n x l r c t1 :
  pre v k n (RB.Node x l r c) -> sorted (RB.elements (RB.Node x l r c)) ->
  pcmp v x <> Some Lt ->
  t1 = (if RB.is_red_node l then RB.rotate_right (RB.Node x l r c) else RB.Node x l r c) ->
  RB.elements t1 = RB.elements (RB.Node x l r c) /\
  (RB.right_of t1 = RB.Leaf -> t1 = RB.Node x RB.Leaf RB.Leaf RB.Red /\ n = 0 /\ k = RedRoot) /\
  forall rz rl rr rc t2, RB.right_of t1 = RB.Node rz rl rr rc ->
    t2 = (if negb (RB.is_red_node (RB.Node rz rl rr rc)) && negb (RB.is_red_node rl)
          then RB.move_red_right t1 else t1) ->
    exists y L R c2 k' m, t2 = RB.Node y L R c2 /\ R <> RB.Leaf /\ pre v k' m R /\
      RB.elements t2 = RB.elements t1 /\ In x (rkeys t2) /\
      (eq_b pcmp v y = true -> k' <> RedRight) /\
      forall z r', post k' m r' -> post k n (RB.fix_up (RB.Node z L r' c2)).
Proof.
  intros Hpre Hs Hv Et1.
  assert (Ee1 : RB.elements t1 = RB.elements (RB.Node x l r c)).
  { subst t1. destruct (RB.is_red_node l); [apply elements_rotate_right|reflexivity]. }
  assert (Ee2 : forall rz rl rr rc t2,
             t2 = (if negb (RB.is_red_node (RB.Node rz rl rr rc)) && negb (RB.is_red_node rl)
                   then RB.move_red_right t1 else t1) -> RB.elements t2 = RB.elements t1).
  { intros * ->. destruct (_ && _); [apply elements_move_red_right|reflexivity]. }
  split; [exact Ee1|].
  destruct k; cbn [pre] in Hpre.
  - destruct Hpre as [Ht Hc]. destruct c; [|cbn in Hc; discriminate Hc].
    apply llrb_red_inv in Ht as (Hl & Hr & Hlr & Hrr).
    assert (E1 : t1 = RB.Node x l r RB.Red) by (rewrite Et1, Hlr; reflexivity).
    clear Et1. subst t1. split.
    { cbn [RB.right_of]. intros ->. inversion Hr; subst.
      rewrite (llrb_zero l Hl Hlr). repeat split. }
    intros rz rl rr rc t2 Er Et2. pose proof (Ee2 _ _ _ _ _ Et2) as Ee.
    cbn [RB.right_of] in Er. subst r.
    destruct rc; [cbn in Hrr; discriminate Hrr|].
    apply llrb_black_inv in Hr as (n' & -> & Hrl & Hrr' & Hrrr).
    destruct (RB.is_red_node rl) eqn:Erl; rewrite ?Erl in Et2;
      cbn [RB.is_red_node negb andb] in Et2.
    + subst t2. exists x, l, (RB.Node rz rl rr RB.Black), RB.Red, RedLeft, (S n').
      split; [reflexivity|]. split; [discriminate|].
      split; [cbn [pre]; split; [llrb_solve|split; [reflexivity|exact Erl]]|].
      split; [reflexivity|]. split; [apply rkeys_root|]. split; [intros _; discriminate|].
      intros z r' [Hr1 Hr2]. specialize (Hr2 ltac:(discriminate)).
      split; [apply fix_up_red; auto|not_root].
    + destruct l as [|y ll lr lc]; [inversion Hl|].
      destruct lc; [cbn in Hlr; discriminate Hlr|].
      apply llrb_black_inv in Hl as (n2 & [= <-] & Hll & Hlr' & Hlrr).
      destruct (RB.is_red_node ll) eqn:Ell.
      * destruct (is_red_true ll Ell) as (w & a & b & ->).
        apply llrb_red_inv in Hll as (Ha & Hb & Har & Hbr).
        rewrite move_red_right_2 in Et2. subst t2.
        exists y, (RB.Node w a b RB.Black), (RB.Node x lr (RB.Node rz rl rr RB.Red) RB.Black),
          RB.Red, RedRight, (S n').
        split; [reflexivity|]. split; [discriminate|].
        split.
        { cbn [pre]. exists x, lr, (RB.Node rz rl rr RB.Red), n'.
          split; [reflexivity|]. split; [reflexivity|]. split; [exact Hlr'|].
          split; [exact Hlrr|]. split; [llrb_solve|]. split; [reflexivity|exact Hv]. }
        split; [exact Ee|].
        split; [cbn [rkeys RB.elements]; right; apply in_or_app; right; now left|].
        split.
        { intros Ey. apply (eq_b_true HP) in Ey. subst v. exfalso. apply Hv.
          cbn [RB.elements] in Hs. apply sorted_app_inv in Hs as (_ & _ & F & _).
          rewrite Forall_forall in F. apply F. apply in_or_app. right. now left. }
        intros z r' [Hr1 Hr2]. specialize (Hr2 ltac:(discriminate)).
        split; [apply fix_up_red; auto; llrb_solve|not_root].
      * rewrite move_red_right_1 in Et2 by exact Ell. subst t2.
        exists x, (RB.Node y ll lr RB.Red), (RB.Node rz rl rr RB.Red), RB.Black, RedRoot, n'.
        split; [reflexivity|]. split; [discriminate|].
        split; [cbn [pre]; split; [llrb_solve|reflexivity]|].
        split; [exact Ee|]. split; [apply rkeys_root|]. split; [intros _; discriminate|].
        intros z r' [Hr1 _].
        split; [apply fix_up_black_llrb; [llrb_solve|exact Hr1]|not_root].
  - destruct Hpre as (Ht & Hc & Hlc). destruct c; [cbn in Hc; discriminate Hc|].
    apply llrb_black_inv in Ht as (n' & -> & Hl & Hr & Hrr).
    destruct l as [|y ll lr lc]; [cbn in Hlc; discriminate Hlc|].
    destruct lc; [|cbn in Hlc; discriminate Hlc].
    apply llrb_red_inv in Hl as (Hll & Hlr & Hllr & Hlrr).
    assert (E1 : t1 = RB.Node y ll (RB.Node x lr r RB.Red) RB.Black)
      by (rewrite Et1; reflexivity).
    clear Et1. subst t1. split; [intros H; cbn in H; discriminate H|].
    intros rz rl rr rc t2 Er Et2. pose proof (Ee2 _ _ _ _ _ Et2) as Ee.
    cbn [RB.right_of] in Er. injection Er as <- <- <- <-.
    cbn [RB.is_red_node negb andb] in Et2. subst t2.
    exists y, ll, (RB.Node x lr r RB.Red), RB.Black, RedRoot, n'.
    split; [reflexivity|]. split; [discriminate|].
    split; [cbn [pre]; split; [llrb_solve|reflexivity]|].
    split; [exact Ee|].
    split; [cbn [rkeys RB.elements]; right; apply in_or_app; right; now left|].
    split; [intros _; discriminate|].
    intros z r' [Hr1 _]. split; [apply fix_up_black_llrb; assumption|].
    intros _. apply (fix_up_black_red n'); auto.
  - destruct Hpre as (x' & l' & r' & n' & E & -> & Hl & Hlr & Hr & Hrr & _).
    symmetry in E. injection E as -> -> -> Ec. subst c.
    assert (E1 : t1 = RB.Node x l r RB.Black) by (rewrite Et1, Hlr; reflexivity).
    clear Et1. subst t1. split.
    { cbn [RB.right_of]. intros ->. cbn in Hrr. discriminate Hrr. }
    intros rz rl rr rc t2 Er Et2. pose proof (Ee2 _ _ _ _ _ Et2) as Ee.
    cbn [RB.right_of] in Er. subst r. destruct rc; [|cbn in Hrr; discriminate Hrr].
    cbn [RB.is_red_node negb andb] in Et2. subst t2.
    apply llrb_red_inv in Hr as (Hrl & Hrr' & Hrlr & Hrrr).
    exists x, l, (RB.Node rz rl rr RB.Red), RB.Black, RedRoot, n'.
    split; [reflexivity|]. split; [discriminate|].
    split; [cbn [pre]; split; [llrb_solve|reflexivity]|].
    split; [exact Ee|]. split; [apply rkeys_root|]. split; [intros _; discriminate|].
    intros z r' [Hr1 _]. split; [apply fix_up_black_llrb; assumption|].
    intros _. apply (fix_up_black_red n'); auto.
Qed.

(** Keys of the three branches. *)
Lemma lt_elems v x y L R :
  sorted (RB.elements L ++ y :: RB.elements R) -> In x (RB.elements L ++ [y]) -> lt v x ->
  remove_key pcmp v (RB.elements L ++ y :: RB.elements R) =
  remove_key pcmp v (RB.elements L) ++ y :: RB.elements R.
Proof.
  intros Hs Hin Hv. apply (remove_key_left HP); [exact Hs|].
  apply in_app_or in Hin as [Hin|[<-|[]]]; [|exact Hv].
  eapply (lt_trans HP); [exact Hv|].
  apply sorted_app_inv in Hs as (_ & _ & F & _). rewrite Forall_forall in F. auto.
Qed.

Lemma ge_elems v x y L R :
  sorted (RB.elements L ++ y :: RB.elements R) -> In x (y :: RB.elements R) ->
  pcmp v x <> Some Lt -> eq_b pcmp v y = false ->
  remove_key pcmp v (RB.elements L ++ y :: RB.elements R) =
  RB.elements L ++ y :: remove_key pcmp v (RB.elements R).
Proof.
  intros Hs Hin Hv Hy. apply sorted_app_inv in Hs as (_ & _ & F & F').
  unfold remove_key at 1. rewrite filter_app. cbn [filter]. rewrite Hy. cbn [negb].
  fold (remove_key pcmp v (RB.elements L)).
  rewrite (@remove_key_below K pcmp HP v y (RB.elements L)); [reflexivity| |exact F].
  intros Hvy. destruct Hin as [<-|Hin]; [contradiction|].
  apply Hv. eapply (lt_trans HP); [exact Hvy|]. rewrite Forall_forall in F'. auto.
Qed.

Lemma eq_elems v y L (ks : list K) fm rest :
  sorted (RB.elements L ++ y :: ks) -> eq_b pcmp v y = true -> ks = fm :: rest ->
  RB.elements L ++ fm :: rest = remove_key pcmp v (RB.elements L ++ y :: ks).
Proof.
  intros Hs Hvy ER.
  assert (Heq : pcmp v y = Some Eq).
  { unfold eq_b in Hvy. destruct (pcmp v y) as [[| |]|]; congruence. }
  rewrite (@remove_key_here K pcmp HP v (RB.elements L) y ks Hs Heq), ER. reflexivity.
Qed.

Lemma find_min_elements y yl yr c :
  RB.elements (RB.Node y yl yr c) =
  RB.find_min_from y yl :: tl (RB.elements (RB.Node y yl yr c)).
Proof.
  revert y yr c. induction yl as [|z zl IH zr _ zc]; intros y yr c; [reflexivity|].
  cbn [RB.elements RB.find_min_from] in *. specialize (IH z zr zc).
  rewrite IH. reflexivity.
Qed.

(** [remove_min] on a Red node or a Black node with a Red left child. *)
Lemma remove_min_ok v f k n t :
  k <> RedRight -> RB.size t <= f -> pre v k n t ->
  post k n (RB.remove_min f t) /\ RB.elements (RB.remove_min f t) = tl (RB.elements t).
Proof.
  revert k n t. induction f as [|f IH]; intros k n t Hk Hf Hpre;
    destruct (pre_node v k n t Hpre) as (x & l & r & c & ->).
  { cbn in Hf. lia. }
  destruct l as [|y ll lr lc].
  - destruct k; [| |congruence]; cbn [pre] in Hpre.
    + destruct Hpre as [Ht Hc]. destruct c; [|cbn in Hc; discriminate Hc].
      apply llrb_red_inv in Ht as (Hl & Hr & _ & Hrr). inversion Hl; subst.
      rewrite (llrb_zero r Hr Hrr). cbn [RB.remove_min RB.elements app tl].
      split; [split; [constructor|not_root]|reflexivity].
    + destruct Hpre as (_ & _ & H). cbn in H. discriminate H.
  - cbn [RB.remove_min].
    remember (if negb (RB.is_red_node (RB.Node y ll lr lc)) && negb (RB.is_red_node ll)
              then RB.move_red_left (RB.Node x (RB.Node y ll lr lc) r c)
              else RB.Node x (RB.Node y ll lr lc) r c) as t1 eqn:Et1.
    destruct (lt_step v k n x (RB.Node y ll lr lc) r c t1 Hk Hpre ltac:(discriminate) Et1)
      as (z & L & R & c1 & k' & m & -> & HL & Hk' & Hpre' & Ee & _ & Hframe).
    cbn [RB.set_left RB.left_of].
    assert (HfL : RB.size L <= f).
    { pose proof (size_eq _ _ Ee) as Esz. cbn [RB.size] in Esz, Hf |- *. lia. }
    destruct (IH k' m L Hk' HfL Hpre') as [Hpost Helts].
    split; [exact (Hframe _ Hpost)|].
    rewrite elements_fix_up, <- Ee. cbn [RB.elements]. rewrite Helts.
    destruct (RB.elements L) eqn:EL; [exfalso; exact (elements_not_nil L HL EL)|reflexivity].
Qed.

(** The code of [remove_recursive] when [value < node.value] does not hold. *)
Lemma remove_recursive_ge f x l r c v :
  pcmp v x <> Some Lt ->
  RB.remove_recursive pcmp (S f) (RB.Node x l r c) v =
  (let t1 := if RB.is_red_node l then RB.rotate_right (RB.Node x l r c)
             else RB.Node x l r c in
   match RB.right_of t1 with
   | RB.Leaf => if eq_b pcmp v (RB.value_of t1 x) then RB.Leaf else RB.fix_up t1
   | RB.Node _ rl _ _ as rt =>
       let t2 := if negb (RB.is_red_node rt) && negb (RB.is_red_node rl)
                 then RB.move_red_right t1 else t1 in
       if eq_b pcmp v (RB.value_of t2 x) then
         match RB.right_of t2 with
         | RB.Node y yl _ _ as r2 =>
             RB.fix_up (RB.set_right
                          (match t2 with
                           | RB.Node _ l2 _ c2 => RB.Node (RB.find_min_from y yl) l2 r2 c2
                           | RB.Leaf => RB.Leaf
                           end)
                          (RB.remove_min f r2))
         | RB.Leaf => RB.fix_up t2
         end
       else RB.fix_up (RB.set_right t2 (RB.remove_recursive pcmp f (RB.right_of t2) v))
   end).
Proof.
  intros Hv. cbn [RB.remove_recursive].
  destruct (pcmp v x) as [[| |]|]; [reflexivity|congruence|reflexivity|reflexivity].
Qed.

Lemma ge_case v f k n x l r c :
  (forall k n t, RB.size t <= f -> sorted (RB.elements t) -> pre v k n t ->
     post k n (RB.remove_recursive pcmp f t v) /\
     RB.elements (RB.remove_recursive pcmp f t v) = remove_key pcmp v (RB.elements t)) ->
  RB.size (RB.Node x l r c) <= S f -> sorted (RB.elements (RB.Node x l r c)) ->
  pre v k n (RB.Node x l r c) -> pcmp v x <> Some Lt ->
  post k n (RB.remove_recursive pcmp (S f) (RB.Node x l r c) v) /\
  RB.elements (RB.remove_recursive pcmp (S f) (RB.Node x l r c) v) =
    remove_key pcmp v (RB.elements (RB.Node x l r c)).
Proof.
  intros IH Hf Hs Hpre Hv. rewrite (remove_recursive_ge f x l r c v Hv). cbv zeta.
  remember (if RB.is_red_node l then RB.rotate_right (RB.Node x l r c)
            else RB.Node x l r c) as t1 eqn:Et1.
  destruct (ge_step v k n x l r c t1 Hpre Hs Hv Et1) as (Ee1 & Hleaf & Hstep).
  rewrite <- Ee1 in Hs |- *.
  destruct (RB.right_of t1) as [|rz rl rr rc] eqn:Er.
  - destruct (Hleaf eq_refl) as (-> & -> & ->). cbn [RB.value_of].
    destruct (eq_b pcmp v x) eqn:Evx.
    + split; [split; [constructor|not_root]|].
      unfold remove_key. cbn. rewrite Evx. reflexivity.
    + rewrite fix_up_id by (try reflexivity; discriminate).
      split; [split; [llrb_solve|not_root]|].
      unfold remove_key. cbn. rewrite Evx. reflexivity.
  - cbv beta iota.
    remember (if negb (RB.is_red_node (RB.Node rz rl rr rc)) && negb (RB.is_red_node rl)
              then RB.move_red_right t1 else t1) as t2 eqn:Et2.
    destruct (Hstep rz rl rr rc t2 eq_refl Et2)
      as (y & L & R & c2 & k' & m & -> & HR & Hpre' & Ee2 & Hin & Hneq & Hframe).
    rewrite <- Ee2 in Hs |- *.
    assert (HfR : RB.size R <= f).
    { assert (Esz : RB.size (RB.Node y L R c2) = RB.size (RB.Node x l r c))
        by (apply size_eq; congruence).
      cbn [RB.size] in Esz, Hf. lia. }
    cbn [RB.elements] in Hs.
    assert (HsR : sorted (RB.elements R)) by (apply sorted_app_inv in Hs; tauto).
    cbn [RB.value_of RB.right_of].
    destruct (eq_b pcmp v y) eqn:Evy.
    + destruct R as [|ry ryl ryr ryc]; [congruence|]. cbn [RB.set_right].
      destruct (remove_min_ok v f k' m (RB.Node ry ryl ryr ryc) (Hneq eq_refl) HfR Hpre')
        as [Hpost Helts].
      split; [exact (Hframe _ _ Hpost)|].
      rewrite elements_fix_up. cbn [RB.elements]. rewrite Helts.
      apply (eq_elems v y L _ _ _ Hs Evy). exact (find_min_elements ry ryl ryr ryc).
    + cbn [RB.set_right].
      destruct (IH k' m R HfR HsR Hpre') as [Hpost Helts].
      split; [exact (Hframe _ _ Hpost)|].
      rewrite elements_fix_up. cbn [RB.elements]. rewrite Helts.
      symmetry. exact (ge_elems v x y L R Hs Hin Hv Evy).
Qed.

(** [remove_recursive] on any of the shapes: a valid tree with the keys
    [==] to [v] removed. *)
Lemma remove_recursive_ok v f k n t :
  RB.size t <= f -> sorted (RB.elements t) -> pre v k n t ->
  post k n (RB.remove_recursive pcmp f t v) /\
  RB.elements (RB.remove_recursive pcmp f t v) = remove_key pcmp v (RB.elements t).
Proof.
  revert k n t. induction f as [|f IH]; intros k n t Hf Hs Hpre;
    destruct (pre_node v k n t Hpre) as (x & l & r & c & ->).
  { cbn in Hf. lia. }
  assert (Hv : pcmp v x = Some Lt \/ pcmp v x <> Some Lt)
    by (destruct (pcmp v x) as [[| |]|]; auto; right; discriminate).
  destruct Hv as [Hv|Hv].
  2: exact (ge_case v f k n x l r c IH Hf Hs Hpre Hv).
  cbn [RB.remove_recursive]. rewrite Hv.
  assert (Hk : k <> RedRight).
  { intros ->. destruct Hpre as (x' & l' & r' & n' & E & _ & _ & _ & _ & _ & Hv').
    injection E as <- _ _ _. contradiction. }
  destruct l as [|y ll lr lc].
  - destruct k; [| |congruence]; cbn [pre] in Hpre.
    + destruct Hpre as [Ht Hc]. destruct c; [|cbn in Hc; discriminate Hc].
      apply llrb_red_inv in Ht as (Hl & Hr & Hlr & Hrr).
      split; [split; [apply fix_up_red; auto|not_root]|].
      rewrite elements_fix_up.
      exact (eq_sym (@remove_key_left K pcmp HP v [] x (RB.elements r) Hs Hv)).
    + destruct Hpre as (_ & _ & H). cbn in H. discriminate H.
  - remember (if negb (RB.is_red_node (RB.Node y ll lr lc)) && negb (RB.is_red_node ll)
              then RB.move_red_left (RB.Node x (RB.Node y ll lr lc) r c)
              else RB.Node x (RB.Node y ll lr lc) r c) as t1 eqn:Et1.
    destruct (lt_step v k n x (RB.Node y ll lr lc) r c t1 Hk Hpre ltac:(discriminate) Et1)
      as (z & L & R & c1 & k' & m & -> & HL & Hk' & Hpre' & Ee & Hin & Hframe).
    cbn [RB.set_left RB.left_of].
    assert (HfL : RB.size L <= f).
    { pose proof (size_eq _ _ Ee) as Esz. cbn [RB.size] in Esz, Hf. lia. }
    rewrite <- Ee in Hs. cbn [RB.elements] in Hs.
    assert (HsL : sorted (RB.elements L)) by (apply sorted_app_inv in Hs; tauto).
    destruct (IH k' m L HfL HsL Hpre') as [Hpost Helts].
    split; [exact (Hframe _ Hpost)|].
    rewrite elements_fix_up, <- Ee. cbn [RB.elements]. rewrite Helts.
    symmetry. exact (lt_elems v x z L R Hs Hin Hv).
Qed.

(** [remove] from a non-empty valid tree: [remove_recursive], then the
    root is blackened. *)
Lemma remove_root_ok v n t :
  RB.llrb n t -> RB.is_red_node t = false -> sorted (RB.elements t) -> t <> RB.Leaf ->
  (exists m, RB.llrb m (RB.blacken (RB.remove_recursive pcmp (RB.size t) t v))) /\
  RB.is_red_node (RB.blacken (RB.remove_recursive pcmp (RB.size t) t v)) = false /\
  RB.elements (RB.blacken (RB.remove_recursive pcmp (RB.size t) t v)) =
    remove_key pcmp v (RB.elements t).
Proof.
  intros Ht Hc Hs Hne. destruct t as [|x l r c]; [congruence|].
  destruct c; [cbn in Hc; discriminate Hc|].
  pose proof Ht as Ht'. apply llrb_black_inv in Ht' as (n' & -> & Hl & Hr & Hrr).
  destruct (RB.is_red_node l) eqn:El.
  - destruct (remove_recursive_ok v _ RedLeft (S n') _ (le_n _) Hs) as [[Hpost _] Helts].
    { cbn [pre]. repeat split; auto. }
    destruct (llrb_blacken _ _ Hpost) as (m & Hm & Hmc).
    split; [eauto|]. split; [exact Hmc|]. rewrite elements_blacken. exact Helts.
  - assert (Hsim : sim (RB.Node x l r RB.Black) (RB.Node x l r RB.Red)) by reflexivity.
    pose proof (sim_remove_recursive pcmp (RB.size (RB.Node x l r RB.Black)) v _ _ Hsim)
      as Hs'.
    unfold sim in Hs'. rewrite Hs'.
    destruct (remove_recursive_ok v (RB.size (RB.Node x l r RB.Black)) RedRoot n'
                (RB.Node x l r RB.Red) (le_n _) Hs) as [[Hpost _] Helts].
    { cbn [pre]. split; [llrb_solve|reflexivity]. }
    destruct (llrb_blacken _ _ Hpost) as (m & Hm & Hmc).
    split; [eauto|]. split; [exact Hmc|]. rewrite elements_blacken, Helts. reflexivity.
Qed.

End Deletion.


(** ** Keys, caches and the invariant of a reachable tree *)
Section Keys.
Context {K : Type} (pcmp : K -> K -> option comparison).
Hypothesis HP : partial_laws pcmp.
Local Abbreviation lt := (key_lt pcmp).
Local Abbreviation sorted := (StronglySorted (key_lt pcmp)).
Local Abbreviation shape := RBLoops.shape.
Implicit Types (t l r : @RB.tree K) (s : @RB.rbt K) (x : K) (c : RB.color).

(** [insert_recursive] walks as the binary search tree's [insert]; the
    rebalancing keeps the key sequence. *)
Lemma insert_recursive_elements t v :
  RB.elements (RB.insert_recursive pcmp t v) =
  BST.elements (BST.insert_at pcmp (shape t) v).
Proof.
  induction t as [|x l IHl r IHr c]; cbn [RB.insert_recursive shape BST.insert_at]; auto.
  destruct (pcmp v x) as [[| |]|]; cbn [BST.elements RB.elements];
    rewrite ?elements_balance; cbn [RB.elements];
    rewrite ?IHl, ?IHr, ?RBLoops.shape_elements_rb; auto.
Qed.

Lemma contains_shape_rb t v :
  RB.contains_at pcmp t v = BST.contains_at pcmp (shape t) v.
Proof.
  induction t as [|x l IHl r IHr c]; cbn; auto.
  destruct (pcmp v x) as [[| |]|]; auto.
Qed.

Lemma refind_min_shape_rb t : RB.refind_min t = BST.refind_min (shape t).
Proof. induction t as [|x l IHl r IHr c]; cbn; auto. destruct l; auto. Qed.

Lemma refind_max_shape_rb t : RB.refind_max t = BST.refind_max (shape t).
Proof. induction t as [|x l IHl r IHr c]; cbn; auto. destruct r; auto. Qed.

Lemma refind_min_elements_rb t : RB.refind_min t = hd_error (RB.elements t).
Proof.
  rewrite refind_min_shape_rb, BSTProofs.refind_min_spec, RBLoops.shape_elements_rb.
  reflexivity.
Qed.

Lemma refind_max_elements_rb t : RB.refind_max t = last_error (RB.elements t).
Proof.
  rewrite refind_max_shape_rb, BSTProofs.refind_max_spec, RBLoops.shape_elements_rb.
  reflexivity.
Qed.

(** [balance] leaves a left-leaning node alone. *)
Lemma balance_id x l r c :
  RB.is_red_node r = false ->
  RB.is_red_node l = false \/ RB.is_red_node (RB.left_of l) = false ->
  RB.balance (RB.Node x l r c) = RB.Node x l r c.
Proof.
  intros Hr Hl. unfold RB.balance. cbn [RB.left_of RB.right_of]. rewrite Hr.
  destruct Hl as [Hl|Hl];
    repeat (cbn [andb RB.left_of RB.right_of]; rewrite ?Hr, ?Hl, ?andb_false_r);
    reflexivity.
Qed.

Lemma llrb_left_ok n t :
  RB.llrb n t -> RB.is_red_node t = false \/ RB.is_red_node (RB.left_of t) = false.
Proof.
  intros H. destruct (RB.is_red_node t) eqn:E; [right|left; reflexivity].
  exact (llrb_red_left n t H E).
Qed.

(** On a sorted left-leaning tree, inserting a stored key changes nothing. *)
Lemma insert_recursive_same n t v :
  RB.llrb n t -> sorted (RB.elements t) -> In v (RB.elements t) ->
  RB.insert_recursive pcmp t v = t.
Proof.
  induction 1 as [|n x l r Hl IHl Hr IHr Hrr|n x l r Hl IHl Hr IHr Hlr Hrr];
    cbn [RB.elements]; [intros _ []|..];
  intros Hs Hin; pose proof (sorted_app_inv _ _ _ Hs) as (Sl & Sr & Fl & Fr);
  rewrite Forall_forall in Fl, Fr; cbn [RB.insert_recursive];
  destruct (pcmp v x) as [[| |]|] eqn:E; auto.
  all: first
    [ rewrite IHl; [apply balance_id; eauto using llrb_left_ok|auto|];
      apply in_app_or in Hin as [H|[H|H]]; auto; exfalso;
      [subst; exact (lt_irrefl HP E)
      |apply (lt_irrefl HP (a:=v)); apply (lt_trans HP) with x; auto]
    | apply (gt_lt HP) in E; rewrite IHr;
      [apply balance_id; eauto using llrb_left_ok|auto|];
      apply in_app_or in Hin as [H|[H|H]]; auto; exfalso;
      [apply (lt_irrefl HP (a:=v)); apply (lt_trans HP) with x; auto
      |subst; exact (lt_irrefl HP E)] ].
Qed.

(** The binary search tree with the same nodes and caches. *)
Definition to_bst s : @BST.bst K :=
  BST.mk_bst (shape s.(RB.root)) s.(RB.min_value) s.(RB.max_value).

(** Invariant of a Red-Black tree reachable from [new()]: left-leaning
    Red-Black structure with a Black root, sorted keys, exact caches. *)
Definition inv s : Prop :=
  (exists n, RB.llrb n s.(RB.root)) /\ RB.is_red_node s.(RB.root) = false /\
  sorted (RB.elements s.(RB.root)) /\
  s.(RB.min_value) = hd_error (RB.elements s.(RB.root)) /\
  s.(RB.max_value) = last_error (RB.elements s.(RB.root)).

Lemma inv_to_bst s : inv s -> BSTProofs.inv pcmp (to_bst s).
Proof.
  destruct s as [t mn mx]. unfold inv, to_bst, BSTProofs.inv. cbn.
  rewrite !RBLoops.shape_elements_rb. tauto.
Qed.

(** [insert] updates the caches as the binary search tree's [insert]. *)
Lemma insert_to_bst s v :
  (RB.insert pcmp s v).(RB.min_value) = (BST.insert pcmp (to_bst s) v).(BST.min_value) /\
  (RB.insert pcmp s v).(RB.max_value) = (BST.insert pcmp (to_bst s) v).(BST.max_value) /\
  RB.elements (RB.insert pcmp s v).(RB.root) =
    BST.elements (BST.insert pcmp (to_bst s) v).(BST.root).
Proof.
  destruct s as [t [a|] [b|]]; unfold RB.insert, BST.insert, to_bst; cbn;
    rewrite ?elements_blacken, ?insert_recursive_elements; auto.
Qed.

Lemma root_insert s v :
  (RB.insert pcmp s v).(RB.root) = RB.blacken (RB.insert_recursive pcmp s.(RB.root) v).
Proof. destruct s as [t [a|] [b|]]; reflexivity. Qed.

Lemma rb_inv_new : inv (@RB.new K).
Proof.
  unfold inv; cbn. split; [exists 0; constructor|]. repeat split. constructor.
Qed.

Lemma rb_inv_insert s v : inv s -> inv (RB.insert pcmp s v).
Proof.
  intros Hi. pose proof (BSTProofs.inv_insert pcmp HP (to_bst s) v (inv_to_bst s Hi)) as Hb.
  destruct (insert_to_bst s v) as (E1 & E2 & E3).
  destruct Hi as ((n & Hn) & Hc & _).
  unfold BSTProofs.inv in Hb. rewrite <- E1, <- E2, <- E3 in Hb.
  unfold inv. rewrite root_insert.
  destruct (llrb_blacken n _ ((proj1 (insert_recursive_llrb pcmp v n _ Hn)) Hc))
    as (m & Hm & Hmc).
  split; [eauto|]. split; [exact Hmc|]. rewrite <- root_insert. exact Hb.
Qed.

Lemma remove_node s v :
  s.(RB.root) <> RB.Leaf ->
  RB.remove pcmp s v =
  let u := RB.blacken (RB.remove_recursive pcmp (RB.size s.(RB.root)) s.(RB.root) v) in
  RB.mk_rbt u (RB.refind_min u) (RB.refind_max u).
Proof. destruct s as [[|x l r c] mn mx]; cbn; [congruence|reflexivity]. Qed.

Lemma rb_inv_remove s v : inv s -> inv (RB.remove pcmp s v).
Proof.
  intros ((n & Hn) & Hc & Hs & Hmn & Hmx).
  destruct (s.(RB.root)) eqn:Et.
  { destruct s as [t mn mx]; cbn in Et; subst t; cbn.
    split; [eauto|]. cbn in Hmn, Hmx. repeat split; auto. }
  rewrite <- Et in Hn, Hc, Hs.
  assert (Hne : s.(RB.root) <> RB.Leaf) by (rewrite Et; discriminate).
  rewrite (remove_node s v Hne). unfold inv. cbn [RB.root RB.min_value RB.max_value].
  destruct (remove_root_ok pcmp HP v n _ Hn Hc Hs Hne) as (Hm & Hmc & He).
  split; [exact Hm|]. split; [exact Hmc|]. split.
  - rewrite He. now apply remove_key_sublist_sorted.
  - split; [apply refind_min_elements_rb|apply refind_max_elements_rb].
Qed.

Lemma rb_inv_run ops : inv (RB.run pcmp ops).
Proof.
  unfold RB.run. generalize rb_inv_new. generalize (@RB.new K).
  induction ops as [|o ops IH]; cbn [fold_left]; auto.
  intros s Hs. apply IH. destruct o; cbn [RB.apply_op]; auto using rb_inv_insert, rb_inv_remove.
Qed.

(** Inserting a stored key changes nothing, caches included. *)
Lemma rb_insert_same s v : inv s -> In v (RB.elements s.(RB.root)) -> RB.insert pcmp s v = s.
Proof.
  intros Hi Hin. pose proof (BSTProofs.insert_same pcmp HP (to_bst s) v (inv_to_bst s Hi))
    as Hb.
  unfold to_bst in Hb. cbn [BST.root] in Hb. rewrite RBLoops.shape_elements_rb in Hb.
  specialize (Hb Hin).
  destruct Hi as ((n & Hn) & Hc & Hs & _).
  destruct s as [t mn mx]. cbn [RB.root] in *.
  assert (Ht : RB.blacken (RB.insert_recursive pcmp t v) = t).
  { rewrite (insert_recursive_same n t v Hn Hs Hin).
    destruct t as [|x l r [|]]; [contradiction|discriminate|reflexivity]. }
  destruct mn as [a|], mx as [b|]; unfold BST.insert, RB.insert in *; cbn in Hb |- *;
    rewrite Ht; injection Hb; intros; congruence.
Qed.

End Keys.
End RBProofs.

(** ** No operation panics on a reachable state *)
Module CheckedProofs.
Local Unset Implicit Arguments.

Section Caches.
Context {A : Type}.

(** Both caches set or both unset: the arms of the cache update that are
    not [unreachable!()]. *)
Definition caches_ok (mn mx : option A) : Prop :=
  match mn, mx with
  | None, None | Some _, Some _ => True
  | _, _ => False
  end.

End Caches.

Section BSTPanics.
Context {K : Type} (pcmp : K -> K -> option comparison).
Implicit Types (t l r u : @BST.tree K) (s : @BST.bst K).

Lemma bst_remove_at_total t v :
  Checked.bst_remove_at pcmp t v = Some (BST.remove_at pcmp t v).
Proof.
  induction t as [|x l IHl r IHr]; cbn; auto.
  destruct (pcmp v x) as [[| |]|]; rewrite ?IHl, ?IHr; auto.
  destruct l as [|? ? ?], r as [|rx rl rr]; auto.
  destruct (BSTProofs.pass_spec (BST.Node rx rl rr)) as (r' & m & E & _); [discriminate|].
  now rewrite E.
Qed.

Lemma bst_refind_caches t : caches_ok (BST.refind_min t) (BST.refind_max t).
Proof.
  assert (Hmin : forall u, BST.refind_min u = None -> u = BST.Leaf).
  { induction u as [|x l IHl r _]; intros H; [reflexivity|].
    destruct l as [|y ll lr]; [discriminate H|]. specialize (IHl H). discriminate IHl. }
  assert (Hmax : forall u, BST.refind_max u = None -> u = BST.Leaf).
  { induction u as [|x l _ r IHr]; intros H; [reflexivity|].
    destruct r as [|y rl rr]; [discriminate H|]. specialize (IHr H). discriminate IHr. }
  destruct (BST.refind_min t) eqn:E1, (BST.refind_max t) eqn:E2; cbn; auto.
  - apply Hmax in E2. subst. discriminate E1.
  - apply Hmin in E1. subst. discriminate E2.
Qed.

Lemma bst_caches_run ops :
  caches_ok (BST.run pcmp ops).(BST.min_value) (BST.run pcmp ops).(BST.max_value).
Proof.
  unfold BST.run. assert (H : caches_ok (@BST.new K).(BST.min_value) (@BST.new K).(BST.max_value))
    by exact I.
  revert H. generalize (@BST.new K).
  induction ops as [|[v|v] ops IH]; cbn [fold_left]; auto; intros s Hs; apply IH.
  - destruct s as [t [a|] [b|]]; cbn in Hs |- *; try contradiction;
      [destruct (lt_b pcmp v a), (gt_b pcmp v b)|]; exact I.
  - apply bst_refind_caches.
Qed.

Lemma bst_ops_total s v :
  caches_ok s.(BST.min_value) s.(BST.max_value) -> Checked.bst_total pcmp s v.
Proof.
  intros Hc. unfold Checked.bst_total. repeat split.
  - destruct s as [t [a|] [b|]]; cbn in Hc; try contradiction; reflexivity.
  - unfold Checked.bst_remove. now rewrite bst_remove_at_total.
  - unfold BST.height_checked. destruct (BST.root s) as [|x l r] eqn:E; [discriminate|].
    rewrite <- E, BSTLoops.height_tree by (rewrite E; discriminate). discriminate.
  - unfold BST.in_order_checked. now rewrite BSTLoops.in_order_tree.
  - unfold BST.pre_order_checked. now rewrite BSTLoops.pre_order_tree.
  - unfold BST.post_order_checked. now rewrite BSTLoops.post_order_tree.
  - destruct (BSTLoops.level_order_tree (BST.root s)) as [r Hr].
    assert (E : BST.level_order_checked s = Some r).
    { rewrite <- Hr. unfold BST.level_order_checked. destruct (BST.root s); reflexivity. }
    congruence.
Qed.

End BSTPanics.

Section AVLPanics.
Context {K : Type} (pcmp : K -> K -> option comparison).
Implicit Types (t l r : @AVL.tree K) (s : @AVL.avl K).

(** The [unwrap]s of [rebalance] and of its rotations all find a child: a
    subtree whose stored height exceeds its sibling's is not [None]. *)
Lemma avl_rebalance_total t : Checked.rebalance t = Some (AVL.rebalance t).
Proof.
  unfold Checked.rebalance, AVL.rebalance.
  destruct t as [|x l r h]; [reflexivity|]. cbn [AVL.balance_factor AVL.left_of AVL.right_of].
  destruct (1 <? _)%Z eqn:E1.
  - apply Z.ltb_lt in E1. destruct l as [|y a b hy]; [cbn in E1; lia|].
    destruct (0 <=? _)%Z eqn:E2; [reflexivity|].
    apply Z.leb_gt in E2. cbn [AVL.balance_factor] in E2.
    destruct b as [|z c d hz]; [cbn in E2; lia|]. reflexivity.
  - destruct (_ <? -1)%Z eqn:E3; [|reflexivity].
    apply Z.ltb_lt in E3. destruct r as [|y a b hy]; [cbn in E3; lia|].
    destruct (_ <=? 0)%Z eqn:E2; [reflexivity|].
    apply Z.leb_gt in E2. cbn [AVL.balance_factor] in E2.
    destruct a as [|z c d hz]; [cbn in E2; lia|]. reflexivity.
Qed.

Lemma avl_insert_rec_total t v :
  Checked.insert_rec pcmp t v = Some (AVL.insert_rec pcmp t v).
Proof.
  induction t as [|x l IHl r IHr h]; cbn; auto.
  destruct (pcmp v x) as [[| |]|]; rewrite ?IHl, ?IHr, ?avl_rebalance_total; auto.
Qed.

Lemma avl_detach_min_total x l r h :
  Checked.detach_min x l r h = Some (AVL.detach_min x l r h).
Proof.
  revert x r h. induction l as [|lx ll IH lr _ lh]; intros x r h; [reflexivity|].
  cbn [Checked.detach_min AVL.detach_min]. rewrite IH.
  destruct (AVL.detach_min lx ll lr lh) as [m l']. cbn [fst snd].
  now rewrite avl_rebalance_total.
Qed.

Lemma avl_remove_node_total t v :
  Checked.remove_node pcmp t v = Some (AVL.remove_node pcmp t v).
Proof.
  induction t as [|x l IHl r IHr h]; cbn; auto.
  destruct (pcmp v x) as [[| |]|]; rewrite ?IHl, ?IHr, ?avl_rebalance_total; auto.
  destruct l as [|? ? ? ?], r as [|rx rl rr rh]; auto.
  rewrite avl_detach_min_total. destruct (AVL.detach_min rx rl rr rh) as [m r'].
  cbn [fst snd]. now rewrite avl_rebalance_total.
Qed.

Lemma avl_ops_total s v : Checked.avl_total pcmp s v.
Proof.
  unfold Checked.avl_total. repeat split.
  - unfold Checked.avl_insert. now rewrite avl_insert_rec_total.
  - unfold Checked.avl_remove. now rewrite avl_remove_node_total.
  - now rewrite AVLLoops.height_depth.
  - now rewrite AVLLoops.in_order_elements.
  - now rewrite AVLLoops.pre_order_elems.
  - now rewrite AVLLoops.post_order_elems.
  - destruct (AVLLoops.level_order_some s) as [r Hr]. congruence.
Qed.

End AVLPanics.

Section RBPanics.
Context {K : Type} (pcmp : K -> K -> option comparison).
Implicit Types (t l r u : @RB.tree K) (s : @RB.rbt K).

(** Each rotation is done only when the child it promotes is Red, hence
    present. *)
Lemma rb_rotate_left_total t :
  RB.is_red_node (RB.right_of t) = true -> Checked.rotate_left t = Some (RB.rotate_left t).
Proof. destruct t as [|x a [|y b c cy] cx]; cbn; congruence. Qed.

Lemma rb_rotate_right_total t :
  RB.is_red_node (RB.left_of t) = true -> Checked.rotate_right t = Some (RB.rotate_right t).
Proof. destruct t as [|y [|x a b cx] c cy]; cbn; congruence. Qed.

Lemma rb_balance_total t : Checked.balance t = Some (RB.balance t).
Proof.
  unfold Checked.balance, RB.balance.
  destruct (RB.is_red_node (RB.right_of t) && negb (RB.is_red_node (RB.left_of t))) eqn:E1.
  - apply andb_prop in E1 as [E1 _]. rewrite rb_rotate_left_total by exact E1.
    destruct (RB.is_red_node (RB.left_of (RB.rotate_left t)) && _) eqn:E2; [|reflexivity].
    apply andb_prop in E2 as [E2 _]. now rewrite rb_rotate_right_total by exact E2.
  - destruct (RB.is_red_node (RB.left_of t) && _) eqn:E2; [|reflexivity].
    apply andb_prop in E2 as [E2 _]. now rewrite rb_rotate_right_total by exact E2.
Qed.

Lemma rb_fix_up_total t : Checked.fix_up t = Some (RB.fix_up t).
Proof.
  unfold Checked.fix_up, RB.fix_up.
  destruct (RB.is_red_node (RB.right_of t)) eqn:E1.
  - rewrite rb_rotate_left_total by exact E1.
    destruct (RB.is_red_node (RB.left_of (RB.rotate_left t)) && _) eqn:E2; [|reflexivity].
    apply andb_prop in E2 as [E2 _]. now rewrite rb_rotate_right_total by exact E2.
  - destruct (RB.is_red_node (RB.left_of t) && _) eqn:E2; [|reflexivity].
    apply andb_prop in E2 as [E2 _]. now rewrite rb_rotate_right_total by exact E2.
Qed.

Lemma rb_move_red_left_total t : Checked.move_red_left t = Some (RB.move_red_left t).
Proof.
  unfold Checked.move_red_left, RB.move_red_left.
  destruct (RB.is_red_node (RB.left_of (RB.right_of (RB.flip_colors t)))) eqn:E;
    [|reflexivity].
  destruct (RB.flip_colors t) as [|x l r c]; [discriminate E|].
  cbn [RB.right_of] in E. rewrite rb_rotate_right_total by exact E.
  destruct r as [|y [|z a b cz] d cy]; [discriminate|discriminate|]. reflexivity.
Qed.

Lemma rb_move_red_right_total t : Checked.move_red_right t = Some (RB.move_red_right t).
Proof.
  unfold Checked.move_red_right, RB.move_red_right.
  destruct (RB.is_red_node (RB.left_of (RB.left_of (RB.flip_colors t)))) eqn:E;
    [|reflexivity].
  destruct (RB.flip_colors t) as [|x [|y a b cy] r c]; [discriminate|discriminate|].
  reflexivity.
Qed.

Lemma rb_insert_recursive_total t v :
  Checked.insert_recursive pcmp t v = Some (RB.insert_recursive pcmp t v).
Proof.
  induction t as [|x l IHl r IHr c]; cbn; auto.
  destruct (pcmp v x) as [[| |]|]; rewrite ?IHl, ?IHr, ?rb_balance_total; auto.
Qed.

(** Sizes: the restructurings keep the number of nodes. *)
Lemma rb_size_keep t u : RB.elements u = RB.elements t -> RB.size u = RB.size t.
Proof. intros E. now rewrite !RBProofs.size_elements, E. Qed.

Lemma rb_size_left t : t <> RB.Leaf -> RB.size (RB.left_of t) < RB.size t.
Proof. destruct t; cbn; [congruence|lia]. Qed.

Lemma rb_size_right t : t <> RB.Leaf -> RB.size (RB.right_of t) < RB.size t.
Proof. destruct t; cbn; [congruence|lia]. Qed.

Lemma rb_size_pos t : 0 < RB.size t -> t <> RB.Leaf.
Proof. destruct t; cbn; [lia|discriminate]. Qed.

Lemma rb_remove_min_total f t :
  RB.size t <= f -> Checked.remove_min f t = Some (RB.remove_min f t).
Proof.
  revert t. induction f as [|f IH]; intros t Hf.
  { destruct t; cbn in Hf |- *; [reflexivity|lia]. }
  destruct t as [|x [|y ll lr cl] r c]; [reflexivity|reflexivity|].
  cbn [Checked.remove_min RB.remove_min].
  set (t := RB.Node x (RB.Node y ll lr cl) r c).
  assert (Ht1 : forall t1, RB.elements t1 = RB.elements t ->
                RB.size (RB.left_of t1) <= f).
  { intros t1 E. pose proof (rb_size_keep _ _ E) as Es.
    assert (Hst : RB.size t <= S f) by exact Hf.
    assert (0 < RB.size t1) by (rewrite Es; unfold t; cbn; lia).
    pose proof (rb_size_left t1 (rb_size_pos _ H)). lia. }
  destruct (_ && _).
  - rewrite rb_move_red_left_total, IH, rb_fix_up_total
      by (apply Ht1, RBProofs.elements_move_red_left). reflexivity.
  - rewrite IH, rb_fix_up_total by (apply Ht1; reflexivity). reflexivity.
Qed.

Lemma rb_move_red_right_node t :
  RB.right_of t <> RB.Leaf -> RB.right_of (RB.move_red_right t) <> RB.Leaf.
Proof.
  unfold RB.move_red_right. destruct t as [|x l r c]; cbn; [congruence|].
  intros Hr. destruct (RB.is_red_node _); [|destruct r; cbn; congruence].
  destruct l as [|y a b cy]; cbn; [destruct r; cbn; congruence|discriminate].
Qed.

Lemma rb_remove_recursive_total f t v :
  RB.size t <= f -> Checked.remove_recursive pcmp f t v = Some (RB.remove_recursive pcmp f t v).
Proof.
  revert t. induction f as [|f IH]; intros t Hf.
  { destruct t; cbn in Hf |- *; [reflexivity|lia]. }
  destruct t as [|x l r c]; [reflexivity|].
  cbn [Checked.remove_recursive RB.remove_recursive].
  set (t := RB.Node x l r c).
  assert (Hsub : forall t1, RB.elements t1 = RB.elements t ->
                 RB.size (RB.left_of t1) <= f /\ RB.size (RB.right_of t1) <= f).
  { intros t1 E. pose proof (rb_size_keep _ _ E) as Es.
    assert (Hst : RB.size t <= S f) by exact Hf.
    assert (0 < RB.size t1) by (rewrite Es; unfold t; cbn; lia).
    pose proof (rb_size_left t1 (rb_size_pos _ H)).
    pose proof (rb_size_right t1 (rb_size_pos _ H)). lia. }
  destruct (pcmp v x) as [[| |]|].
  2:{ destruct l as [|y ll lr cl]; [apply rb_fix_up_total|].
      destruct (_ && _).
      - rewrite rb_move_red_left_total, IH, rb_fix_up_total
          by (apply Hsub, RBProofs.elements_move_red_left). reflexivity.
      - rewrite IH, rb_fix_up_total by (apply Hsub; reflexivity). reflexivity. }
  all: assert (Ht1 : (if RB.is_red_node l then Checked.rotate_right t else Some t) =
                     Some (if RB.is_red_node l then RB.rotate_right t else t))
         by (destruct (RB.is_red_node l) eqn:El; auto; now apply rb_rotate_right_total);
    rewrite Ht1;
    assert (E1 : RB.elements (if RB.is_red_node l then RB.rotate_right t else t) =
                 RB.elements t)
      by (destruct (RB.is_red_node l); auto using RBProofs.elements_rotate_right);
    clear Ht1;
    remember (if RB.is_red_node l then RB.rotate_right t else t) as t1 eqn:Et1;
    clear Et1;
    (destruct (RB.right_of t1) as [|y rl rr cr] eqn:Er;
     [destruct (eq_b pcmp v (RB.value_of t1 x)); [reflexivity|apply rb_fix_up_total]|]);
    (assert (Ht2 : exists t2,
               (if negb (RB.is_red_node (RB.Node y rl rr cr)) && negb (RB.is_red_node rl)
                then Checked.move_red_right t1 else Some t1) = Some t2 /\
               (if negb (RB.is_red_node (RB.Node y rl rr cr)) && negb (RB.is_red_node rl)
                then RB.move_red_right t1 else t1) = t2 /\
               RB.elements t2 = RB.elements t /\ RB.right_of t2 <> RB.Leaf)
      by (destruct (_ && _);
          [eexists; split; [apply rb_move_red_right_total|split; [reflexivity|split]];
           [rewrite RBProofs.elements_move_red_right; exact E1
           |apply rb_move_red_right_node; rewrite Er; discriminate]
          |eexists; split; [reflexivity|split; [reflexivity|split; [exact E1|rewrite Er; discriminate]]]]));
    destruct Ht2 as (t2 & Ec & Ep & E2 & Hr2); rewrite Ec, Ep;
    destruct (Hsub t2 E2) as [_ Hs2];
    (destruct (eq_b pcmp v (RB.value_of t2 x));
     [destruct (RB.right_of t2) as [|z zl zr cz] eqn:Er2; [congruence|];
      cbn [Checked.find_min]; rewrite rb_remove_min_total by exact Hs2;
      destruct t2 as [|w l2 r2 c2]; [discriminate|]; cbn [RB.right_of] in Er2; subst r2;
      cbn [RB.set_right]; apply rb_fix_up_total
     |rewrite IH, rb_fix_up_total by exact Hs2; reflexivity]).
Qed.

Lemma rb_refind_caches t : caches_ok (RB.refind_min t) (RB.refind_max t).
Proof.
  assert (Hmin : forall u, RB.refind_min u = None -> u = RB.Leaf).
  { induction u as [|x l IHl r _ c]; intros H; [reflexivity|].
    destruct l as [|y ll lr cl]; [discriminate H|]. specialize (IHl H). discriminate IHl. }
  assert (Hmax : forall u, RB.refind_max u = None -> u = RB.Leaf).
  { induction u as [|x l _ r IHr c]; intros H; [reflexivity|].
    destruct r as [|y rl rr cr]; [discriminate H|]. specialize (IHr H). discriminate IHr. }
  destruct (RB.refind_min t) eqn:E1, (RB.refind_max t) eqn:E2; cbn; auto.
  - apply Hmax in E2. subst. discriminate E1.
  - apply Hmin in E1. subst. discriminate E2.
Qed.

Lemma rb_caches_run ops :
  caches_ok (RB.run pcmp ops).(RB.min_value) (RB.run pcmp ops).(RB.max_value).
Proof.
  unfold RB.run. assert (H : caches_ok (@RB.new K).(RB.min_value) (@RB.new K).(RB.max_value))
    by exact I.
  revert H. generalize (@RB.new K).
  induction ops as [|[v|v] ops IH]; cbn [fold_left]; auto; intros s Hs; apply IH.
  - destruct s as [t [a|] [b|]]; cbn in Hs |- *; try contradiction;
      [destruct (lt_b pcmp v a), (gt_b pcmp v b)|]; exact I.
  - destruct s as [[|x l r c] mn mx]; [exact Hs|]. apply rb_refind_caches.
Qed.

Lemma rb_ops_total s v :
  caches_ok s.(RB.min_value) s.(RB.max_value) -> Checked.rb_total pcmp s v.
Proof.
  intros Hc. unfold Checked.rb_total. repeat split.
  - destruct s as [t [a|] [b|]]; cbn in Hc; try contradiction;
      unfold Checked.rb_insert, RB.insert; cbn; now rewrite rb_insert_recursive_total.
  - unfold Checked.rb_remove, RB.remove. destruct (RB.root s) as [|x l r c]; [reflexivity|].
    now rewrite rb_remove_recursive_total by lia.
  - unfold RB.height_checked. destruct (RB.root s) as [|x l r c] eqn:E; [discriminate|].
    pose proof (RBLoops.height_depth_rb s) as H. unfold RB.height_checked in H.
    rewrite E in H. congruence.
  - now rewrite RBLoops.in_order_elements_rb.
  - now rewrite RBLoops.pre_order_elems_rb.
  - now rewrite RBLoops.post_order_elems_rb.
  - destruct (RBLoops.level_order_some_rb s) as [r Hr]. congruence.
Qed.

End RBPanics.
End CheckedProofs.

(** ** Facts shared by the claims: the key orders of the examples,
    membership after a sequence of operations, the min/max caches *)
Module Facts.
Local Unset Implicit Arguments.

(** [i32]'s [Ord] is a total order. *)
Lemma zcmp_partial : partial_laws zcmp.
Proof.
  unfold zcmp. constructor.
  - intros a b. rewrite Z.compare_antisym.
    destruct (Z.compare b a); cbn; split; congruence.
  - intros a b H. injection H as H. now apply Z.compare_eq.
  - intros a b c H1 H2. injection H1 as H1. injection H2 as H2.
    rewrite Z.compare_lt_iff in *. f_equal. apply Z.compare_lt_iff. lia.
Qed.

Lemma zcmp_total : total_laws zcmp.
Proof.
  constructor; [exact zcmp_partial| |]; unfold zcmp.
  - intros a. now rewrite Z.compare_refl.
  - intros a b. discriminate.
Qed.

(** [f64]'s [PartialOrd] is lawful. *)
Lemma f64_partial : partial_laws f64_cmp.
Proof.
  constructor.
  - intros [a|] [b|]; cbn; try (split; discriminate).
    rewrite Z.compare_antisym. destruct (Z.compare b a); cbn; split; congruence.
  - intros [a|] [b|] H; cbn in H; try discriminate.
    injection H as H. now rewrite (Z.compare_eq _ _ H).
  - intros [a|] [b|] [c|] H1 H2; cbn in *; try discriminate.
    injection H1 as H1. injection H2 as H2.
    rewrite Z.compare_lt_iff in *. f_equal. apply Z.compare_lt_iff. lia.
Qed.

Section Fold.
Context {K S : Type} (pcmp : K -> K -> option comparison).

(** One step of [live]. *)
Definition live_step (k : K) (b : bool) (o : op K) : bool :=
  match o with
  | Ins v => if eq_b pcmp k v then true else b
  | Rem v => if eq_b pcmp k v then false else b
  end.

Lemma live_unfold ops k : live pcmp ops k = fold_left (live_step k) ops false.
Proof. reflexivity. Qed.

Variables (step : S -> op K -> S) (P : S -> Prop) (mem : S -> K -> bool).
Hypothesis step_inv : forall s o, P s -> P (step s o).
Hypothesis step_mem : forall s o k, P s -> mem (step s o) k = live_step k (mem s k) o.

Lemma fold_mem ops : forall s k, P s ->
  mem (fold_left step ops s) k = fold_left (live_step k) ops (mem s k).
Proof.
  induction ops as [|o ops IH]; intros s k Hs; cbn [fold_left]; auto.
  rewrite IH by auto. now rewrite step_mem.
Qed.

End Fold.

(** A state reached from [new()] by a sequence of operations stays so. *)
Lemma reach_step {S K : Type} (step : S -> op K -> S) (s0 s : S) o :
  (exists ops, s = fold_left step ops s0) -> exists ops, step s o = fold_left step ops s0.
Proof.
  intros (ops & ->). exists (ops ++ [o]). now rewrite fold_left_app.
Qed.

Section Total.
Context {K : Type} (pcmp : K -> K -> option comparison).
Hypothesis HT : total_laws pcmp.
Local Abbreviation HP := (total_partial HT).

Lemma eq_b_iff a b : eq_b pcmp a b = true <-> a = b.
Proof.
  split; [apply (eq_b_true HP)|intros ->; unfold eq_b; now rewrite (pcmp_refl HT)].
Qed.

Lemma in_remove_key ks v k : In k (remove_key pcmp v ks) <-> In k ks /\ k <> v.
Proof.
  unfold remove_key. rewrite filter_In. destruct (eq_b pcmp v k) eqn:E; cbn.
  - apply eq_b_iff in E. subst. split; intros [_ H]; [discriminate|].
    exfalso. now apply H.
  - split; intros [H1 H2]; split; auto.
    intros Hkv. rewrite Hkv in E. rewrite (proj2 (eq_b_iff v v) eq_refl) in E.
    discriminate.
Qed.

Lemma live_step_ins (b b' : bool) k v :
  (b' = true <-> k = v \/ b = true) -> b' = live_step pcmp k b (Ins v).
Proof.
  intros H. unfold live_step. destruct (eq_b pcmp k v) eqn:E.
  - apply eq_b_iff in E. apply H. auto.
  - assert (Hkv : k <> v).
    { intros ->. rewrite (proj2 (eq_b_iff v v) eq_refl) in E. discriminate. }
    destruct b', b; auto.
    + destruct (proj1 H eq_refl) as [Hk|Hk]; [contradiction|discriminate].
    + exact (proj2 H (or_intror eq_refl)).
Qed.

Lemma live_step_rem (b b' : bool) k v :
  (b' = true <-> b = true /\ k <> v) -> b' = live_step pcmp k b (Rem v).
Proof.
  intros H. unfold live_step. destruct (eq_b pcmp k v) eqn:E.
  - apply eq_b_iff in E. destruct b'; auto.
    destruct (proj1 H eq_refl) as [_ Hk]. contradiction.
  - assert (Hkv : k <> v).
    { intros ->. rewrite (proj2 (eq_b_iff v v) eq_refl) in E. discriminate. }
    destruct b', b; auto.
    + destruct (proj1 H eq_refl) as [Hk _]. discriminate.
    + exact (proj2 H (conj eq_refl Hkv)).
Qed.

(** Keys of the binary search tree's [insert] walk, over a total order. *)
Lemma insert_at_in t v k :
  In k (BST.elements (BST.insert_at pcmp t v)) <-> k = v \/ In k (BST.elements t).
Proof.
  split; [apply BSTProofs.insert_at_mem|].
  intros [->|H]; [apply (BSTProofs.insert_at_present pcmp HP HT)|].
  now apply BSTProofs.insert_at_keep.
Qed.

(** Binary search tree *)
Lemma bst_contains_iff s k :
  BSTProofs.inv pcmp s -> (BST.contains pcmp s k = true <-> In k (BST.elements s.(BST.root))).
Proof.
  intros (Hs & _). unfold BST.contains.
  rewrite (BSTProofs.contains_at_iff pcmp HP) by exact Hs.
  unfold eq_b. rewrite (pcmp_refl HT). tauto.
Qed.

Lemma bst_insert_root s v :
  (BST.insert pcmp s v).(BST.root) = BST.insert_at pcmp s.(BST.root) v.
Proof. destruct s as [t [a|] [b|]]; reflexivity. Qed.

Lemma bst_step_mem s o k :
  (exists ops, s = BST.run pcmp ops) ->
  BST.contains pcmp (BST.apply_op pcmp s o) k = live_step pcmp k (BST.contains pcmp s k) o.
Proof.
  intros Hr. assert (Hi : BSTProofs.inv pcmp s).
  { destruct Hr as (ops & ->). apply BSTProofs.inv_run, HP. }
  destruct o as [v|v]; cbn [BST.apply_op].
  - apply live_step_ins.
    rewrite (bst_contains_iff _ k (BSTProofs.inv_insert pcmp HP s v Hi)),
      (bst_contains_iff s k Hi), bst_insert_root.
    apply insert_at_in.
  - apply live_step_rem.
    rewrite (bst_contains_iff _ k (BSTProofs.inv_remove pcmp HP s v Hi)),
      (bst_contains_iff s k Hi).
    unfold BST.remove. cbn [BST.root].
    rewrite (BSTProofs.remove_at_spec pcmp HP) by apply Hi.
    apply in_remove_key.
Qed.

Lemma bst_contains_run ops k : BST.contains pcmp (BST.run pcmp ops) k = live pcmp ops k.
Proof.
  unfold BST.run. rewrite live_unfold.
  change false with (BST.contains pcmp (@BST.new K) k).
  apply (fold_mem pcmp (BST.apply_op pcmp) (fun s => exists ops, s = BST.run pcmp ops)).
  - intros s o. apply reach_step.
  - intros s o k' Hs. now apply bst_step_mem.
  - now exists [].
Qed.

(** AVL tree *)
Lemma avl_contains_iff s k :
  AVLProofs.inv pcmp s -> (AVL.contains pcmp s k = true <-> In k (AVL.elements s.(AVL.root))).
Proof.
  intros (_ & Hs & _). unfold AVL.contains. rewrite AVLProofs.contains_shape.
  rewrite (BSTProofs.contains_at_iff pcmp HP) by (rewrite AVLLoops.shape_elements; exact Hs).
  rewrite AVLLoops.shape_elements. unfold eq_b. rewrite (pcmp_refl HT). tauto.
Qed.

Lemma avl_step_mem s o k :
  (exists ops, s = AVL.run pcmp ops) ->
  AVL.contains pcmp (AVL.apply_op pcmp s o) k = live_step pcmp k (AVL.contains pcmp s k) o.
Proof.
  intros Hr. assert (Hi' : AVLProofs.inv pcmp (AVL.apply_op pcmp s o)).
  { destruct (reach_step (AVL.apply_op pcmp) AVL.new s o Hr) as (ops & E).
    rewrite E. apply (AVLProofs.avl_inv_run pcmp HP). }
  assert (Hi : AVLProofs.inv pcmp s).
  { destruct Hr as (ops & ->). apply (AVLProofs.avl_inv_run pcmp HP). }
  destruct o as [v|v].
  - apply live_step_ins.
    rewrite (avl_contains_iff _ k Hi'), (avl_contains_iff s k Hi). cbn [AVL.apply_op].
    unfold AVL.insert. cbn [AVL.root].
    rewrite (AVLProofs.insert_rec_elements pcmp), insert_at_in, AVLLoops.shape_elements.
    tauto.
  - apply live_step_rem.
    rewrite (avl_contains_iff _ k Hi'), (avl_contains_iff s k Hi). cbn [AVL.apply_op].
    unfold AVL.remove. cbn [AVL.root].
    rewrite (AVLProofs.remove_node_elements pcmp HP) by apply Hi.
    apply in_remove_key.
Qed.

Lemma avl_contains_run ops k : AVL.contains pcmp (AVL.run pcmp ops) k = live pcmp ops k.
Proof.
  unfold AVL.run. rewrite live_unfold.
  change false with (AVL.contains pcmp (@AVL.new K) k).
  apply (fold_mem pcmp (AVL.apply_op pcmp) (fun s => exists ops, s = AVL.run pcmp ops)).
  - intros s o. apply reach_step.
  - intros s o k' Hs. now apply avl_step_mem.
  - now exists [].
Qed.

(** Red-Black tree *)
Lemma rb_contains_iff s k :
  RBProofs.inv pcmp s -> (RB.contains pcmp s k = true <-> In k (RB.elements s.(RB.root))).
Proof.
  intros (_ & _ & Hs & _). unfold RB.contains. rewrite RBProofs.contains_shape_rb.
  rewrite (BSTProofs.contains_at_iff pcmp HP) by (rewrite RBLoops.shape_elements_rb; exact Hs).
  rewrite RBLoops.shape_elements_rb. unfold eq_b. rewrite (pcmp_refl HT). tauto.
Qed.

Lemma rb_remove_elements s v :
  RBProofs.inv pcmp s ->
  RB.elements (RB.remove pcmp s v).(RB.root) = remove_key pcmp v (RB.elements s.(RB.root)).
Proof.
  intros ((n & Hn) & Hc & Hs & _).
  destruct (s.(RB.root)) eqn:Et.
  { destruct s as [t mn mx]; cbn in Et; subst t. reflexivity. }
  rewrite <- Et in Hn, Hc, Hs |- *.
  assert (Hne : s.(RB.root) <> RB.Leaf) by (rewrite Et; discriminate).
  rewrite (RBProofs.remove_node pcmp s v Hne). cbn [RB.root].
  destruct (RBProofs.remove_root_ok pcmp HP v n _ Hn Hc Hs Hne) as (_ & _ & He).
  exact He.
Qed.

Lemma rb_step_mem s o k :
  (exists ops, s = RB.run pcmp ops) ->
  RB.contains pcmp (RB.apply_op pcmp s o) k = live_step pcmp k (RB.contains pcmp s k) o.
Proof.
  intros Hr. assert (Hi' : RBProofs.inv pcmp (RB.apply_op pcmp s o)).
  { destruct (reach_step (RB.apply_op pcmp) RB.new s o Hr) as (ops & E).
    rewrite E. apply (RBProofs.rb_inv_run pcmp HP). }
  assert (Hi : RBProofs.inv pcmp s).
  { destruct Hr as (ops & ->). apply (RBProofs.rb_inv_run pcmp HP). }
  destruct o as [v|v].
  - apply live_step_ins.
    rewrite (rb_contains_iff _ k Hi'), (rb_contains_iff s k Hi). cbn [RB.apply_op].
    rewrite (RBProofs.root_insert pcmp), RBProofs.elements_blacken,
      (RBProofs.insert_recursive_elements pcmp), insert_at_in, RBLoops.shape_elements_rb.
    tauto.
  - apply live_step_rem.
    rewrite (rb_contains_iff _ k Hi'), (rb_contains_iff s k Hi). cbn [RB.apply_op].
    rewrite (rb_remove_elements s v Hi). apply in_remove_key.
Qed.

Lemma rb_contains_run ops k : RB.contains pcmp (RB.run pcmp ops) k = live pcmp ops k.
Proof.
  unfold RB.run. rewrite live_unfold.
  change false with (RB.contains pcmp (@RB.new K) k).
  apply (fold_mem pcmp (RB.apply_op pcmp) (fun s => exists ops, s = RB.run pcmp ops)).
  - intros s o. apply reach_step.
  - intros s o k' Hs. now apply rb_step_mem.
  - now exists [].
Qed.

End Total.

Section Caches.
Context {K : Type} (pcmp : K -> K -> option comparison).
Hypothesis HP : partial_laws pcmp.

(** [m] is a stored key below every other stored key. *)
Definition least (ks : list K) (m : K) : Prop :=
  In m ks /\ forall k, In k ks -> k = m \/ key_lt pcmp m k.

(** [m] is a stored key above every other stored key. *)
Definition greatest (ks : list K) (m : K) : Prop :=
  In m ks /\ forall k, In k ks -> k = m \/ key_lt pcmp k m.

(** [min()] and [max()] against the stored keys [ks]. *)
Definition min_max_ok (ks : list K) (mn mx : option K) : Prop :=
  (mn = None <-> ks = []) /\ (forall m, mn = Some m -> least ks m) /\
  (mx = None <-> ks = []) /\ (forall m, mx = Some m -> greatest ks m).

Lemma min_max_sorted ks mn mx :
  StronglySorted (key_lt pcmp) ks -> mn = hd_error ks -> mx = last_error ks ->
  min_max_ok ks mn mx.
Proof.
  intros Hs -> ->. split; [|split; [|split]].
  - split; [destruct ks; [reflexivity|discriminate]|intros ->; reflexivity].
  - intros m Hm. split; [now apply BSTProofs.hd_error_in|].
    intros k Hk. eapply BSTProofs.hd_least; eauto.
  - apply BSTProofs.last_error_none.
  - intros m Hm. split; [now apply BSTProofs.last_error_in|].
    intros k Hk. eapply BSTProofs.last_greatest; eauto.
Qed.

End Caches.

(** In-order traversal and height of the binary search tree. *)
Lemma bst_in_order_eq {K : Type} (s : @BST.bst K) : BST.in_order s = BST.elements s.(BST.root).
Proof. unfold BST.in_order, BST.in_order_checked. now rewrite BSTLoops.in_order_tree. Qed.

Lemma bst_height_depth {K : Type} (s : @BST.bst K) :
  BST.height s = BSTLoops.depth s.(BST.root) - 1.
Proof.
  unfold BST.height, BST.height_checked. destruct (BST.root s) as [|x l r]; [reflexivity|].
  rewrite BSTLoops.height_tree; [reflexivity|discriminate].
Qed.

End Facts.

(** * The claims of the specification *)
Module Claims.
Local Unset Implicit Arguments.

(** The inserts of the concrete scenario: [5, 3, 7, 2, 4, 6, 8]. *)
Definition scenario : list (op Z) := map Ins [5; 3; 7; 2; 4; 6; 8]%Z.

(** C1: for every sequence of inserts and removes from [new()] over a lawful
    [PartialOrd], the Red-Black tree afterwards has a Black root (or none),
    no Red node with a Red child ([None] counting as Black), and the same
    number [n] of Black nodes on every path from the root to a [None]. *)
Theorem rb_invariants_hold {K : Type} (pcmp : K -> K -> option comparison)
    (HP : partial_laws pcmp) (ops : list (op K)) :
  RB.is_red_node (RB.run pcmp ops).(RB.root) = false /\
  exists n, RB.rb_valid n (RB.run pcmp ops).(RB.root).
Proof.
  destruct (RBProofs.rb_inv_run pcmp HP ops) as ((n & Hn) & Hc & _).
  split; [exact Hc|]. exists n. now apply RBProofs.llrb_rb_valid.
Qed.

Lemma rb_invariants_hold_witness :
  partial_laws zcmp /\
  (RB.is_red_node (RB.run zcmp scenario).(RB.root) = false /\
   exists n, RB.rb_valid n (RB.run zcmp scenario).(RB.root)).
Proof.
  split; [exact Facts.zcmp_partial|].
  apply (rb_invariants_hold zcmp Facts.zcmp_partial scenario).
Defined.

(** C2: for every sequence of inserts and removes from [new()], every node
    of the AVL tree stores [1 + max] of its children's heights (0 for
    [None]) and has a balance factor in [{-1, 0, 1}]. *)
Theorem avl_invariants_hold {K : Type} (pcmp : K -> K -> option comparison)
    (ops : list (op K)) :
  AVL.avl_ok (AVL.run pcmp ops).(AVL.root).
Proof. apply AVLProofs.run_ok. Qed.

(** C3: for every sequence of inserts and removes from [new()] over a lawful
    [PartialOrd], [in_order()] of each of the three trees is strictly
    increasing. *)
Theorem in_order_strictly_increasing {K : Type} (pcmp : K -> K -> option comparison)
    (HP : partial_laws pcmp) (ops : list (op K)) :
  StronglySorted (key_lt pcmp) (BST.in_order (BST.run pcmp ops)) /\
  StronglySorted (key_lt pcmp) (AVL.in_order (AVL.run pcmp ops)) /\
  StronglySorted (key_lt pcmp) (RB.in_order (RB.run pcmp ops)).
Proof.
  rewrite Facts.bst_in_order_eq, AVLLoops.in_order_eq, RBLoops.in_order_eq_rb.
  split; [|split].
  - exact (proj1 (BSTProofs.inv_run pcmp HP ops)).
  - exact (proj1 (proj2 (AVLProofs.avl_inv_run pcmp HP ops))).
  - exact (proj1 (proj2 (proj2 (RBProofs.rb_inv_run pcmp HP ops)))).
Qed.

Lemma in_order_strictly_increasing_witness :
  partial_laws zcmp /\
  (StronglySorted (key_lt zcmp) (BST.in_order (BST.run zcmp scenario)) /\
   StronglySorted (key_lt zcmp) (AVL.in_order (AVL.run zcmp scenario)) /\
   StronglySorted (key_lt zcmp) (RB.in_order (RB.run zcmp scenario))).
Proof.
  split; [exact Facts.zcmp_partial|].
  apply (in_order_strictly_increasing zcmp Facts.zcmp_partial scenario).
Defined.

(** C4: over a total order, after any sequence of inserts and removes from
    [new()], [contains(k)] of each tree is [live ops k]: true exactly when
    the last operation on [k] is an insert; and right after [remove(k)],
    [contains(k)] is false. *)
Theorem membership_round_trip {K : Type} (pcmp : K -> K -> option comparison)
    (HT : total_laws pcmp) (ops : list (op K)) (k : K) :
  BST.contains pcmp (BST.run pcmp ops) k = live pcmp ops k /\
  AVL.contains pcmp (AVL.run pcmp ops) k = live pcmp ops k /\
  RB.contains pcmp (RB.run pcmp ops) k = live pcmp ops k /\
  BST.contains pcmp (BST.run pcmp (ops ++ [Rem k])) k = false /\
  AVL.contains pcmp (AVL.run pcmp (ops ++ [Rem k])) k = false /\
  RB.contains pcmp (RB.run pcmp (ops ++ [Rem k])) k = false.
Proof.
  assert (Hl : live pcmp (ops ++ [Rem k]) k = false).
  { rewrite Facts.live_unfold, fold_left_app. cbn [fold_left]. unfold Facts.live_step.
    now rewrite (proj2 (Facts.eq_b_iff pcmp HT k k) eq_refl). }
  rewrite !(Facts.bst_contains_run pcmp HT), !(Facts.avl_contains_run pcmp HT),
    !(Facts.rb_contains_run pcmp HT), Hl.
  repeat split.
Qed.

Lemma membership_round_trip_witness :
  total_laws zcmp /\
  (BST.contains zcmp (BST.run zcmp scenario) 4%Z = live zcmp scenario 4%Z /\
   AVL.contains zcmp (AVL.run zcmp scenario) 4%Z = live zcmp scenario 4%Z /\
   RB.contains zcmp (RB.run zcmp scenario) 4%Z = live zcmp scenario 4%Z /\
   BST.contains zcmp (BST.run zcmp (scenario ++ [Rem 4%Z])) 4%Z = false /\
   AVL.contains zcmp (AVL.run zcmp (scenario ++ [Rem 4%Z])) 4%Z = false /\
   RB.contains zcmp (RB.run zcmp (scenario ++ [Rem 4%Z])) 4%Z = false).
Proof.
  split; [exact Facts.zcmp_total|].
  apply (membership_round_trip zcmp Facts.zcmp_total scenario 4%Z).
Defined.

(** C5: after any sequence of inserts and removes from [new()] over a lawful
    [PartialOrd] (incomparable keys allowed), [min()] of each tree is [None]
    exactly when the tree is empty and otherwise a stored key below every
    other stored key; [max()] symmetrically. *)
Theorem min_max_exact {K : Type} (pcmp : K -> K -> option comparison)
    (HP : partial_laws pcmp) (ops : list (op K)) :
  Facts.min_max_ok pcmp (BST.in_order (BST.run pcmp ops))
    (BST.min (BST.run pcmp ops)) (BST.max (BST.run pcmp ops)) /\
  Facts.min_max_ok pcmp (AVL.in_order (AVL.run pcmp ops))
    (AVL.min (AVL.run pcmp ops)) (AVL.max (AVL.run pcmp ops)) /\
  Facts.min_max_ok pcmp (RB.in_order (RB.run pcmp ops))
    (RB.min (RB.run pcmp ops)) (RB.max (RB.run pcmp ops)).
Proof.
  rewrite Facts.bst_in_order_eq, AVLLoops.in_order_eq, RBLoops.in_order_eq_rb.
  unfold BST.min, BST.max, AVL.min, AVL.max, RB.min, RB.max.
  split; [|split].
  - destruct (BSTProofs.inv_run pcmp HP ops) as (Hs & Hmn & Hmx).
    now apply Facts.min_max_sorted.
  - destruct (AVLProofs.avl_inv_run pcmp HP ops) as (_ & Hs & Hmn & Hmx).
    now apply Facts.min_max_sorted.
  - destruct (RBProofs.rb_inv_run pcmp HP ops) as (_ & _ & Hs & Hmn & Hmx).
    now apply Facts.min_max_sorted.
Qed.

Lemma min_max_exact_witness :
  partial_laws zcmp /\
  (Facts.min_max_ok zcmp (BST.in_order (BST.run zcmp scenario))
     (BST.min (BST.run zcmp scenario)) (BST.max (BST.run zcmp scenario)) /\
   Facts.min_max_ok zcmp (AVL.in_order (AVL.run zcmp scenario))
     (AVL.min (AVL.run zcmp scenario)) (AVL.max (AVL.run zcmp scenario)) /\
   Facts.min_max_ok zcmp (RB.in_order (RB.run zcmp scenario))
     (RB.min (RB.run zcmp scenario)) (RB.max (RB.run zcmp scenario))).
Proof.
  split; [exact Facts.zcmp_partial|].
  apply (min_max_exact zcmp Facts.zcmp_partial scenario).
Defined.

(** C6: over a lawful [PartialOrd], inserting a key that [in_order()]
    lists into a tree reached from [new()] returns the very same state
    (nodes, colours or heights, caches), so the key set, the invariants,
    the four traversals, [min()], [max()] and [number_of_elements()] are
    unchanged. *)
Theorem duplicate_insert_no_op {K : Type} (pcmp : K -> K -> option comparison)
    (HP : partial_laws pcmp) (ops : list (op K)) (v : K) :
  (In v (BST.in_order (BST.run pcmp ops)) ->
   BST.insert pcmp (BST.run pcmp ops) v = BST.run pcmp ops) /\
  (In v (AVL.in_order (AVL.run pcmp ops)) ->
   AVL.insert pcmp (AVL.run pcmp ops) v = AVL.run pcmp ops) /\
  (In v (RB.in_order (RB.run pcmp ops)) ->
   RB.insert pcmp (RB.run pcmp ops) v = RB.run pcmp ops).
Proof.
  rewrite Facts.bst_in_order_eq, AVLLoops.in_order_eq, RBLoops.in_order_eq_rb.
  split; [|split]; intros Hin.
  - apply (BSTProofs.insert_same pcmp HP); [apply BSTProofs.inv_run, HP|exact Hin].
  - apply (AVLProofs.avl_insert_same pcmp HP); [apply AVLProofs.avl_inv_run, HP|exact Hin].
  - apply (RBProofs.rb_insert_same pcmp HP); [apply RBProofs.rb_inv_run, HP|exact Hin].
Qed.

Lemma duplicate_insert_no_op_witness :
  partial_laws zcmp /\
  In 5%Z (BST.in_order (BST.run zcmp scenario)) /\
  In 5%Z (AVL.in_order (AVL.run zcmp scenario)) /\
  In 5%Z (RB.in_order (RB.run zcmp scenario)) /\
  BST.insert zcmp (BST.run zcmp scenario) 5%Z = BST.run zcmp scenario /\
  AVL.insert zcmp (AVL.run zcmp scenario) 5%Z = AVL.run zcmp scenario /\
  RB.insert zcmp (RB.run zcmp scenario) 5%Z = RB.run zcmp scenario.
Proof.
  assert (H1 : In 5%Z (BST.in_order (BST.run zcmp scenario)))
    by (vm_compute; auto 10).
  assert (H2 : In 5%Z (AVL.in_order (AVL.run zcmp scenario)))
    by (vm_compute; auto 10).
  assert (H3 : In 5%Z (RB.in_order (RB.run zcmp scenario)))
    by (vm_compute; auto 10).
  destruct (duplicate_insert_no_op zcmp Facts.zcmp_partial scenario 5%Z)
    as (E1 & E2 & E3).
  split; [exact Facts.zcmp_partial|].
  repeat split; auto.
Defined.

(** C7 (the code differs): with [f64] keys, NaN is incomparable with the
    stored key 1.0, yet [ceil(NaN)] and [floor(NaN)] on the tree holding
    only 1.0 return [Some(1.0)], not [None], in all three trees: the walk's
    [else] branch records the node whenever the comparison is not [<] or
    [>], incomparable included. *)
Theorem ceil_floor_incomparable :
  partial_laws f64_cmp /\ f64_cmp NaN (Num 1) = None /\
  BST.ceil f64_cmp (BST.run f64_cmp [Ins (Num 1)]) NaN = Some (Num 1) /\
  BST.floor f64_cmp (BST.run f64_cmp [Ins (Num 1)]) NaN = Some (Num 1) /\
  AVL.ceil f64_cmp (AVL.run f64_cmp [Ins (Num 1)]) NaN = Some (Num 1) /\
  AVL.floor f64_cmp (AVL.run f64_cmp [Ins (Num 1)]) NaN = Some (Num 1) /\
  RB.ceil f64_cmp (RB.run f64_cmp [Ins (Num 1)]) NaN = Some (Num 1) /\
  RB.floor f64_cmp (RB.run f64_cmp [Ins (Num 1)]) NaN = Some (Num 1).
Proof. split; [exact Facts.f64_partial|]. repeat split. Qed.

(** C8: on every state reached from [new()], for every argument, [insert],
    [remove], [height], the four traversals (and so [number_of_elements])
    of each tree run without reaching a panic: the option-monad versions
    of module [Checked], which fail exactly where the source's [unwrap],
    [expect] or [unreachable!] would panic or a loop would not end, return
    a result.  [contains], [min], [max], [ceil] and [floor] have no panic
    site. *)
Theorem operations_never_panic {K : Type} (pcmp : K -> K -> option comparison)
    (ops : list (op K)) (v : K) :
  Checked.bst_total pcmp (BST.run pcmp ops) v /\
  Checked.avl_total pcmp (AVL.run pcmp ops) v /\
  Checked.rb_total pcmp (RB.run pcmp ops) v.
Proof.
  split; [|split].
  - apply CheckedProofs.bst_ops_total, CheckedProofs.bst_caches_run.
  - apply CheckedProofs.avl_ops_total.
  - apply CheckedProofs.rb_ops_total, CheckedProofs.rb_caches_run.
Qed.

(** C9 (counterexample): the scenario's inserts cause no rotation in the
    AVL tree, whose [pre_order()] is the binary search tree's. *)
Theorem scenario_avl_pre_order_same :
  AVL.pre_order (AVL.run zcmp scenario) = BST.pre_order (BST.run zcmp scenario).
Proof. vm_compute. reflexivity. Qed.

(** C9 (amended): after inserting [5, 3, 7, 2, 4, 6, 8], [in_order()] is
    [2..8] and [pre_order()] is [5, 3, 2, 4, 7, 6, 8] in all three trees
    (no rotation happens); after removing 2, [min()] is 3 in all three. *)
Theorem scenario_results :
  BST.in_order (BST.run zcmp scenario) = [2; 3; 4; 5; 6; 7; 8]%Z /\
  AVL.in_order (AVL.run zcmp scenario) = [2; 3; 4; 5; 6; 7; 8]%Z /\
  RB.in_order (RB.run zcmp scenario) = [2; 3; 4; 5; 6; 7; 8]%Z /\
  BST.pre_order (BST.run zcmp scenario) = [5; 3; 2; 4; 7; 6; 8]%Z /\
  AVL.pre_order (AVL.run zcmp scenario) = [5; 3; 2; 4; 7; 6; 8]%Z /\
  RB.pre_order (RB.run zcmp scenario) = [5; 3; 2; 4; 7; 6; 8]%Z /\
  BST.min (BST.run zcmp (scenario ++ [Rem 2%Z])) = Some 3%Z /\
  AVL.min (AVL.run zcmp (scenario ++ [Rem 2%Z])) = Some 3%Z /\
  RB.min (RB.run zcmp (scenario ++ [Rem 2%Z])) = Some 3%Z.
Proof. vm_compute. repeat split. Qed.

(** C10 (counterexample): a tree holding one key has [height()] 0, not 1. *)
Theorem single_node_height_zero :
  BST.height (BST.run zcmp [Ins 1%Z]) = 0 /\
  AVL.height (AVL.run zcmp [Ins 1%Z]) = 0 /\
  RB.height (RB.run zcmp [Ins 1%Z]) = 0.
Proof. vm_compute. repeat split. Qed.

(** C10 (amended): [height()] of each tree is its number of levels
    ([BSTLoops.depth] of its node skeleton) minus one: 0 for the empty tree
    and for a single node, the number of edges of a longest root-to-leaf
    path otherwise. *)
Theorem height_is_levels_minus_one {K : Type} :
  (forall s : @BST.bst K, BST.height s = BSTLoops.depth s.(BST.root) - 1) /\
  (forall s : @AVL.avl K,
     AVL.height s = BSTLoops.depth (AVLLoops.shape s.(AVL.root)) - 1) /\
  (forall s : @RB.rbt K,
     RB.height s = BSTLoops.depth (RBLoops.shape s.(RB.root)) - 1).
Proof.
  split; [|split]; intros s.
  - apply Facts.bst_height_depth.
  - unfold AVL.height. now rewrite AVLLoops.height_depth.
  - unfold RB.height. now rewrite RBLoops.height_depth_rb.
Qed.

End Claims.

(** * Further properties of the code *)
Module Extras.
Local Unset Implicit Arguments.

(** ** Traversals, [is_empty] and [find_connections] on the node skeleton *)
Section Traversals.
Context {K : Type}.
Implicit Types (t : @BST.tree K) (q : list (@BST.tree K)) (s : @BST.bst K).

Lemma size_length t : BST.size t = length (BST.elements t).
Proof.
  induction t as [|x l IHl r IHr]; cbn; auto.
  rewrite length_app. cbn. lia.
Qed.

Lemma pre_elems_perm t : Permutation (BSTLoops.pre_elems t) (BST.elements t).
Proof.
  induction t as [|x l IHl r IHr]; cbn; auto.
  apply Permutation_cons_app. now apply Permutation_app.
Qed.

Lemma post_elems_perm t : Permutation (BSTLoops.post_elems t) (BST.elements t).
Proof.
  induction t as [|x l IHl r IHr]; cbn; auto.
  rewrite IHl, IHr. apply Permutation_app_head.
  apply Permutation_sym, Permutation_cons_append.
Qed.

Lemma children_elements (x : K) l r :
  flat_map BST.elements (BST.children (BST.Node x l r)) = BST.elements l ++ BST.elements r.
Proof. destruct l, r; cbn; rewrite ?app_nil_r; reflexivity. Qed.

(** The breadth-first loop emits the keys of its queue, in some order. *)
Lemma level_order_perm f q res out :
  BST.level_order_loop f q res = Some out ->
  Permutation out (res ++ flat_map BST.elements q).
Proof.
  revert q res. induction f as [|f IH]; intros q res; cbn; [discriminate|].
  destruct q as [|[|x l r] q'].
  - intros [= <-]. now rewrite app_nil_r.
  - intros H. exact (IH _ _ H).
  - intros H. apply IH in H. rewrite H, flat_map_app, children_elements.
    cbn [flat_map BST.elements]. rewrite <- !app_assoc. apply Permutation_app_head.
    cbn. apply Permutation_cons_app. rewrite (app_assoc (BST.elements l)).
    apply Permutation_app_comm.
Qed.

(** Keys of the nodes of a queue. *)
Definition roots q : list K :=
  flat_map (fun t => match t with BST.Leaf => [] | BST.Node x _ _ => [x] end) q.

Lemma roots_children t :
  roots (BST.children t) = map snd (BSTMore.node_pairs t).
Proof. destruct t as [|x [|] [|]]; reflexivity. Qed.

(** [find_connections] and [level_order] walk the same queue; the children
    it records are the keys [level_order] emits after the queue's own. *)
Lemma connections_level f q res lres lout :
  BST.level_order_loop f q lres = Some lout ->
  exists out, BSTMore.connections_loop f q res = Some out /\
  exists C L, out = res ++ C /\ lout = lres ++ L /\ L = roots q ++ map snd C.
Proof.
  revert q res lres. induction f as [|f IH]; intros q res lres; cbn; [discriminate|].
  destruct q as [|[|x l r] q'].
  - intros [= <-]. exists res. split; [reflexivity|].
    exists [], []. rewrite !app_nil_r. auto.
  - intros H. destruct (IH q' res lres H) as (out & Ho & C & L & E1 & E2 & E3).
    exists out. split; [exact Ho|]. exists C, L. auto.
  - intros H.
    destruct (IH _ (res ++ BSTMore.node_pairs (BST.Node x l r)) _ H)
      as (out & Ho & C & L & E1 & E2 & E3).
    exists out. split; [exact Ho|].
    exists (BSTMore.node_pairs (BST.Node x l r) ++ C), (x :: L).
    split; [now rewrite E1, app_assoc|]. split; [now rewrite E2, <- app_assoc|].
    rewrite E3. unfold roots at 1. rewrite flat_map_app. fold (roots q').
    fold (roots (BST.children (BST.Node x l r))). rewrite roots_children, map_app.
    cbn. now rewrite app_assoc.
Qed.

Lemma bst_number_in_order s : BST.number_of_elements s = length (BST.in_order s).
Proof.
  unfold BST.number_of_elements, BST.pre_order, BST.pre_order_checked.
  rewrite BSTLoops.pre_order_tree, Facts.bst_in_order_eq, BSTLoops.pre_elems_length.
  apply size_length.
Qed.

Lemma bst_pre_perm s : Permutation (BST.pre_order s) (BST.in_order s).
Proof.
  unfold BST.pre_order, BST.pre_order_checked.
  rewrite BSTLoops.pre_order_tree, Facts.bst_in_order_eq. apply pre_elems_perm.
Qed.

Lemma bst_post_perm s : Permutation (BST.post_order s) (BST.in_order s).
Proof.
  unfold BST.post_order, BST.post_order_checked.
  rewrite BSTLoops.post_order_tree, Facts.bst_in_order_eq. apply post_elems_perm.
Qed.

Lemma bst_level_perm s : Permutation (BST.level_order s) (BST.in_order s).
Proof.
  rewrite Facts.bst_in_order_eq. unfold BST.level_order, BST.level_order_checked.
  destruct (BSTLoops.level_order_tree (BST.root s)) as [out Ho].
  destruct (BST.root s) as [|x l r]; [reflexivity|].
  cbv beta iota in Ho |- *. rewrite Ho. apply level_order_perm in Ho.
  rewrite Ho. cbn. now rewrite app_nil_r.
Qed.

Lemma bst_is_empty s : BSTMore.is_empty s = true <-> BST.number_of_elements s = 0.
Proof.
  rewrite bst_number_in_order, Facts.bst_in_order_eq, length_zero_iff_nil,
    BSTProofs.elements_nil.
  unfold BSTMore.is_empty. destruct (BST.root s); split; congruence.
Qed.

Lemma bst_connections s :
  map snd (BSTMore.find_connections s) = tl (BST.level_order s).
Proof.
  unfold BSTMore.find_connections, BSTMore.find_connections_checked,
    BST.level_order, BST.level_order_checked.
  destruct (BSTLoops.level_order_tree (BST.root s)) as [lout Ho].
  destruct (BST.root s) as [|x l r]; [reflexivity|].
  cbv beta iota in Ho |- *. rewrite Ho.
  destruct (connections_level _ _ [] [] _ Ho) as (out & -> & C & L & -> & -> & ->).
  reflexivity.
Qed.

Lemma bst_connections_length s :
  length (BSTMore.find_connections s) = BST.number_of_elements s - 1.
Proof.
  rewrite <- (length_map snd), bst_connections, length_tl, bst_number_in_order.
  f_equal. apply Permutation_length, bst_level_perm.
Qed.

End Traversals.

(** The binary search tree with the node skeleton of an AVL tree, as
    [RBProofs.to_bst] for a Red-Black tree; its traversals are theirs. *)
Definition avl_view {K : Type} (s : @AVL.avl K) : @BST.bst K :=
  BST.mk_bst (AVLLoops.shape s.(AVL.root)) s.(AVL.min_value) s.(AVL.max_value).

Section Views.
Context {K : Type}.

Lemma avl_view_in_order (s : @AVL.avl K) : AVL.in_order s = BST.in_order (avl_view s).
Proof.
  rewrite AVLLoops.in_order_eq, Facts.bst_in_order_eq. cbn.
  now rewrite AVLLoops.shape_elements.
Qed.

Lemma avl_view_pre_order (s : @AVL.avl K) : AVL.pre_order s = BST.pre_order (avl_view s).
Proof.
  unfold AVL.pre_order, BST.pre_order, BST.pre_order_checked.
  rewrite AVLLoops.pre_order_elems, BSTLoops.pre_order_tree. reflexivity.
Qed.

Lemma avl_view_post_order (s : @AVL.avl K) :
  AVL.post_order s = BST.post_order (avl_view s).
Proof.
  unfold AVL.post_order, BST.post_order, BST.post_order_checked.
  rewrite AVLLoops.post_order_elems, BSTLoops.post_order_tree. reflexivity.
Qed.

Lemma avl_view_level_order (s : @AVL.avl K) :
  AVL.level_order s = BST.level_order (avl_view s).
Proof.
  unfold AVL.level_order, AVL.level_order_checked, BST.level_order,
    BST.level_order_checked.
  rewrite AVLLoops.shape_level_order_loop, <- AVLLoops.shape_size.
  cbn [avl_view BST.root]. destruct (AVL.root s); reflexivity.
Qed.

Lemma avl_view_number (s : @AVL.avl K) :
  AVL.number_of_elements s = BST.number_of_elements (avl_view s).
Proof. unfold AVL.number_of_elements, BST.number_of_elements. now rewrite avl_view_pre_order. Qed.

Lemma avl_view_is_empty (s : @AVL.avl K) : AVLMore.is_empty s = BSTMore.is_empty (avl_view s).
Proof. unfold AVLMore.is_empty, BSTMore.is_empty. cbn. now destruct (AVL.root s). Qed.

Lemma avl_node_pairs (t : @AVL.tree K) :
  AVLMore.node_pairs t = BSTMore.node_pairs (AVLLoops.shape t).
Proof. destruct t as [|x [|] [|] h]; reflexivity. Qed.

Lemma avl_connections_loop f (q : list (@AVL.tree K)) res :
  AVLMore.connections_loop f q res = BSTMore.connections_loop f (map AVLLoops.shape q) res.
Proof.
  revert q res. induction f as [|f IH]; intros q res; auto.
  destruct q as [|[|x l r h] q']; cbn [map AVLLoops.shape AVLMore.connections_loop
    BSTMore.connections_loop]; auto.
  rewrite IH, map_app, avl_node_pairs.
  change (BST.Node x (AVLLoops.shape l) (AVLLoops.shape r))
    with (AVLLoops.shape (AVL.Node x l r h)).
  now rewrite AVLLoops.shape_children.
Qed.

Lemma avl_view_connections (s : @AVL.avl K) :
  AVLMore.find_connections s = BSTMore.find_connections (avl_view s).
Proof.
  unfold AVLMore.find_connections, AVLMore.find_connections_checked,
    BSTMore.find_connections, BSTMore.find_connections_checked.
  rewrite avl_connections_loop, <- AVLLoops.shape_size.
  cbn [avl_view BST.root]. destruct (AVL.root s); reflexivity.
Qed.

Lemma rb_view_in_order (s : @RB.rbt K) : RB.in_order s = BST.in_order (RBProofs.to_bst s).
Proof.
  rewrite RBLoops.in_order_eq_rb, Facts.bst_in_order_eq. cbn.
  now rewrite RBLoops.shape_elements_rb.
Qed.

Lemma rb_view_pre_order (s : @RB.rbt K) : RB.pre_order s = BST.pre_order (RBProofs.to_bst s).
Proof.
  unfold RB.pre_order, BST.pre_order, BST.pre_order_checked.
  rewrite RBLoops.pre_order_elems_rb, BSTLoops.pre_order_tree. reflexivity.
Qed.

Lemma rb_view_post_order (s : @RB.rbt K) : RB.post_order s = BST.post_order (RBProofs.to_bst s).
Proof.
  unfold RB.post_order, BST.post_order, BST.post_order_checked.
  rewrite RBLoops.post_order_elems_rb, BSTLoops.post_order_tree. reflexivity.
Qed.

Lemma rb_view_level_order (s : @RB.rbt K) : RB.level_order s = BST.level_order (RBProofs.to_bst s).
Proof.
  unfold RB.level_order, RB.level_order_checked, BST.level_order,
    BST.level_order_checked.
  rewrite RBLoops.shape_level_order_loop_rb, <- RBLoops.shape_size_rb.
  cbn [RBProofs.to_bst BST.root]. destruct (RB.root s); reflexivity.
Qed.

Lemma rb_view_number (s : @RB.rbt K) :
  RB.number_of_elements s = BST.number_of_elements (RBProofs.to_bst s).
Proof. unfold RB.number_of_elements, BST.number_of_elements. now rewrite rb_view_pre_order. Qed.

Lemma rb_view_is_empty (s : @RB.rbt K) : RBMore.is_empty s = BSTMore.is_empty (RBProofs.to_bst s).
Proof. unfold RBMore.is_empty, BSTMore.is_empty. cbn. now destruct (RB.root s). Qed.

Lemma rb_node_pairs (t : @RB.tree K) :
  RBMore.node_pairs t = BSTMore.node_pairs (RBLoops.shape t).
Proof. destruct t as [|x [|] [|] c]; reflexivity. Qed.

Lemma rb_connections_loop f (q : list (@RB.tree K)) res :
  RBMore.connections_loop f q res = BSTMore.connections_loop f (map RBLoops.shape q) res.
Proof.
  revert q res. induction f as [|f IH]; intros q res; auto.
  destruct q as [|[|x l r c] q']; cbn [map RBLoops.shape RBMore.connections_loop
    BSTMore.connections_loop]; auto.
  rewrite IH, map_app, rb_node_pairs.
  change (BST.Node x (RBLoops.shape l) (RBLoops.shape r))
    with (RBLoops.shape (RB.Node x l r c)).
  now rewrite RBLoops.shape_children_rb.
Qed.

Lemma rb_view_connections (s : @RB.rbt K) :
  RBMore.find_connections s = BSTMore.find_connections (RBProofs.to_bst s).
Proof.
  unfold RBMore.find_connections, RBMore.find_connections_checked,
    BSTMore.find_connections, BSTMore.find_connections_checked.
  rewrite rb_connections_loop, <- RBLoops.shape_size_rb.
  cbn [RBProofs.to_bst BST.root]. destruct (RB.root s); reflexivity.
Qed.

End Views.

(** ** The validators of [avl_tree/mod.rs] and [red_black_tree/mod.rs] *)
Section Validators.
Context {K : Type}.

Lemma check_balance_ok (t : @AVL.tree K) : AVL.avl_ok t -> AVLMore.check_balance t = true.
Proof.
  induction 1 as [|x l r h Hl IHl Hr IHr Hh Hb]; [reflexivity|].
  cbn [AVLMore.check_balance]. rewrite IHl, IHr, !andb_true_r.
  apply Z.leb_le, Z.abs_le. lia.
Qed.

Lemma black_height_pos (t : @RB.tree K) h : RBMore.check_black_height t = Some h -> 1 <= h.
Proof.
  revert h. induction t as [|x l IHl r IHr c]; cbn; intros h H.
  - injection H; lia.
  - destruct (RBMore.check_black_height l) as [lh|]; [|discriminate].
    destruct (RBMore.check_black_height r) as [rh|]; [|discriminate].
    destruct (negb (Nat.eqb lh rh)); [discriminate|].
    specialize (IHl lh eq_refl). destruct c; injection H; lia.
Qed.

(** [check_red_property] and [check_black_height] decide the Red-Black
    invariants; the black height they count includes the [None] leaves. *)
Lemma rb_valid_check n (t : @RB.tree K) :
  RB.rb_valid n t <->
  RBMore.check_red_property t = true /\ RBMore.check_black_height t = Some (S n).
Proof.
  split.
  - induction 1 as [|n x l r Hl [IHl1 IHl2] Hr [IHr1 IHr2]
                   |n x l r Hl [IHl1 IHl2] Hr [IHr1 IHr2] Hrl Hrr]; cbn.
    + auto.
    + rewrite IHl1, IHr1, IHl2, IHr2, Nat.eqb_refl. cbn. split; [reflexivity|].
      f_equal. lia.
    + rewrite Hrl, Hrr, IHl1, IHr1, IHl2, IHr2, Nat.eqb_refl. auto.
  - revert n. induction t as [|x l IHl r IHr c]; intros n [H1 H2]; cbn in H1, H2.
    + injection H2 as <-. constructor.
    + destruct (RBMore.check_black_height l) as [lh|] eqn:El; [|discriminate].
      destruct (RBMore.check_black_height r) as [rh|] eqn:Er; [|discriminate].
      destruct (Nat.eqb lh rh) eqn:Eq; [|discriminate].
      apply Nat.eqb_eq in Eq. subst rh. pose proof (black_height_pos l lh El) as Hpos.
      cbn in H2. destruct c.
      * destruct (RB.is_red_node l) eqn:Rl; [discriminate|].
        destruct (RB.is_red_node r) eqn:Rr; [discriminate|].
        cbn in H1. apply andb_prop in H1 as [H1l H1r].
        injection H2 as E. subst lh. constructor; auto.
      * cbn in H1. apply andb_prop in H1 as [H1l H1r].
        destruct lh as [|m]; [lia|]. injection H2 as Hn.
        replace n with (S m) by lia. constructor; auto.
Qed.

Section Keys.
Context (pcmp : K -> K -> option comparison).
Local Abbreviation lt := (key_lt pcmp).
Local Abbreviation sorted := (StronglySorted (key_lt pcmp)).

(** Keys strictly inside the optional bounds of [check]. *)
Definition within (lo hi : option K) (k : K) : Prop :=
  match lo with Some m => lt m k | None => True end /\
  match hi with Some m => lt k m | None => True end.

Lemma le_b_false_gt (HP : partial_laws pcmp) m x : lt m x -> le_b pcmp x m = false.
Proof. intros H. unfold le_b. now rewrite (lt_gt HP H). Qed.

Lemma ge_b_false_lt x m : lt x m -> ge_b pcmp x m = false.
Proof. unfold ge_b, key_lt. now intros ->. Qed.

Lemma le_b_false_total (HT : total_laws pcmp) x m : le_b pcmp x m = false -> lt m x.
Proof.
  unfold le_b, key_lt. intros H. apply (pcmp_lt_gt (total_partial HT)).
  pose proof (pcmp_total HT x m).
  destruct (pcmp x m) as [[]|]; congruence.
Qed.

Lemma ge_b_false_total (HT : total_laws pcmp) x m : ge_b pcmp x m = false -> lt x m.
Proof.
  unfold ge_b, key_lt. intros H. pose proof (pcmp_total HT x m).
  destruct (pcmp x m) as [[]|]; congruence.
Qed.

Lemma within_node lo hi (x : K) l r :
  (forall k, In k (l ++ x :: r) -> within lo hi k) ->
  within lo hi x /\ (forall k, In k l -> within lo hi k) /\ (forall k, In k r -> within lo hi k).
Proof. intros H. repeat split; intros; apply H; auto using in_or_app, in_eq, in_cons. Qed.

Lemma avl_check_sorted (HP : partial_laws pcmp) (t : @AVL.tree K) lo hi :
  sorted (AVL.elements t) -> (forall k, In k (AVL.elements t) -> within lo hi k) ->
  AVLMore.check pcmp t lo hi = true.
Proof.
  revert lo hi. induction t as [|x l IHl r IHr h]; intros lo hi Hs Hw; [reflexivity|].
  cbn in Hs, Hw. apply sorted_app_inv in Hs as (Sl & Sr & Fl & Fr).
  rewrite Forall_forall in Fl, Fr. apply within_node in Hw as ([Hlo Hhi] & Wl & Wr).
  cbn [AVLMore.check].
  replace (match lo with Some m => le_b pcmp x m | None => false end) with false
    by (destruct lo; auto; now rewrite (le_b_false_gt HP _ _ Hlo)).
  replace (match hi with Some m => ge_b pcmp x m | None => false end) with false
    by (destruct hi; auto; now rewrite (ge_b_false_lt _ _ Hhi)).
  rewrite IHl, IHr; auto.
  - intros k Hk. split; [apply Fr, Hk|apply (Wr k Hk)].
  - intros k Hk. split; [apply (Wl k Hk)|apply Fl, Hk].
Qed.

Lemma avl_check_total (HT : total_laws pcmp) (t : @AVL.tree K) lo hi :
  AVLMore.check pcmp t lo hi = true ->
  sorted (AVL.elements t) /\ (forall k, In k (AVL.elements t) -> within lo hi k).
Proof.
  pose proof (total_partial HT) as HP.
  revert lo hi. induction t as [|x l IHl r IHr h]; intros lo hi H.
  - split; [constructor|]. intros k [].
  - cbn [AVLMore.check] in H.
    destruct (match lo with Some m => le_b pcmp x m | None => false end) eqn:E1;
      [discriminate|].
    destruct (match hi with Some m => ge_b pcmp x m | None => false end) eqn:E2;
      [discriminate|].
    assert (Hx : within lo hi x).
    { split; [destruct lo|destruct hi]; auto.
      - now apply (le_b_false_total HT).
      - now apply (ge_b_false_total HT). }
    apply andb_prop in H as [Hl Hr].
    destruct (IHl _ _ Hl) as [Sl Wl]. destruct (IHr _ _ Hr) as [Sr Wr].
    cbn [AVL.elements]. split.
    + apply (sorted_mid HP); auto; apply Forall_forall; intros k Hk.
      * apply (Wl k Hk).
      * apply (Wr k Hk).
    + intros k Hk. apply in_app_or in Hk as [Hk|[<-|Hk]]; auto.
      * destruct (Wl k Hk) as [H1 H2]. split; auto.
        destruct hi; auto. apply (lt_trans HP) with x; auto. apply Hx.
      * destruct (Wr k Hk) as [H1 H2]. split; auto.
        destruct lo; auto. apply (lt_trans HP) with x; auto. apply Hx.
Qed.

Lemma rb_check_sorted (HP : partial_laws pcmp) (t : @RB.tree K) lo hi :
  sorted (RB.elements t) -> (forall k, In k (RB.elements t) -> within lo hi k) ->
  RBMore.check pcmp t lo hi = true.
Proof.
  revert lo hi. induction t as [|x l IHl r IHr c]; intros lo hi Hs Hw; [reflexivity|].
  cbn in Hs, Hw. apply sorted_app_inv in Hs as (Sl & Sr & Fl & Fr).
  rewrite Forall_forall in Fl, Fr. apply within_node in Hw as ([Hlo Hhi] & Wl & Wr).
  cbn [RBMore.check].
  replace (match lo with Some m => le_b pcmp x m | None => false end) with false
    by (destruct lo; auto; now rewrite (le_b_false_gt HP _ _ Hlo)).
  replace (match hi with Some m => ge_b pcmp x m | None => false end) with false
    by (destruct hi; auto; now rewrite (ge_b_false_lt _ _ Hhi)).
  rewrite IHl, IHr; auto.
  - intros k Hk. split; [apply Fr, Hk|apply (Wr k Hk)].
  - intros k Hk. split; [apply (Wl k Hk)|apply Fl, Hk].
Qed.

Lemma rb_check_total (HT : total_laws pcmp) (t : @RB.tree K) lo hi :
  RBMore.check pcmp t lo hi = true ->
  sorted (RB.elements t) /\ (forall k, In k (RB.elements t) -> within lo hi k).
Proof.
  pose proof (total_partial HT) as HP.
  revert lo hi. induction t as [|x l IHl r IHr c]; intros lo hi H.
  - split; [constructor|]. intros k [].
  - cbn [RBMore.check] in H.
    destruct (match lo with Some m => le_b pcmp x m | None => false end) eqn:E1;
      [discriminate|].
    destruct (match hi with Some m => ge_b pcmp x m | None => false end) eqn:E2;
      [discriminate|].
    assert (Hx : within lo hi x).
    { split; [destruct lo|destruct hi]; auto.
      - now apply (le_b_false_total HT).
      - now apply (ge_b_false_total HT). }
    apply andb_prop in H as [Hl Hr].
    destruct (IHl _ _ Hl) as [Sl Wl]. destruct (IHr _ _ Hr) as [Sr Wr].
    cbn [RB.elements]. split.
    + apply (sorted_mid HP); auto; apply Forall_forall; intros k Hk.
      * apply (Wl k Hk).
      * apply (Wr k Hk).
    + intros k Hk. apply in_app_or in Hk as [Hk|[<-|Hk]]; auto.
      * destruct (Wl k Hk) as [H1 H2]. split; auto.
        destruct hi; auto. apply (lt_trans HP) with x; auto. apply Hx.
      * destruct (Wr k Hk) as [H1 H2]. split; auto.
        destruct lo; auto. apply (lt_trans HP) with x; auto. apply Hx.
Qed.

End Keys.
End Validators.

(** ** [ceil], [floor], [contains] and [remove] against the key sequence *)
Lemma find_app_opt {A : Type} (f : A -> bool) (l1 l2 : list A) :
  find f (l1 ++ l2) = match find f l1 with Some x => Some x | None => find f l2 end.
Proof. induction l1 as [|a l1 IH]; cbn; auto. destruct (f a); auto. Qed.

Lemma find_skip {A : Type} (f : A -> bool) (l : list A) :
  (forall x, In x l -> f x = false) -> find f l = None.
Proof.
  induction l as [|a l IH]; cbn; intros H; auto.
  rewrite (H a (or_introl eq_refl)). apply IH. auto.
Qed.

Section KeySeq.
Context {K : Type} (pcmp : K -> K -> option comparison).
Hypothesis HP : partial_laws pcmp.
Local Abbreviation lt := (key_lt pcmp).
Local Abbreviation sorted := (StronglySorted (key_lt pcmp)).

(** The first key, in ascending order, that is not [<] the query. *)
Definition ceil_spec (ks : list K) (v : K) : option K :=
  find (fun k => negb (lt_b pcmp k v)) ks.

(** The last key, in ascending order, that is not [>] the query. *)
Definition floor_spec (ks : list K) (v : K) : option K :=
  find (fun k => negb (gt_b pcmp k v)) (rev ks).

Lemma lt_b_lt a b : lt a b -> lt_b pcmp a b = true.
Proof. unfold lt_b, key_lt. now intros ->. Qed.

Lemma gt_b_lt a b : lt b a -> gt_b pcmp a b = true.
Proof. unfold gt_b. intros H. now rewrite (lt_gt HP H). Qed.

Lemma lt_b_self a : lt_b pcmp a a = false.
Proof.
  unfold lt_b. destruct (pcmp a a) as [[]|] eqn:E; auto.
  exfalso. exact (lt_irrefl HP E).
Qed.

Lemma gt_b_self a : gt_b pcmp a a = false.
Proof.
  unfold gt_b. destruct (pcmp a a) as [[]|] eqn:E; auto.
  exfalso. apply (lt_irrefl HP (a:=a)). apply (gt_lt HP). exact E.
Qed.

Lemma ceil_at_spec t v res :
  sorted (BST.elements t) ->
  BST.ceil_at pcmp t v res =
  match ceil_spec (BST.elements t) v with Some k => Some k | None => res end.
Proof.
  unfold ceil_spec. revert res.
  induction t as [|x l IHl r IHr]; intros res Hs; [reflexivity|].
  cbn in Hs. apply sorted_app_inv in Hs as (Sl & Sr & Fl & Fr).
  rewrite Forall_forall in Fl, Fr.
  cbn [BST.ceil_at BST.elements]. rewrite find_app_opt.
  destruct (eq_b pcmp x v) eqn:E1.
  - apply (eq_b_true HP) in E1. subst v.
    rewrite find_skip by (intros k Hk; now rewrite (lt_b_lt _ _ (Fl k Hk))).
    cbn. now rewrite lt_b_self.
  - destruct (lt_b pcmp x v) eqn:E2.
    + assert (Hx : lt x v) by (unfold lt_b in E2; unfold key_lt;
        destruct (pcmp x v) as [[]|]; congruence).
      rewrite find_skip.
      * cbn. rewrite E2. cbn. apply IHr, Sr.
      * intros k Hk. rewrite (lt_b_lt k v); auto. apply (lt_trans HP) with x; auto.
    + rewrite IHl by exact Sl. cbn. rewrite E2. cbn.
      destruct (find _ (BST.elements l)); reflexivity.
Qed.

Lemma floor_at_spec t v res :
  sorted (BST.elements t) ->
  BST.floor_at pcmp t v res =
  match floor_spec (BST.elements t) v with Some k => Some k | None => res end.
Proof.
  unfold floor_spec. revert res.
  induction t as [|x l IHl r IHr]; intros res Hs; [reflexivity|].
  cbn in Hs. apply sorted_app_inv in Hs as (Sl & Sr & Fl & Fr).
  rewrite Forall_forall in Fl, Fr.
  cbn [BST.floor_at BST.elements]. rewrite rev_app_distr. cbn [rev].
  rewrite <- app_assoc, find_app_opt.
  destruct (eq_b pcmp x v) eqn:E1.
  - apply (eq_b_true HP) in E1. subst v.
    rewrite find_skip by (intros k Hk; apply in_rev in Hk;
                          now rewrite (gt_b_lt _ _ (Fr k Hk))).
    cbn. now rewrite gt_b_self.
  - destruct (gt_b pcmp x v) eqn:E2.
    + assert (Hx : lt v x) by (unfold gt_b in E2; apply (gt_lt HP);
        destruct (pcmp x v) as [[]|]; congruence).
      rewrite find_skip.
      * cbn. rewrite E2. cbn. apply IHl, Sl.
      * intros k Hk. apply in_rev in Hk.
        rewrite (gt_b_lt k v); auto. apply (lt_trans HP) with x; auto.
    + rewrite IHr by exact Sr. cbn. rewrite E2. cbn.
      destruct (find _ (rev (BST.elements r))); reflexivity.
Qed.

Lemma bst_ceil_spec s v :
  sorted (BST.elements s.(BST.root)) ->
  BST.ceil pcmp s v = ceil_spec (BST.in_order s) v.
Proof.
  intros Hs. rewrite Facts.bst_in_order_eq. unfold BST.ceil.
  destruct (BST.root s) as [|x l r]; [reflexivity|].
  rewrite ceil_at_spec by exact Hs. now destruct ceil_spec.
Qed.

Lemma bst_floor_spec s v :
  sorted (BST.elements s.(BST.root)) ->
  BST.floor pcmp s v = floor_spec (BST.in_order s) v.
Proof.
  intros Hs. rewrite Facts.bst_in_order_eq. unfold BST.floor.
  destruct (BST.root s) as [|x l r]; [reflexivity|].
  rewrite floor_at_spec by exact Hs. now destruct floor_spec.
Qed.

Lemma avl_ceil_at t v res :
  AVL.ceil_at pcmp t v res = BST.ceil_at pcmp (AVLLoops.shape t) v res.
Proof.
  revert res. induction t as [|y a IHa b IHb g]; intros res; cbn; auto.
  now rewrite IHa, IHb.
Qed.

Lemma avl_ceil_view s v : AVL.ceil pcmp s v = BST.ceil pcmp (avl_view s) v.
Proof.
  unfold AVL.ceil, BST.ceil. cbn [avl_view BST.root].
  destruct (AVL.root s) as [|x l r h]; [reflexivity|]. apply avl_ceil_at.
Qed.

Lemma avl_floor_at t v res :
  AVL.floor_at pcmp t v res = BST.floor_at pcmp (AVLLoops.shape t) v res.
Proof.
  revert res. induction t as [|y a IHa b IHb g]; intros res; cbn; auto.
  now rewrite IHa, IHb.
Qed.

Lemma avl_floor_view s v : AVL.floor pcmp s v = BST.floor pcmp (avl_view s) v.
Proof.
  unfold AVL.floor, BST.floor. cbn [avl_view BST.root].
  destruct (AVL.root s) as [|x l r h]; [reflexivity|]. apply avl_floor_at.
Qed.

Lemma rb_ceil_at t v res :
  RB.ceil_at pcmp t v res = BST.ceil_at pcmp (RBLoops.shape t) v res.
Proof.
  revert res. induction t as [|y a IHa b IHb g]; intros res; cbn; auto.
  now rewrite IHa, IHb.
Qed.

Lemma rb_ceil_view s v : RB.ceil pcmp s v = BST.ceil pcmp (RBProofs.to_bst s) v.
Proof.
  unfold RB.ceil, BST.ceil. cbn [RBProofs.to_bst BST.root].
  destruct (RB.root s) as [|x l r c]; [reflexivity|]. apply rb_ceil_at.
Qed.

Lemma rb_floor_at t v res :
  RB.floor_at pcmp t v res = BST.floor_at pcmp (RBLoops.shape t) v res.
Proof.
  revert res. induction t as [|y a IHa b IHb g]; intros res; cbn; auto.
  now rewrite IHa, IHb.
Qed.

Lemma rb_floor_view s v : RB.floor pcmp s v = BST.floor pcmp (RBProofs.to_bst s) v.
Proof.
  unfold RB.floor, BST.floor. cbn [RBProofs.to_bst BST.root].
  destruct (RB.root s) as [|x l r c]; [reflexivity|]. apply rb_floor_at.
Qed.

Lemma avl_contains_view s v : AVL.contains pcmp s v = BST.contains pcmp (avl_view s) v.
Proof. apply AVLProofs.contains_shape. Qed.

Lemma rb_contains_view s v : RB.contains pcmp s v = BST.contains pcmp (RBProofs.to_bst s) v.
Proof. apply RBProofs.contains_shape_rb. Qed.

Lemma bst_contains_spec s v :
  sorted (BST.elements s.(BST.root)) ->
  BST.contains pcmp s v = true <-> In v (BST.in_order s) /\ pcmp v v = Some Eq.
Proof.
  intros Hs. unfold BST.contains.
  rewrite (BSTProofs.contains_at_iff pcmp HP) by exact Hs.
  rewrite Facts.bst_in_order_eq. unfold eq_b.
  destruct (pcmp v v) as [[]|]; intuition congruence.
Qed.

Lemma avl_sorted_view s :
  AVLProofs.inv pcmp s -> sorted (BST.elements (avl_view s).(BST.root)).
Proof. intros (_ & Hs & _). cbn. now rewrite AVLLoops.shape_elements. Qed.

Lemma rb_sorted_view s :
  RBProofs.inv pcmp s -> sorted (BST.elements (RBProofs.to_bst s).(BST.root)).
Proof. intros (_ & _ & Hs & _). cbn. now rewrite RBLoops.shape_elements_rb. Qed.

(** [remove] of a key that [contains] does not find: the walks of the two
    functions take the same branches. *)
Lemma remove_at_absent t v :
  BST.contains_at pcmp t v = false -> BST.remove_at pcmp t v = t.
Proof.
  induction t as [|x l IHl r IHr]; cbn; auto.
  destruct (pcmp v x) as [[| |]|]; intros H; try discriminate; auto.
  - now rewrite IHl.
  - now rewrite IHr.
Qed.

Lemma remove_node_absent t v :
  AVL.avl_ok t -> AVL.contains_at pcmp t v = false -> AVL.remove_node pcmp t v = t.
Proof.
  induction t as [|x l IHl r IHr h]; cbn; auto. intros Ho.
  pose proof Ho as Ho'. apply AVLProofs.avl_ok_node_inv in Ho' as (Ol & Or & _).
  destruct (pcmp v x) as [[| |]|]; intros H; try discriminate; auto.
  - rewrite IHl by auto. now apply AVLProofs.fix_id.
  - rewrite IHr by auto. now apply AVLProofs.fix_id.
Qed.

Lemma bst_remove_absent s v :
  BSTProofs.inv pcmp s -> BST.contains pcmp s v = false -> BST.remove pcmp s v = s.
Proof.
  destruct s as [t mn mx]. intros (_ & Hmn & Hmx) H. cbn in *.
  unfold BST.remove. cbn. rewrite remove_at_absent by exact H.
  now rewrite BSTProofs.refind_min_spec, BSTProofs.refind_max_spec, Hmn, Hmx.
Qed.

Lemma avl_remove_absent s v :
  AVLProofs.inv pcmp s -> AVL.contains pcmp s v = false -> AVL.remove pcmp s v = s.
Proof.
  destruct s as [t mn mx]. intros (Ho & _ & Hmn & Hmx) H. cbn in *.
  unfold AVL.remove. cbn. rewrite remove_node_absent by auto.
  now rewrite AVLProofs.refind_min_elements, AVLProofs.refind_max_elements, Hmn, Hmx.
Qed.

Lemma remove_key_absent v ks :
  (forall k, In k ks -> eq_b pcmp v k = false) -> remove_key pcmp v ks = ks.
Proof.
  unfold remove_key. induction ks as [|a ks IH]; cbn; intros H; auto.
  rewrite (H a (or_introl eq_refl)). cbn. f_equal. auto.
Qed.

Lemma rb_remove_absent s v :
  RBProofs.inv pcmp s -> RB.contains pcmp s v = false ->
  RB.elements (RB.remove pcmp s v).(RB.root) = RB.elements s.(RB.root) /\
  RB.min (RB.remove pcmp s v) = RB.min s /\ RB.max (RB.remove pcmp s v) = RB.max s.
Proof.
  intros Hi H. pose proof Hi as ((n & Hn) & Hc & Hs & Hmn & Hmx).
  assert (Hk : RB.elements (RB.blacken (RB.remove_recursive pcmp (RB.size s.(RB.root))
                  s.(RB.root) v)) = RB.elements s.(RB.root)).
  { destruct (RB.root s) as [|x l r c] eqn:Et; [reflexivity|].
    rewrite <- Et in *.
    destruct (RBProofs.remove_root_ok pcmp HP v n _ Hn Hc Hs) as (_ & _ & ->);
      [congruence|].
    apply remove_key_absent. intros k Hk. destruct (eq_b pcmp v k) eqn:E; auto.
    apply (eq_b_true HP) in E as E'. subst k.
    rewrite rb_contains_view in H.
    assert (Hin : BST.contains pcmp (RBProofs.to_bst s) v = true).
    { apply bst_contains_spec; [now apply rb_sorted_view|].
      rewrite Facts.bst_in_order_eq. cbn.
      rewrite RBLoops.shape_elements_rb. split; auto.
      unfold eq_b in E. destruct (pcmp v v) as [[]|]; congruence. }
    congruence. }
  destruct (RB.root s) as [|x l r c] eqn:Et.
  { destruct s as [t mn mx]; cbn in Et; subst t. unfold RB.remove. cbn. auto. }
  rewrite (RBProofs.remove_node pcmp s v) by congruence. cbn [RB.min RB.max RB.root].
  rewrite Et. unfold RB.min, RB.max.
  cbn [RB.root RB.min_value RB.max_value].
  rewrite RBProofs.refind_min_elements_rb, RBProofs.refind_max_elements_rb, Hk.
  rewrite Hmn, Hmx. auto.
Qed.

End KeySeq.

(** ** Element counts under a total order *)
Section Counts.
Context {K : Type} (pcmp : K -> K -> option comparison).
Hypothesis HT : total_laws pcmp.
Local Abbreviation HP := (total_partial HT).
Local Abbreviation sorted := (StronglySorted (key_lt pcmp)).

Lemma contains_at_in t v :
  sorted (BST.elements t) -> BST.contains_at pcmp t v = true <-> In v (BST.elements t).
Proof.
  intros Hs. rewrite (BSTProofs.contains_at_iff pcmp HP) by exact Hs.
  unfold eq_b. rewrite (pcmp_refl HT). tauto.
Qed.

Lemma insert_at_length t v :
  sorted (BST.elements t) ->
  length (BST.elements (BST.insert_at pcmp t v)) =
  length (BST.elements t) + (if BST.contains_at pcmp t v then 0 else 1).
Proof.
  intros Hs. destruct (BST.contains_at pcmp t v) eqn:E.
  - apply contains_at_in in E; auto.
    rewrite (BSTProofs.insert_at_same pcmp HP) by auto. lia.
  - destruct (BSTProofs.insert_at_spec pcmp HP t v Hs) as [Heq|(l1 & l2 & E1 & E2 & _)].
    + exfalso. assert (Hin := BSTProofs.insert_at_present pcmp HP HT t v).
      rewrite Heq in Hin. apply contains_at_in in Hin; [congruence|exact Hs].
    + rewrite E2, E1, !length_app. cbn. lia.
Qed.

Lemma remove_key_length v ks :
  sorted ks -> length (remove_key pcmp v ks) = length ks - (if existsb (eq_b pcmp v) ks then 1 else 0).
Proof.
  induction ks as [|a ks IH]; intros Hs; [reflexivity|].
  inversion Hs as [|? ? Hs' Hf]; subst. rewrite Forall_forall in Hf.
  unfold remove_key in *. cbn. fold (remove_key pcmp v ks) in *.
  destruct (eq_b pcmp v a) eqn:E; cbn.
  - apply (Facts.eq_b_iff pcmp HT) in E. subst a.
    rewrite (remove_key_absent pcmp); [lia|].
    intros k Hk. destruct (eq_b pcmp v k) eqn:E; auto.
    apply (Facts.eq_b_iff pcmp HT) in E. subst k.
    exfalso. exact (lt_irrefl HP (Hf v Hk)).
  - rewrite IH by exact Hs'. destruct (existsb (eq_b pcmp v) ks) eqn:Ex; [|lia].
    apply existsb_exists in Ex as (k & Hk & _). destruct ks; [contradiction|]. cbn. lia.
Qed.

Lemma existsb_in v ks : existsb (eq_b pcmp v) ks = true <-> In v ks.
Proof.
  rewrite existsb_exists. split.
  - intros (k & Hk & E). apply (Facts.eq_b_iff pcmp HT) in E. now subst.
  - intros H. exists v. split; auto. now apply (Facts.eq_b_iff pcmp HT).
Qed.

Lemma bst_number_elements (s : @BST.bst K) : BST.number_of_elements s = length (BST.elements s.(BST.root)).
Proof. now rewrite bst_number_in_order, Facts.bst_in_order_eq. Qed.

Lemma avl_number_elements (s : @AVL.avl K) : AVL.number_of_elements s = length (AVL.elements s.(AVL.root)).
Proof. rewrite avl_view_number, bst_number_elements. cbn. now rewrite AVLLoops.shape_elements. Qed.

Lemma rb_number_elements (s : @RB.rbt K) : RB.number_of_elements s = length (RB.elements s.(RB.root)).
Proof. rewrite rb_view_number, bst_number_elements. cbn. now rewrite RBLoops.shape_elements_rb. Qed.

Lemma remove_key_count t v :
  sorted (BST.elements t) ->
  length (remove_key pcmp v (BST.elements t)) =
  length (BST.elements t) - (if BST.contains_at pcmp t v then 1 else 0).
Proof.
  intros Hs. rewrite remove_key_length by exact Hs.
  destruct (existsb (eq_b pcmp v) (BST.elements t)) eqn:E1,
           (BST.contains_at pcmp t v) eqn:E2; auto.
  - apply existsb_in in E1. apply (contains_at_in t v Hs) in E1. congruence.
  - apply (contains_at_in t v Hs) in E2. apply existsb_in in E2. congruence.
Qed.

End Counts.

(** ** Height bounds *)
Section Heights.
Context {K : Type}.

Lemma avl_height_field (t : @AVL.tree K) :
  AVL.avl_ok t -> AVL.height_of t = BSTLoops.depth (AVLLoops.shape t).
Proof.
  induction 1 as [|x l r h Hl IHl Hr IHr Hh Hb]; cbn; auto.
  rewrite Hh, <- IHl, <- IHr. reflexivity.
Qed.

Lemma sq_mono a b X : 2 * X <= a * a -> X <= b * b -> X <= a * b.
Proof.
  intros Ha Hb. destruct (le_lt_dec X (a * b)) as [H|H]; auto. exfalso.
  assert (a * b * (a * b) < X * X) by (apply Nat.mul_lt_mono; exact H).
  assert (2 * X * X <= a * a * (b * b)) by (apply Nat.mul_le_mono; lia).
  assert (a * b * (a * b) = a * a * (b * b)) by ring.
  nia.
Qed.

(** An AVL subtree of stored height [h] holds at least [sqrt (2^h) - 1]
    nodes. *)
Lemma avl_size_bound (t : @AVL.tree K) :
  AVL.avl_ok t -> 2 ^ AVL.height_of t <= (AVL.size t + 1) * (AVL.size t + 1).
Proof.
  induction 1 as [|x l r h Hl IHl Hr IHr Hh Hb]; cbn; auto.
  cbn [AVL.balance_factor] in Hb. subst h.
  set (a := AVL.size l + 1) in *. set (b := AVL.size r + 1) in *.
  replace (S (AVL.size l + AVL.size r) + 1) with (a + b) by (subst a b; lia).
  set (hl := AVL.height_of l) in *. set (hr := AVL.height_of r) in *.
  assert (hl = hr \/ hl = S hr \/ hr = S hl) as [E|[E|E]] by lia.
  - rewrite E, Nat.max_id in *. rewrite Nat.pow_succ_r'. nia.
  - rewrite E in *. rewrite Nat.max_l by lia. rewrite !Nat.pow_succ_r' in *.
    pose proof (sq_mono a b (2 ^ hr) IHl IHr). nia.
  - rewrite E in *. rewrite Nat.max_r by lia. rewrite !Nat.pow_succ_r' in *.
    pose proof (sq_mono b a (2 ^ hl) IHr IHl). nia.
Qed.

Lemma llrb_depth n (t : @RB.tree K) :
  RB.llrb n t ->
  BSTLoops.depth (RBLoops.shape t) <= 2 * n + (if RB.is_red_node t then 1 else 0).
Proof.
  induction 1 as [|n x l r Hl IHl Hr IHr Hrr|n x l r Hl IHl Hr IHr Hrl Hrr]; cbn; auto.
  - rewrite Hrr in IHr. destruct (RB.is_red_node l); lia.
  - rewrite Hrl in IHl. rewrite Hrr in IHr. lia.
Qed.

Lemma llrb_size n (t : @RB.tree K) : RB.llrb n t -> 2 ^ n <= RB.size t + 1.
Proof. induction 1; cbn; lia. Qed.

End Heights.

(** ** Properties *)

(** Mutations used by the examples below. *)
Definition sample : list (op Z) :=
  map Ins [5; 3; 7; 2; 4; 6; 8; 1; 9]%Z ++ [Rem 7%Z; Rem 10%Z].

(** X1: [number_of_elements] is the length of [in_order], and [pre_order],
    [post_order] and [level_order] list the same keys as [in_order], in
    another order, for every tree of each of the three kinds. *)
Theorem traversals_same_keys {K : Type} :
  (forall s : @BST.bst K,
     BST.number_of_elements s = length (BST.in_order s) /\
     Permutation (BST.pre_order s) (BST.in_order s) /\
     Permutation (BST.post_order s) (BST.in_order s) /\
     Permutation (BST.level_order s) (BST.in_order s)) /\
  (forall s : @AVL.avl K,
     AVL.number_of_elements s = length (AVL.in_order s) /\
     Permutation (AVL.pre_order s) (AVL.in_order s) /\
     Permutation (AVL.post_order s) (AVL.in_order s) /\
     Permutation (AVL.level_order s) (AVL.in_order s)) /\
  (forall s : @RB.rbt K,
     RB.number_of_elements s = length (RB.in_order s) /\
     Permutation (RB.pre_order s) (RB.in_order s) /\
     Permutation (RB.post_order s) (RB.in_order s) /\
     Permutation (RB.level_order s) (RB.in_order s)).
Proof.
  split; [|split]; intros s.
  - auto using bst_number_in_order, bst_pre_perm, bst_post_perm, bst_level_perm.
  - rewrite avl_view_number, avl_view_pre_order, avl_view_post_order,
      avl_view_level_order, avl_view_in_order.
    auto using bst_number_in_order, bst_pre_perm, bst_post_perm, bst_level_perm.
  - rewrite rb_view_number, rb_view_pre_order, rb_view_post_order,
      rb_view_level_order, rb_view_in_order.
    auto using bst_number_in_order, bst_pre_perm, bst_post_perm, bst_level_perm.
Qed.

(** X2: [is_empty] returns true exactly when [number_of_elements] is 0, for
    every tree of each of the three kinds. *)
Theorem is_empty_iff_no_elements {K : Type} :
  (forall s : @BST.bst K, BSTMore.is_empty s = true <-> BST.number_of_elements s = 0) /\
  (forall s : @AVL.avl K, AVLMore.is_empty s = true <-> AVL.number_of_elements s = 0) /\
  (forall s : @RB.rbt K, RBMore.is_empty s = true <-> RB.number_of_elements s = 0).
Proof.
  split; [|split]; intros s.
  - apply bst_is_empty.
  - rewrite avl_view_is_empty, avl_view_number. apply bst_is_empty.
  - rewrite rb_view_is_empty, rb_view_number. apply bst_is_empty.
Qed.

(** X3: the children recorded by [find_connections], in order, are the keys
    of [level_order] after the root; so it returns one pair fewer than
    [number_of_elements] (none for an empty tree). *)
Theorem find_connections_children {K : Type} :
  (forall s : @BST.bst K,
     map snd (BSTMore.find_connections s) = tl (BST.level_order s) /\
     length (BSTMore.find_connections s) = BST.number_of_elements s - 1) /\
  (forall s : @AVL.avl K,
     map snd (AVLMore.find_connections s) = tl (AVL.level_order s) /\
     length (AVLMore.find_connections s) = AVL.number_of_elements s - 1) /\
  (forall s : @RB.rbt K,
     map snd (RBMore.find_connections s) = tl (RB.level_order s) /\
     length (RBMore.find_connections s) = RB.number_of_elements s - 1).
Proof.
  split; [|split]; intros s.
  - auto using bst_connections, bst_connections_length.
  - rewrite avl_view_connections, avl_view_level_order, avl_view_number.
    auto using bst_connections, bst_connections_length.
  - rewrite rb_view_connections, rb_view_level_order, rb_view_number.
    auto using bst_connections, bst_connections_length.
Qed.

(** X4: [is_balanced] returns true on every AVL tree built by [insert] and
    [remove] from [new()], whatever the keys. *)
Theorem avl_is_balanced_run {K : Type} (pcmp : K -> K -> option comparison)
    (ops : list (op K)) :
  AVLMore.is_balanced (AVL.run pcmp ops) = true.
Proof. apply check_balance_ok, AVLProofs.run_ok. Qed.

(** [is_valid_red_black_tree] decides the Red-Black invariants. *)
Lemma rb_validator_iff {K : Type} (s : @RB.rbt K) :
  RBMore.is_valid_red_black_tree s = true <->
  RB.is_red_node s.(RB.root) = false /\ exists n, RB.rb_valid n s.(RB.root).
Proof.
  unfold RBMore.is_valid_red_black_tree.
  destruct (RB.is_red_node (RB.root s)); split.
  - discriminate.
  - intros [H _]. discriminate.
  - intros H. apply andb_prop in H as [H1 H2]. split; [reflexivity|].
    destruct (RBMore.check_black_height (RB.root s)) as [h|] eqn:E; [|discriminate].
    pose proof (black_height_pos _ _ E) as Hh. destruct h as [|n]; [lia|].
    exists n. now apply rb_valid_check.
  - intros [_ [n Hn]]. apply rb_valid_check in Hn as [-> ->]. reflexivity.
Qed.

(** X5: [is_valid_red_black_tree] returns true exactly when the root is not
    Red, no Red node has a Red child and every path from the root to a
    [None] crosses the same number of Black nodes. *)
Theorem rb_validator_exact {K : Type} (s : @RB.rbt K) :
  RBMore.is_valid_red_black_tree s = true <->
  RB.is_red_node s.(RB.root) = false /\ exists n, RB.rb_valid n s.(RB.root).
Proof. apply rb_validator_iff. Qed.

(** X6: with a lawful [PartialOrd], [is_valid_red_black_tree] returns true on
    every Red-Black tree built by [insert] and [remove] from [new()]. *)
Theorem rb_is_valid_run {K : Type} (pcmp : K -> K -> option comparison)
    (HP : partial_laws pcmp) (ops : list (op K)) :
  RBMore.is_valid_red_black_tree (RB.run pcmp ops) = true.
Proof.
  apply rb_validator_iff.
  destruct (RBProofs.rb_inv_run pcmp HP ops) as ([n Hn] & Hc & _).
  split; [exact Hc|]. exists n. now apply RBProofs.llrb_rb_valid.
Qed.

Lemma rb_is_valid_run_witness :
  partial_laws zcmp /\ RBMore.is_valid_red_black_tree (RB.run zcmp sample) = true.
Proof.
  split; [exact Facts.zcmp_partial|].
  apply (rb_is_valid_run zcmp Facts.zcmp_partial sample).
Defined.

(** X7: with a lawful [PartialOrd], [is_valid_bst] returns true on every AVL
    tree and every Red-Black tree built by [insert] and [remove] from
    [new()]. *)
Theorem is_valid_bst_run {K : Type} (pcmp : K -> K -> option comparison)
    (HP : partial_laws pcmp) (ops : list (op K)) :
  AVLMore.is_valid_bst pcmp (AVL.run pcmp ops) = true /\
  RBMore.is_valid_bst pcmp (RB.run pcmp ops) = true.
Proof.
  split.
  - destruct (AVLProofs.avl_inv_run pcmp HP ops) as (_ & Hs & _).
    apply (avl_check_sorted pcmp HP); auto. intros k _. split; exact I.
  - destruct (RBProofs.rb_inv_run pcmp HP ops) as (_ & _ & Hs & _).
    apply (rb_check_sorted pcmp HP); auto. intros k _. split; exact I.
Qed.

Lemma is_valid_bst_run_witness :
  partial_laws f64_cmp /\
  (AVLMore.is_valid_bst f64_cmp (AVL.run f64_cmp [Ins (Num 2); Ins NaN; Ins (Num 1)]) = true /\
   RBMore.is_valid_bst f64_cmp (RB.run f64_cmp [Ins (Num 2); Ins NaN; Ins (Num 1)]) = true).
Proof.
  split; [exact Facts.f64_partial|].
  apply (is_valid_bst_run f64_cmp Facts.f64_partial).
Defined.

(** X8: for a totally ordered key type, [is_valid_bst] returns true exactly
    when [in_order] is strictly increasing, on any AVL or Red-Black tree. *)
Theorem is_valid_bst_sorted {K : Type} (pcmp : K -> K -> option comparison)
    (HT : total_laws pcmp) :
  (forall s : @AVL.avl K,
     AVLMore.is_valid_bst pcmp s = true <->
     StronglySorted (key_lt pcmp) (AVL.in_order s)) /\
  (forall s : @RB.rbt K,
     RBMore.is_valid_bst pcmp s = true <->
     StronglySorted (key_lt pcmp) (RB.in_order s)).
Proof.
  split; intros s.
  - rewrite AVLLoops.in_order_eq. unfold AVLMore.is_valid_bst. split.
    + intros H. now apply (avl_check_total pcmp HT) in H.
    + intros H. apply (avl_check_sorted pcmp (total_partial HT)); auto.
      intros k _. split; exact I.
  - rewrite RBLoops.in_order_eq_rb. unfold RBMore.is_valid_bst. split.
    + intros H. now apply (rb_check_total pcmp HT) in H.
    + intros H. apply (rb_check_sorted pcmp (total_partial HT)); auto.
      intros k _. split; exact I.
Qed.

Lemma is_valid_bst_sorted_witness :
  total_laws zcmp /\
  (AVLMore.is_valid_bst zcmp (AVL.mk_avl (AVL.Node 1 AVL.Leaf (AVL.Node 0 AVL.Leaf AVL.Leaf 1) 2)
                                         None None) = true <->
   StronglySorted (key_lt zcmp)
     (AVL.in_order (AVL.mk_avl (AVL.Node 1 AVL.Leaf (AVL.Node 0 AVL.Leaf AVL.Leaf 1) 2)
                               None None)))%Z.
Proof.
  split; [exact Facts.zcmp_total|].
  apply (is_valid_bst_sorted zcmp Facts.zcmp_total).
Defined.

(** X9: with a lawful [PartialOrd], [ceil(v)] on a tree built by [insert]
    and [remove] from [new()] returns the first key of [in_order] that is
    not [<] [v], or [None] if there is none. *)
Theorem ceil_first_not_below {K : Type} (pcmp : K -> K -> option comparison)
    (HP : partial_laws pcmp) (ops : list (op K)) (v : K) :
  BST.ceil pcmp (BST.run pcmp ops) v =
    find (fun k => negb (lt_b pcmp k v)) (BST.in_order (BST.run pcmp ops)) /\
  AVL.ceil pcmp (AVL.run pcmp ops) v =
    find (fun k => negb (lt_b pcmp k v)) (AVL.in_order (AVL.run pcmp ops)) /\
  RB.ceil pcmp (RB.run pcmp ops) v =
    find (fun k => negb (lt_b pcmp k v)) (RB.in_order (RB.run pcmp ops)).
Proof.
  split; [|split].
  - apply (bst_ceil_spec pcmp HP). apply BSTProofs.inv_run, HP.
  - rewrite avl_ceil_view, avl_view_in_order.
    apply (bst_ceil_spec pcmp HP), avl_sorted_view, AVLProofs.avl_inv_run, HP.
  - rewrite rb_ceil_view, rb_view_in_order.
    apply (bst_ceil_spec pcmp HP), rb_sorted_view, RBProofs.rb_inv_run, HP.
Qed.

Lemma ceil_first_not_below_witness :
  partial_laws f64_cmp /\
  (BST.ceil f64_cmp (BST.run f64_cmp [Ins (Num 2); Ins NaN; Ins (Num 1)]) (Num 0) =
     find (fun k => negb (lt_b f64_cmp k (Num 0)))
       (BST.in_order (BST.run f64_cmp [Ins (Num 2); Ins NaN; Ins (Num 1)])) /\
   AVL.ceil f64_cmp (AVL.run f64_cmp [Ins (Num 2); Ins NaN; Ins (Num 1)]) (Num 0) =
     find (fun k => negb (lt_b f64_cmp k (Num 0)))
       (AVL.in_order (AVL.run f64_cmp [Ins (Num 2); Ins NaN; Ins (Num 1)])) /\
   RB.ceil f64_cmp (RB.run f64_cmp [Ins (Num 2); Ins NaN; Ins (Num 1)]) (Num 0) =
     find (fun k => negb (lt_b f64_cmp k (Num 0)))
       (RB.in_order (RB.run f64_cmp [Ins (Num 2); Ins NaN; Ins (Num 1)]))).
Proof.
  split; [exact Facts.f64_partial|].
  apply (ceil_first_not_below f64_cmp Facts.f64_partial).
Defined.

(** X10: with a lawful [PartialOrd], [floor(v)] on a tree built by [insert]
    and [remove] from [new()] returns the last key of [in_order] that is
    not [>] [v], or [None] if there is none. *)
Theorem floor_last_not_above {K : Type} (pcmp : K -> K -> option comparison)
    (HP : partial_laws pcmp) (ops : list (op K)) (v : K) :
  BST.floor pcmp (BST.run pcmp ops) v =
    find (fun k => negb (gt_b pcmp k v)) (rev (BST.in_order (BST.run pcmp ops))) /\
  AVL.floor pcmp (AVL.run pcmp ops) v =
    find (fun k => negb (gt_b pcmp k v)) (rev (AVL.in_order (AVL.run pcmp ops))) /\
  RB.floor pcmp (RB.run pcmp ops) v =
    find (fun k => negb (gt_b pcmp k v)) (rev (RB.in_order (RB.run pcmp ops))).
Proof.
  split; [|split].
  - apply (bst_floor_spec pcmp HP). apply BSTProofs.inv_run, HP.
  - rewrite avl_floor_view, avl_view_in_order.
    apply (bst_floor_spec pcmp HP), avl_sorted_view, AVLProofs.avl_inv_run, HP.
  - rewrite rb_floor_view, rb_view_in_order.
    apply (bst_floor_spec pcmp HP), rb_sorted_view, RBProofs.rb_inv_run, HP.
Qed.

Lemma floor_last_not_above_witness :
  partial_laws zcmp /\
  (BST.floor zcmp (BST.run zcmp sample) 7%Z =
     find (fun k => negb (gt_b zcmp k 7%Z)) (rev (BST.in_order (BST.run zcmp sample))) /\
   AVL.floor zcmp (AVL.run zcmp sample) 7%Z =
     find (fun k => negb (gt_b zcmp k 7%Z)) (rev (AVL.in_order (AVL.run zcmp sample))) /\
   RB.floor zcmp (RB.run zcmp sample) 7%Z =
     find (fun k => negb (gt_b zcmp k 7%Z)) (rev (RB.in_order (RB.run zcmp sample)))).
Proof.
  split; [exact Facts.zcmp_partial|].
  apply (floor_last_not_above zcmp Facts.zcmp_partial).
Defined.

(** X11: with a lawful [PartialOrd], [contains(v)] on a tree built by
    [insert] and [remove] from [new()] is true exactly when [v] is in
    [in_order] and [v] compares [Equal] to itself; a stored NaN is never
    found. *)
Theorem contains_stored_comparable {K : Type} (pcmp : K -> K -> option comparison)
    (HP : partial_laws pcmp) (ops : list (op K)) (v : K) :
  (BST.contains pcmp (BST.run pcmp ops) v = true <->
     In v (BST.in_order (BST.run pcmp ops)) /\ pcmp v v = Some Eq) /\
  (AVL.contains pcmp (AVL.run pcmp ops) v = true <->
     In v (AVL.in_order (AVL.run pcmp ops)) /\ pcmp v v = Some Eq) /\
  (RB.contains pcmp (RB.run pcmp ops) v = true <->
     In v (RB.in_order (RB.run pcmp ops)) /\ pcmp v v = Some Eq).
Proof.
  split; [|split].
  - apply (bst_contains_spec pcmp HP). apply BSTProofs.inv_run, HP.
  - rewrite avl_contains_view, avl_view_in_order.
    apply (bst_contains_spec pcmp HP), avl_sorted_view, AVLProofs.avl_inv_run, HP.
  - rewrite rb_contains_view, rb_view_in_order.
    apply (bst_contains_spec pcmp HP), rb_sorted_view, RBProofs.rb_inv_run, HP.
Qed.

Lemma contains_stored_comparable_witness :
  partial_laws f64_cmp /\
  ((BST.contains f64_cmp (BST.run f64_cmp [Ins (Num 2); Ins NaN]) NaN = true <->
      In NaN (BST.in_order (BST.run f64_cmp [Ins (Num 2); Ins NaN])) /\
      f64_cmp NaN NaN = Some Eq) /\
   (AVL.contains f64_cmp (AVL.run f64_cmp [Ins (Num 2); Ins NaN]) NaN = true <->
      In NaN (AVL.in_order (AVL.run f64_cmp [Ins (Num 2); Ins NaN])) /\
      f64_cmp NaN NaN = Some Eq) /\
   (RB.contains f64_cmp (RB.run f64_cmp [Ins (Num 2); Ins NaN]) NaN = true <->
      In NaN (RB.in_order (RB.run f64_cmp [Ins (Num 2); Ins NaN])) /\
      f64_cmp NaN NaN = Some Eq)).
Proof.
  split; [exact Facts.f64_partial|].
  apply (contains_stored_comparable f64_cmp Facts.f64_partial).
Defined.

(** X12: with a lawful [PartialOrd], [remove(v)] on a Binary Search Tree or
    an AVL tree built by [insert] and [remove] from [new()] leaves the tree
    exactly as it was (nodes, heights and cached min and max) when
    [contains(v)] is false. *)
Theorem remove_absent_unchanged {K : Type} (pcmp : K -> K -> option comparison)
    (HP : partial_laws pcmp) (ops : list (op K)) (v : K) :
  (BST.contains pcmp (BST.run pcmp ops) v = false ->
   BST.remove pcmp (BST.run pcmp ops) v = BST.run pcmp ops) /\
  (AVL.contains pcmp (AVL.run pcmp ops) v = false ->
   AVL.remove pcmp (AVL.run pcmp ops) v = AVL.run pcmp ops).
Proof.
  split.
  - apply (bst_remove_absent pcmp), BSTProofs.inv_run, HP.
  - apply (avl_remove_absent pcmp), AVLProofs.avl_inv_run, HP.
Qed.

Lemma remove_absent_unchanged_witness :
  partial_laws zcmp /\
  (BST.contains zcmp (BST.run zcmp sample) 7%Z = false /\
   BST.remove zcmp (BST.run zcmp sample) 7%Z = BST.run zcmp sample) /\
  (AVL.contains zcmp (AVL.run zcmp sample) 7%Z = false /\
   AVL.remove zcmp (AVL.run zcmp sample) 7%Z = AVL.run zcmp sample).
Proof.
  split; [exact Facts.zcmp_partial|].
  destruct (remove_absent_unchanged zcmp Facts.zcmp_partial sample 7%Z) as [H1 H2].
  split; split; [vm_compute; reflexivity|apply H1; vm_compute; reflexivity
                |vm_compute; reflexivity|apply H2; vm_compute; reflexivity].
Defined.

(** X13: with a lawful [PartialOrd], [remove(v)] on a Red-Black tree built
    by [insert] and [remove] from [new()] keeps the key sequence and the
    cached [min] and [max] when [contains(v)] is false (the nodes may still
    be rotated and recolored). *)
Theorem rb_remove_absent_keys {K : Type} (pcmp : K -> K -> option comparison)
    (HP : partial_laws pcmp) (ops : list (op K)) (v : K) :
  RB.contains pcmp (RB.run pcmp ops) v = false ->
  RB.in_order (RB.remove pcmp (RB.run pcmp ops) v) = RB.in_order (RB.run pcmp ops) /\
  RB.min (RB.remove pcmp (RB.run pcmp ops) v) = RB.min (RB.run pcmp ops) /\
  RB.max (RB.remove pcmp (RB.run pcmp ops) v) = RB.max (RB.run pcmp ops).
Proof.
  intros H. rewrite !RBLoops.in_order_eq_rb.
  apply (rb_remove_absent pcmp HP); auto. apply RBProofs.rb_inv_run, HP.
Qed.

Lemma rb_remove_absent_keys_witness :
  partial_laws zcmp /\ RB.contains zcmp (RB.run zcmp sample) 0%Z = false /\
  (RB.in_order (RB.remove zcmp (RB.run zcmp sample) 0%Z) = RB.in_order (RB.run zcmp sample) /\
   RB.min (RB.remove zcmp (RB.run zcmp sample) 0%Z) = RB.min (RB.run zcmp sample) /\
   RB.max (RB.remove zcmp (RB.run zcmp sample) 0%Z) = RB.max (RB.run zcmp sample)).
Proof.
  split; [exact Facts.zcmp_partial|]. split; [vm_compute; reflexivity|].
  apply (rb_remove_absent_keys zcmp Facts.zcmp_partial sample 0%Z).
  vm_compute. reflexivity.
Defined.

(** X14: for a totally ordered key type, [insert(v)] on a tree built by
    [insert] and [remove] from [new()] adds one element when [contains(v)]
    was false and none when it was true. *)
Theorem insert_count {K : Type} (pcmp : K -> K -> option comparison)
    (HT : total_laws pcmp) (ops : list (op K)) (v : K) :
  BST.number_of_elements (BST.insert pcmp (BST.run pcmp ops) v) =
    BST.number_of_elements (BST.run pcmp ops) +
    (if BST.contains pcmp (BST.run pcmp ops) v then 0 else 1) /\
  AVL.number_of_elements (AVL.insert pcmp (AVL.run pcmp ops) v) =
    AVL.number_of_elements (AVL.run pcmp ops) +
    (if AVL.contains pcmp (AVL.run pcmp ops) v then 0 else 1) /\
  RB.number_of_elements (RB.insert pcmp (RB.run pcmp ops) v) =
    RB.number_of_elements (RB.run pcmp ops) +
    (if RB.contains pcmp (RB.run pcmp ops) v then 0 else 1).
Proof.
  pose proof (total_partial HT) as HP. split; [|split].
  - destruct (BSTProofs.inv_run pcmp HP ops) as (Hs & _).
    rewrite !bst_number_elements. unfold BST.contains.
    replace (BST.root (BST.insert pcmp (BST.run pcmp ops) v))
      with (BST.insert_at pcmp (BST.root (BST.run pcmp ops)) v)
      by (unfold BST.insert; destruct (BST.min_value _), (BST.max_value _); reflexivity).
    now apply (insert_at_length pcmp HT).
  - destruct (AVLProofs.avl_inv_run pcmp HP ops) as (_ & Hs & _).
    rewrite !avl_number_elements. unfold AVL.contains, AVL.insert. cbn [AVL.root].
    rewrite AVLProofs.insert_rec_elements, AVLProofs.contains_shape,
      <- AVLLoops.shape_elements.
    apply (insert_at_length pcmp HT). now rewrite AVLLoops.shape_elements.
  - destruct (RBProofs.rb_inv_run pcmp HP ops) as (_ & _ & Hs & _).
    rewrite !rb_number_elements. unfold RB.contains.
    rewrite RBProofs.root_insert, RBProofs.elements_blacken,
      RBProofs.insert_recursive_elements, RBProofs.contains_shape_rb,
      <- RBLoops.shape_elements_rb.
    apply (insert_at_length pcmp HT). now rewrite RBLoops.shape_elements_rb.
Qed.

Lemma insert_count_witness :
  total_laws zcmp /\
  (BST.number_of_elements (BST.insert zcmp (BST.run zcmp sample) 7%Z) =
     BST.number_of_elements (BST.run zcmp sample) +
     (if BST.contains zcmp (BST.run zcmp sample) 7%Z then 0 else 1) /\
   AVL.number_of_elements (AVL.insert zcmp (AVL.run zcmp sample) 7%Z) =
     AVL.number_of_elements (AVL.run zcmp sample) +
     (if AVL.contains zcmp (AVL.run zcmp sample) 7%Z then 0 else 1) /\
   RB.number_of_elements (RB.insert zcmp (RB.run zcmp sample) 7%Z) =
     RB.number_of_elements (RB.run zcmp sample) +
     (if RB.contains zcmp (RB.run zcmp sample) 7%Z then 0 else 1)).
Proof.
  split; [exact Facts.zcmp_total|].
  apply (insert_count zcmp Facts.zcmp_total).
Defined.

(** X15: for a totally ordered key type, [remove(v)] on a tree built by
    [insert] and [remove] from [new()] removes one element when [contains(v)]
    was true and none when it was false. *)
Theorem remove_count {K : Type} (pcmp : K -> K -> option comparison)
    (HT : total_laws pcmp) (ops : list (op K)) (v : K) :
  BST.number_of_elements (BST.remove pcmp (BST.run pcmp ops) v) =
    BST.number_of_elements (BST.run pcmp ops) -
    (if BST.contains pcmp (BST.run pcmp ops) v then 1 else 0) /\
  AVL.number_of_elements (AVL.remove pcmp (AVL.run pcmp ops) v) =
    AVL.number_of_elements (AVL.run pcmp ops) -
    (if AVL.contains pcmp (AVL.run pcmp ops) v then 1 else 0) /\
  RB.number_of_elements (RB.remove pcmp (RB.run pcmp ops) v) =
    RB.number_of_elements (RB.run pcmp ops) -
    (if RB.contains pcmp (RB.run pcmp ops) v then 1 else 0).
Proof.
  pose proof (total_partial HT) as HP. split; [|split].
  - destruct (BSTProofs.inv_run pcmp HP ops) as (Hs & _).
    rewrite !bst_number_elements. unfold BST.contains, BST.remove. cbn [BST.root].
    rewrite (BSTProofs.remove_at_spec pcmp HP) by exact Hs.
    now apply (remove_key_count pcmp HT).
  - destruct (AVLProofs.avl_inv_run pcmp HP ops) as (_ & Hs & _).
    rewrite !avl_number_elements. unfold AVL.contains, AVL.remove. cbn [AVL.root].
    rewrite (AVLProofs.remove_node_elements pcmp HP) by exact Hs.
    rewrite AVLProofs.contains_shape, <- AVLLoops.shape_elements.
    apply (remove_key_count pcmp HT). now rewrite AVLLoops.shape_elements.
  - pose proof (RBProofs.rb_inv_run pcmp HP ops) as Hi.
    pose proof Hi as (_ & _ & Hs & _).
    rewrite !rb_number_elements. unfold RB.contains.
    rewrite (Facts.rb_remove_elements pcmp HT) by exact Hi.
    rewrite RBProofs.contains_shape_rb, <- RBLoops.shape_elements_rb.
    apply (remove_key_count pcmp HT). now rewrite RBLoops.shape_elements_rb.
Qed.

Lemma remove_count_witness :
  total_laws zcmp /\
  (BST.number_of_elements (BST.remove zcmp (BST.run zcmp sample) 5%Z) =
     BST.number_of_elements (BST.run zcmp sample) -
     (if BST.contains zcmp (BST.run zcmp sample) 5%Z then 1 else 0) /\
   AVL.number_of_elements (AVL.remove zcmp (AVL.run zcmp sample) 5%Z) =
     AVL.number_of_elements (AVL.run zcmp sample) -
     (if AVL.contains zcmp (AVL.run zcmp sample) 5%Z then 1 else 0) /\
   RB.number_of_elements (RB.remove zcmp (RB.run zcmp sample) 5%Z) =
     RB.number_of_elements (RB.run zcmp sample) -
     (if RB.contains zcmp (RB.run zcmp sample) 5%Z then 1 else 0)).
Proof.
  split; [exact Facts.zcmp_total|].
  apply (remove_count zcmp Facts.zcmp_total).
Defined.

(** [height()] of a reachable AVL tree, from the root's stored field. *)
Lemma avl_height_root {K : Type} (pcmp : K -> K -> option comparison)
    (ops : list (op K)) :
  AVL.height (AVL.run pcmp ops) = AVL.height_of (AVL.run pcmp ops).(AVL.root) - 1.
Proof.
  unfold AVL.height. rewrite AVLLoops.height_depth.
  now rewrite avl_height_field by apply AVLProofs.run_ok.
Qed.

(** X16: on an AVL tree built by [insert] and [remove] from [new()],
    [height()] equals the [height] field stored in the root node minus one
    (0 for an empty tree): the stored heights stay exact. *)
Theorem avl_height_stored {K : Type} (pcmp : K -> K -> option comparison)
    (ops : list (op K)) :
  AVL.height (AVL.run pcmp ops) = AVL.height_of (AVL.run pcmp ops).(AVL.root) - 1.
Proof. apply avl_height_root. Qed.

(** X17: on a non-empty AVL tree built by [insert] and [remove] from
    [new()], with [n] elements and height [h], [2^(h+1) <= (n+1)^2], i.e.
    [h + 1 <= 2 log2 (n+1)]. *)
Theorem avl_height_logarithmic {K : Type} (pcmp : K -> K -> option comparison)
    (ops : list (op K)) :
  0 < AVL.number_of_elements (AVL.run pcmp ops) ->
  2 ^ (AVL.height (AVL.run pcmp ops) + 1) <=
  (AVL.number_of_elements (AVL.run pcmp ops) + 1) ^ 2.
Proof.
  rewrite avl_height_root, avl_number_elements, <- AVLLoops.shape_elements,
    <- size_length, AVLLoops.shape_size.
  intros Hn.
  pose proof (AVLProofs.run_ok pcmp ops) as Ho.
  destruct (AVL.root (AVL.run pcmp ops)) as [|x l r h] eqn:E; [cbn in Hn; lia|].
  pose proof (AVLProofs.height_ok _ Ho ltac:(discriminate)) as H1.
  replace (AVL.height_of (AVL.Node x l r h) - 1 + 1) with (AVL.height_of (AVL.Node x l r h))
    by lia.
  rewrite Nat.pow_2_r. now apply avl_size_bound.
Qed.

Lemma avl_height_logarithmic_witness :
  0 < AVL.number_of_elements (AVL.run zcmp sample) /\
  2 ^ (AVL.height (AVL.run zcmp sample) + 1) <=
  (AVL.number_of_elements (AVL.run zcmp sample) + 1) ^ 2.
Proof.
  assert (H : 0 < AVL.number_of_elements (AVL.run zcmp sample))
    by (apply Nat.ltb_lt; vm_compute; reflexivity).
  split; [exact H|]. exact (avl_height_logarithmic zcmp sample H).
Defined.

(** X18: with a lawful [PartialOrd], on a non-empty Red-Black tree built by
    [insert] and [remove] from [new()], with [n] elements and height [h],
    [2^(h+1) <= (n+1)^2], i.e. [h + 1 <= 2 log2 (n+1)]. *)
Theorem rb_height_logarithmic {K : Type} (pcmp : K -> K -> option comparison)
    (HP : partial_laws pcmp) (ops : list (op K)) :
  0 < RB.number_of_elements (RB.run pcmp ops) ->
  2 ^ (RB.height (RB.run pcmp ops) + 1) <=
  (RB.number_of_elements (RB.run pcmp ops) + 1) ^ 2.
Proof.
  intros Hn. destruct (RBProofs.rb_inv_run pcmp HP ops) as ([n Hl] & Hc & _).
  unfold RB.height. rewrite RBLoops.height_depth_rb.
  rewrite rb_number_elements, <- RBProofs.size_elements in *.
  destruct (RB.root (RB.run pcmp ops)) as [|x l r c] eqn:E; [cbn in Hn; lia|].
  pose proof (llrb_depth n _ Hl) as Hd. rewrite Hc in Hd.
  pose proof (llrb_size n _ Hl) as Hs.
  assert (Hd1 : 1 <= BSTLoops.depth (RBLoops.shape (RB.Node x l r c))) by (cbn; lia).
  replace (BSTLoops.depth (RBLoops.shape (RB.Node x l r c)) - 1 + 1)
    with (BSTLoops.depth (RBLoops.shape (RB.Node x l r c))) by lia.
  transitivity (2 ^ (2 * n)); [apply Nat.pow_le_mono_r; lia|].
  replace (2 * n) with (n + n) by lia.
  rewrite Nat.pow_add_r, Nat.pow_2_r. now apply Nat.mul_le_mono.
Qed.

Lemma rb_height_logarithmic_witness :
  partial_laws zcmp /\ 0 < RB.number_of_elements (RB.run zcmp sample) /\
  2 ^ (RB.height (RB.run zcmp sample) + 1) <=
  (RB.number_of_elements (RB.run zcmp sample) + 1) ^ 2.
Proof.
  assert (H : 0 < RB.number_of_elements (RB.run zcmp sample))
    by (apply Nat.ltb_lt; vm_compute; reflexivity).
  split; [exact Facts.zcmp_partial|]. split; [exact H|].
  exact (rb_height_logarithmic zcmp Facts.zcmp_partial sample H).
Defined.

End Extras.
